(** * twitch-archiver: the live-stream downloader

    A shallow embedding of [twitcharchiver/downloaders/stream.py]
    (classes [StreamSegmentList], [StreamSegment], [StreamSegment.Part]
    and [Stream]) together with the properties its specification states.

    Modelling conventions.
    - A Python [float] (timestamp, duration) is the rational [Q] it
      denotes.  The arithmetic of the segment list, [part.timestamp -
      self.stream_created_at], [4 + ..], [.. / 10] and [self.duration +=
      part.duration], rounds every result to binary64 as the interpreter
      does: [Float.round] is round-to-nearest, ties to even, with 53
      significant bits and the subnormals down to [2 ^ -1074].  A [Q] has
      no infinity and no NaN, so a result beyond the largest binary64
      value is outside the model; the timestamps of [datetime] lie far
      below it.  [math.floor] is [Qfloor] and [int(..)] is truncation
      towards zero.  Two readings of the clock are subtracted exactly,
      as binary64 subtracts two values of which neither is more than
      twice the other.
    - Python [int] is [Z], [str] is [string], [bytes] is [list Byte.byte].
    - The [dict] [StreamSegmentList.segments] is a [gmap Z _]; a Python
      [set] of parts is a duplicate-free list under [Part.__eq__].
    - Raised exceptions are values of [exn]; a method that can raise
      returns a [result].
    - [Stream.__init__], [Stream._do_setup] and [Stream.delete_segments]
      rest on classes that are not among the sources ([Vod], [Channel],
      [Downloader]) and are left out; a [Stream.t] is the object once
      its fields have been set. *)

From Stdlib Require Import ZArith QArith Qround Lia Lqa Sorted.
From stdpp Require Import gmap strings list pretty.

Local Open Scope Z_scope.

(** ** Exceptions *)

Inductive exn : Type :=
| KeyError
| AttributeError
| TwitchAPIErrorNotFound
| TwitchAPIError
| ConnectTimeout
| RequestException
| OSError
| StreamFetchError
| UnsupportedStreamPartDuration
| StreamSegmentDownloadError (segment_id : Z) (cause : exn)
| StreamDownloadError (cause : exn).

Inductive result (A : Type) : Type :=
| Ok (a : A)
| Raise (e : exn).
Arguments Ok {A} a.
Arguments Raise {A} e.

#[global] Instance result_fmap : FMap result := λ A B f r,
  match r with
  | Ok a => Ok (f a)
  | Raise e => Raise e
  end.
#[global] Instance result_ret : MRet result := λ A a, Ok a.
#[global] Instance result_bind : MBind result := λ A B f r,
  match r with
  | Ok a => f a
  | Raise e => Raise e
  end.

(** ** Binary64 arithmetic

    [round] is the rounding every arithmetic operation on a Python
    [float] ends with.  A value is scaled by [2 ^ 1074], so that every
    binary64 value becomes an integer; [expo] is the number of low bits a
    53-bit significand cannot hold at that magnitude, and the scaled value
    is rounded to the nearest multiple of [2 ^ expo], to the even one on a
    tie. *)

Module Float.

(** The nearest integer, the even one of two equally near. *)
Definition half_even (x : Q) : Z :=
  let f := Qfloor x in
  match (x - inject_Z f ?= 1 # 2)%Q with
  | Lt => f
  | Gt => f + 1
  | Eq => if Z.even f then f else f + 1
  end.

Definition scale : Z := Eval vm_compute in 2 ^ 1074.

Definition expo (X : Q) : Z := Z.max 0 (Z.log2 (Qfloor X) - 52).

Definition round_nonneg (x : Q) : Q :=
  let X := (x * inject_Z scale)%Q in
  (inject_Z (half_even (X / inject_Z (2 ^ expo X)) * 2 ^ expo X) / inject_Z scale)%Q.

Definition round (x : Q) : Q :=
  Qred (if Qle_bool 0 x then round_nonneg x else - round_nonneg (- x))%Q.

(** [x + y], [x - y] and [x / y] on floats ([y] not zero). *)
Definition add (x y : Q) : Q := round (x + y).
Definition sub (x y : Q) : Q := round (x - y).
Definition div (x y : Q) : Q := round (x / y).

End Float.

(** ** [StreamSegment.Part] *)

Module Part.

Record t : Type := mk {
  url : string;
  timestamp : Q;
  duration : Q;
  title : string
}.

(** [__eq__]: both operands are parts, so only the [url]s are compared. *)
Definition __eq__ (self other : t) : bool := String.eqb (url self) (url other).

Section Hash.
(** Python's [hash] on [str], left abstract. *)
Variable str_hash : string → Z.

Definition __hash__ (self : t) : Z := str_hash (url self).
End Hash.

End Part.

(** A Python [set] of parts: membership goes through [Part.__eq__], and
    [add] keeps the element already present. *)
Module PartSet.

Definition t : Type := list Part.t.

Definition empty : t := [].

Definition contains (s : t) (p : Part.t) : bool := existsb (Part.__eq__ p) s.

Definition add (s : t) (p : Part.t) : t := if contains s p then s else s ++ [p].

Definition len (s : t) : Z := Z.of_nat (length s).

End PartSet.

(** ** [StreamSegment] *)

Module StreamSegment.

Record t : Type := mk {
  parts : list Part.t;
  id : Z;
  duration : Q
}.

Definition __init__ (segment_id : Z) : t := mk [] segment_id 0.

Definition add_part (self : t) (part : Part.t) : t :=
  mk (parts self ++ [part]) (id self) (Float.add (duration self) (Part.duration part)).

Definition is_full (self : t) : bool :=
  if Z.of_nat (length (parts self)) =? 5 then true else false.

(** The class defines [parts], [id] and [duration] only: reading
    [v_id] raises. *)
Definition v_id (self : t) : result Z := Raise AttributeError.

(** [list.__eq__] on two lists of parts: same length and equal elements,
    position by position, under [Part.__eq__]. *)
Fixpoint parts_eq (l1 l2 : list Part.t) : bool :=
  match l1, l2 with
  | [], [] => true
  | p1 :: l1', p2 :: l2' => Part.__eq__ p1 p2 && parts_eq l1' l2'
  | _, _ => false
  end.

(** [__eq__], for an operand of the same class. *)
Definition __eq__ (self other : t) : bool :=
  if parts_eq (parts self) (parts other) then true else false.

End StreamSegment.

(** ** [StreamSegmentList] *)

Module StreamSegmentList.

Record t : Type := mk {
  segments : gmap Z StreamSegment.t;
  current_id : Z;
  _align_segments : bool;
  stream_created_at : Q
}.

Definition __init__ (stream_created_at : Q) (align_segments : bool) (start_id : Z) : t :=
  mk ∅ (start_id + 1) align_segments stream_created_at.

Definition set_current_id (i : Z) (self : t) : t :=
  mk (segments self) i (_align_segments self) (stream_created_at self).

Definition set_segment (i : Z) (s : StreamSegment.t) (self : t) : t :=
  mk (<[i := s]> (segments self)) (current_id self) (_align_segments self)
     (stream_created_at self).

Definition _get_id_for_part (self : t) (part : Part.t) : Z :=
  Qfloor (Float.div (Float.add 4 (Float.sub (Part.timestamp part) (stream_created_at self))) 10).

Definition is_segment_present (self : t) (segment_id : Z) : bool :=
  bool_decide (segment_id ∈ dom (segments self)).

Definition get_segment_by_id (self : t) (segment_id : Z) : result StreamSegment.t :=
  match segments self !! segment_id with
  | Some s => Ok s
  | None => Raise KeyError
  end.

(** [self.segments[i] = StreamSegment(i)].  The second component is a
    ghost log of the ids at which a segment object was created, oldest
    first; the program keeps no such log. *)
Definition new_segment (i : Z) (st : t * list Z) : t * list Z :=
  (set_segment i (StreamSegment.__init__ i) st.1, st.2 ++ [i]).

(** The id chosen on lines 39-44. *)
Definition target_id (self : t) (part : Part.t) : Z :=
  if _align_segments self then _get_id_for_part self part else current_id self.

Definition add_part_logged (st : t * list Z) (part : Part.t) : result (t * list Z) :=
  let _parent_segment_id := target_id st.1 part in
  (* create parent segment if one doesn't yet exist *)
  let st :=
    if is_segment_present st.1 _parent_segment_id then st
    else new_segment _parent_segment_id
           (set_current_id _parent_segment_id st.1, st.2) in
  (* create new segment and increment ID if current segment complete *)
  seg ← get_segment_by_id st.1 _parent_segment_id;
  let '(_parent_segment_id, st) :=
    if Z.of_nat (length (StreamSegment.parts seg)) =? 5 then
      let _parent_segment_id := _parent_segment_id + 1 in
      (_parent_segment_id,
       new_segment _parent_segment_id
         (set_current_id _parent_segment_id st.1, st.2))
    else (_parent_segment_id, st) in
  (* append part to parent segment *)
  seg ← get_segment_by_id st.1 _parent_segment_id;
  mret (set_segment _parent_segment_id (StreamSegment.add_part seg part) st.1, st.2).

Definition add_part (self : t) (part : Part.t) : result t :=
  fst <$> add_part_logged (self, []) part.

(** The loop runs over the dictionary's keys; its only effects are the
    additions to the local set and the exception of [v_id], so the
    order of the keys does not show. *)
Definition get_completed_segment_ids (self : t) : result (gset Z) :=
  foldl (λ (acc : result (gset Z)) (kv : Z * StreamSegment.t),
           _segment_ids ← acc;
           if Z.of_nat (length (StreamSegment.parts kv.2)) =? 5 then
             v ← StreamSegment.v_id kv.2;
             mret ({[v]} ∪ _segment_ids)
           else mret _segment_ids)
        (mret ∅) (map_to_list (segments self)).

(** [dict.pop] without a default raises [KeyError] on a missing key. *)
Definition pop_segment (self : t) (seg_id : Z) : result (StreamSegment.t * t) :=
  match segments self !! seg_id with
  | Some s =>
      Ok (s, mk (delete seg_id (segments self)) (current_id self)
                (_align_segments self) (stream_created_at self))
  | None => Raise KeyError
  end.

End StreamSegmentList.

(** ** The outside world

    The network, the clock and the file system are not part of the
    program.  [Env] fixes in advance what the outside answers; [World]
    is what changes while the program runs. *)

(** What happens to one [requests.get(url, stream=True, timeout=5)]. *)
Inductive net_outcome : Type :=
| NetFail                          (* the call raises a RequestException *)
| NetResponse (status_code : Z)    (* a response whose body arrives whole *)
| NetBroken (status_code : Z) (delivered : nat).
                                   (* the body stream raises after that many chunks *)

Record Env : Type := mkEnv {
  clock : nat → Q;                          (* successive readings of the wall clock *)
  playlist : nat → result (list Part.t);    (* successive [get_stream_playlist] answers, parsed *)
  payload : string → list Byte.byte;             (* the bytes served at a URL *)
  net : nat → net_outcome;                  (* fate of the successive part requests *)
  move_ok : nat → bool;                     (* whether the successive relocations succeed *)
  tempdir : string                          (* [tempfile.gettempdir()] *)
}.

Inductive event : Type :=
| EvRequest (url : string)
| EvMove (src dst : string)
| EvSleep (seconds : Z)
| EvError (segment_id : Z).   (* 'Maximum attempts reached while downloading segment' *)

Record World : Type := mkWorld {
  ticks : nat;                       (* clock readings taken so far *)
  fetches : nat;                     (* playlist requests made so far *)
  requests : nat;                    (* part requests made so far *)
  moves : nat;                       (* relocations attempted so far *)
  files : gmap string (list Byte.byte);
  trace : list event                 (* observable actions, oldest first *)
}.

(** ** [Stream] *)

Module Stream.

Record t : Type := mk {
  _align_segments : bool;
  _index_uri : string;
  _incoming_part_buffer : list Part.t;
  _download_queue : option StreamSegmentList.t;   (* [None] until [_do_setup] builds it *)
  _processed_parts : PartSet.t;
  _last_part_announce : Q;
  output_dir : string;
  s_id : string                                    (* [str(self.stream.s_id)] *)
}.

Definition set_buffer (b : list Part.t) (s : t) : t :=
  mk (_align_segments s) (_index_uri s) b (_download_queue s)
     (_processed_parts s) (_last_part_announce s) (output_dir s) (s_id s).

Definition set_queue (q : StreamSegmentList.t) (s : t) : t :=
  mk (_align_segments s) (_index_uri s) (_incoming_part_buffer s) (Some q)
     (_processed_parts s) (_last_part_announce s) (output_dir s) (s_id s).

Definition set_processed (p : PartSet.t) (s : t) : t :=
  mk (_align_segments s) (_index_uri s) (_incoming_part_buffer s) (_download_queue s)
     p (_last_part_announce s) (output_dir s) (s_id s).

Definition set_output_dir (d : string) (s : t) : t :=
  mk (_align_segments s) (_index_uri s) (_incoming_part_buffer s) (_download_queue s)
     (_processed_parts s) (_last_part_announce s) d (s_id s).

Definition set_announce (a : Q) (s : t) : t :=
  mk (_align_segments s) (_index_uri s) (_incoming_part_buffer s) (_download_queue s)
     (_processed_parts s) a (output_dir s) (s_id s).

(** *** The monad of methods: object and world are threaded through,
    and both keep their changes when a method raises. *)

Definition state : Type := t * World.

Definition M (A : Type) : Type := state → result A * state.

#[global] Instance M_ret : MRet M := λ A a st, (Ok a, st).
#[global] Instance M_bind : MBind M := λ A B f m st,
  match m st with
  | (Ok a, st') => f a st'
  | (Raise e, st') => (Raise e, st')
  end.

Definition raise {A : Type} (e : exn) : M A := λ st, (Raise e, st).

(** [try: body / except <handled>: handler]: [handler e] is [None] for
    the exceptions the clause does not name. *)
Definition try_except {A : Type} (body : M A) (handler : exn → option (M A)) : M A :=
  λ st,
    match body st with
    | (Ok a, st') => (Ok a, st')
    | (Raise e, st') =>
        match handler e with
        | Some h => h st'
        | None => (Raise e, st')
        end
    end.

Definition lift {A : Type} (r : result A) : M A := λ st, (r, st).

Definition get_self : M t := λ st, (Ok st.1, st).
Definition modify_self (f : t → t) : M unit := λ st, (Ok tt, (f st.1, st.2)).
Definition get_world : M World := λ st, (Ok st.2, st).
Definition modify_world (f : World → World) : M unit := λ st, (Ok tt, (st.1, f st.2)).

Definition emit (e : event) : M unit :=
  modify_world (λ w, mkWorld (ticks w) (fetches w) (requests w) (moves w) (files w)
                             (trace w ++ [e])).

Definition set_files (f : gmap string (list Byte.byte)) : M unit :=
  modify_world (λ w, mkWorld (ticks w) (fetches w) (requests w) (moves w) f (trace w)).

(** *** Loops.  A loop body says how the loop goes on. *)

Inductive ctl : Type :=
| Continue    (* the body ended or ran [continue] *)
| Break
| Return.     (* [return] from the enclosing method *)

(** [for x in l: body].  The result is [Return] when the body returned
    from the method, and [Continue] when the loop was left otherwise. *)
Fixpoint for_each {A : Type} (l : list A) (body : A → M ctl) : M ctl :=
  match l with
  | [] => mret Continue
  | x :: rest =>
      c ← body x;
      match c with
      | Continue => for_each rest body
      | Break => mret Continue
      | Return => mret Return
      end
  end.

Definition range6 : list Z := [0; 1; 2; 3; 4; 5].

Section WithEnv.

Variable env : Env.

(** [datetime.now(timezone.utc).timestamp()] and
    [datetime.utcnow().timestamp()]: one more reading of the clock. *)
Definition now : M Q := λ st,
  let w := st.2 in
  (Ok (clock env (ticks w)),
   (st.1, mkWorld (S (ticks w)) (fetches w) (requests w) (moves w) (files w) (trace w))).

Definition sleep (seconds : Z) : M unit := emit (EvSleep seconds).

(** [int(x)] on a float: truncation towards zero. *)
Definition int_of_float (x : Q) : Z :=
  if Qle_bool 0 x then Qfloor x else Qceiling x.

(** Modelled from the spec: [twitcharchiver.utils.time_since_date] is
    not among the sources; the spec calls its result the "elapsed time
    since the last successful part announcement", here the current
    clock reading minus the given timestamp. *)
Definition time_since_date (timestamp : Q) : M Q :=
  t ← now; mret (t - timestamp)%Q.

(** [m3u8.loads(self.channel.get_stream_playlist(self._index_uri)).segments]
    turned into parts. *)
Definition get_stream_playlist : M (list Part.t) := λ st,
  let w := st.2 in
  (playlist env (fetches w),
   (st.1, mkWorld (ticks w) (S (fetches w)) (requests w) (moves w) (files w) (trace w))).

(** Lines 347-350, for one advertised part. *)
Definition absorb_part (_part : Part.t) : M ctl :=
  self ← get_self;
  if negb (PartSet.contains (_processed_parts self) _part) then
    modify_self (λ s, set_processed (PartSet.add (_processed_parts s) _part) s);;
    modify_self (λ s, set_buffer (_incoming_part_buffer s ++ [_part]) s);;
    t ← now;
    modify_self (set_announce t);;
    mret Continue
  else mret Continue.

(** One round of the retry loop, lines 338-356. *)
Definition fetch_attempt (i : Z) : M ctl :=
  try_except
    (if 4 <? i then raise StreamFetchError
     else
       ps ← get_stream_playlist;
       for_each ps absorb_part;;
       mret Break)
    (λ e, match e with
          | ConnectTimeout => Some (mret Continue)
          | _ => None
          end).

Definition _fetch_advertised_parts : M unit :=
  _ ← now;
  for_each range6 fetch_attempt;;
  mret tt.

(** [self._download_queue.add_part(_part)], line 379. *)
Definition queue_add_part (_part : Part.t) : M unit :=
  self ← get_self;
  match _download_queue self with
  | None => raise AttributeError
  | Some q =>
      q' ← lift (StreamSegmentList.add_part q _part);
      modify_self (set_queue q')
  end.

(** The loop of lines 362-379.  [_unsupported_parts] is the method's
    local set. *)
Fixpoint build_loop (_unsupported_parts : PartSet.t) (buffer : list Part.t) : M unit :=
  match buffer with
  | [] => mret tt
  | _part :: rest =>
      if negb (String.eqb (Part.title _part) "live") then
        build_loop _unsupported_parts rest
      else
        self ← get_self;
        let _unsupported_parts :=
          if _align_segments self && negb (Qeq_bool (Part.duration _part) 2)
          then PartSet.add _unsupported_parts _part
          else _unsupported_parts in
        if 1 <? PartSet.len _unsupported_parts then
          raise UnsupportedStreamPartDuration
        else
          queue_add_part _part;;
          build_loop _unsupported_parts rest
  end.

Definition _build_download_queue : M unit :=
  self ← get_self;
  build_loop PartSet.empty (_incoming_part_buffer self);;
  modify_self (set_buffer []).

(** *** Files and requests *)

Definition path_join (a b : string) : string := a +:+ "/" +:+ b.

Fixpoint zeros (n : nat) : string :=
  match n with
  | O => ""
  | S n' => "0" +:+ zeros n'
  end.

(** [f'{n:05d}']: the sign counts towards the width of five. *)
Definition format_05d (n : Z) : string :=
  let digits := pretty (Z.abs_N n) in
  let sign := if n <? 0 then "-" else "" in
  sign +:+ zeros (5 - String.length sign - String.length digits) +:+ digits.

Definition segment_file_name (segment_id : Z) : string :=
  format_05d segment_id +:+ ".ts".

(** [open(path, 'wb')]: the file exists and is empty afterwards. *)
Definition open_wb (path : string) : M unit :=
  w ← get_world; set_files (<[path := []]> (files w)).

Definition write (path : string) (chunk : list Byte.byte) : M unit :=
  w ← get_world;
  set_files (<[path := default [] (files w !! path) ++ chunk]> (files w)).

Record response : Type := mkResponse {
  status_code : Z;
  chunks : list (list Byte.byte);   (* what [iter_content] yields *)
  broken : bool                     (* whether it then raises *)
}.

Fixpoint split_chunks (fuel size : nat) (data : list Byte.byte) : list (list Byte.byte) :=
  match fuel, data with
  | O, _ | _, [] => []
  | S fuel', _ => take size data :: split_chunks fuel' size (drop size data)
  end.

Definition iter_content (chunk_size : nat) (data : list Byte.byte) : list (list Byte.byte) :=
  split_chunks (length data) chunk_size data.

Definition chunk_size : nat := Z.to_nat 262144.

Definition requests_get (url : string) : M response := λ st,
  let w := st.2 in
  let st' := (st.1, mkWorld (ticks w) (fetches w) (S (requests w)) (moves w) (files w)
                            (trace w ++ [EvRequest url])) in
  match net env (requests w) with
  | NetFail => (Raise RequestException, st')
  | NetResponse c => (Ok (mkResponse c (iter_content chunk_size (payload env url)) false), st')
  | NetBroken c k =>
      (Ok (mkResponse c (take k (iter_content chunk_size (payload env url))) true), st')
  end.

(** Modelled from the spec: [twitcharchiver.utils.safe_move] is not
    among the sources; by the spec "the temporary file is atomically
    relocated into the output directory" and "any exception during
    relocation is fatal".  A relocation that succeeds leaves the bytes
    at the destination and nothing at the source. *)
Definition safe_move (src dst : string) : M unit := λ st,
  let w := st.2 in
  let w' f := mkWorld (ticks w) (fetches w) (requests w) (S (moves w)) f
                      (trace w ++ [EvMove src dst]) in
  match move_ok env (moves w), files w !! src with
  | true, Some content => (Ok tt, (st.1, w' (<[dst := content]> (delete src (files w)))))
  | _, _ => (Raise OSError, (st.1, w' (files w)))
  end.

(** Lines 405-416, for one part of the segment. *)
Definition download_part (_temp_buffer_file : string) (_part : Part.t) : M ctl :=
  try_except
    (_r ← requests_get (Part.url _part);
     if negb (status_code _r =? 200) then mret Return
     else
       for_each (chunks _r) (λ chunk, write _temp_buffer_file chunk;; mret Continue);;
       if broken _r then raise RequestException else mret Continue)
    (λ e, match e with
          | RequestException => Some (mret Continue)
          | _ => None
          end).

(** One round of the retry loop, lines 397-425. *)
Definition download_attempt (segment : StreamSegment.t) (_temp_buffer_file : string)
    (i : Z) : M ctl :=
  if 4 <? i then
    emit (EvError (StreamSegment.id segment));;
    mret Return
  else
    open_wb _temp_buffer_file;;
    c ← for_each (StreamSegment.parts segment) (download_part _temp_buffer_file);
    match c with
    | Return => mret Return
    | _ =>
        try_except
          (self ← get_self;
           safe_move _temp_buffer_file
             (path_join (output_dir self) (segment_file_name (StreamSegment.id segment)));;
           mret Break)
          (λ e, Some (raise (StreamSegmentDownloadError (StreamSegment.id segment) e)))
    end.

Definition _download_segment (segment : StreamSegment.t) : M unit :=
  self ← get_self;
  let _temp_buffer_file :=
    path_join (path_join (path_join (tempdir env) "twitch-archiver") (s_id self))
              (segment_file_name (StreamSegment.id segment)) in
  for_each range6 (download_attempt segment _temp_buffer_file);;
  mret tt.

Definition _download_queued_segments : M unit :=
  self ← get_self;
  match _download_queue self with
  | None => raise AttributeError
  | Some q =>
      ids ← lift (StreamSegmentList.get_completed_segment_ids q);
      for_each (elements ids) (λ _segment_id,
        self ← get_self;
        match _download_queue self with
        | None => raise AttributeError
        | Some q =>
            popped ← lift (StreamSegmentList.pop_segment q _segment_id);
            modify_self (set_queue popped.2);;
            _download_segment popped.1;;
            mret Continue
        end);;
      mret tt
  end.

Definition _get_final_segment : M unit :=
  self ← get_self;
  match _download_queue self with
  | None => raise AttributeError
  | Some q =>
      if StreamSegmentList.is_segment_present q (StreamSegmentList.current_id q) then
        seg ← lift (StreamSegmentList.get_segment_by_id q (StreamSegmentList.current_id q));
        _download_segment seg
      else mret tt
  end.

(** An object without [__bool__] and [__len__] is true; [None] is not. *)
Definition truthy {A : Type} (o : option A) : bool :=
  match o with
  | Some _ => true
  | None => false
  end.

Definition single_download_pass : M unit :=
  try_except
    (_fetch_advertised_parts;;
     _build_download_queue;;
     _download_queued_segments)
    (λ e, match e with
          | TwitchAPIErrorNotFound =>
              Some (self ← get_self;
                    if truthy (_download_queue self) then _get_final_segment
                    else mret tt)
          | _ => Some (raise (StreamDownloadError e))
          end).

(** Lines 232-234 and 327-329. *)
Definition cadence_sleep (_start_timestamp : Q) : M unit :=
  t ← now;
  let _loop_time := int_of_float (t - _start_timestamp) in
  if _loop_time <? 4 then sleep (4 - _loop_time) else mret tt.

(** [while True] of [start], unrolled at most [fuel] times: the result
    is [true] when the method returned and [false] when the loop was
    still running. *)
Fixpoint start_loop (fuel : nat) (_start_timestamp : Q) : M bool :=
  match fuel with
  | O => mret false
  | S fuel' =>
      single_download_pass;;
      self ← get_self;
      since ← time_since_date (_last_part_announce self);
      if negb (Qle_bool since 20) then
        _get_final_segment;;
        mret true
      else
        cadence_sleep _start_timestamp;;
        start_loop fuel' _start_timestamp
  end.

Definition start (fuel : nat) : M bool :=
  _start_timestamp ← now;
  start_loop fuel _start_timestamp.

(** [_buffer_stream], after the buffer directory has been chosen
    ([build_output_dir_name] is not among the sources, its result is
    the argument [buffer_dir]). *)
Definition _buffer_stream (buffer_dir : string) (stream_length : Z) : M unit :=
  modify_self (set_output_dir buffer_dir);;
  for_each (seq 0 (Z.to_nat (int_of_float (inject_Z (120 - stream_length) / 4)%Q))) (λ _,
    _start_timestamp ← now;
    single_download_pass;;
    cadence_sleep _start_timestamp;;
    mret Continue);;
  sleep ((120 - stream_length) `mod` 4).

End WithEnv.

End Stream.

(** ** [Api], the request wrapper of [api.py]

    The [requests] library is the outside: [send] says what a request is
    answered with, [None] standing for a raised [RequestException].  Each
    method returns the requests it has sent, oldest first, and how it
    ended.  Its exceptions are those of [src.exceptions], a module of
    their own. *)

Module Api.

Inductive verb : Type := GET | POST.

Section WithValues.

(** Python values handed through: parameters, headers, bodies, sessions. *)
Variable value : Type.

Record request : Type := mkRequest {
  req_verb : verb;
  req_url : string;
  req_params : option value;
  req_headers : option value;
  req_data : option value;
  req_json : option value;
  req_session : option value
}.

Record response : Type := mkResponse {
  status_code : Z;
  text : string
}.

Inductive error : Type :=
| RequestError (pushbullet_key url : string)
| TwitchAPIErrorBadRequest (pushbullet_key url : string) (status_code : Z) (text : string)
| TwitchAPIErrorForbidden (pushbullet_key url : string) (status_code : Z) (text : string)
| TwitchAPIErrorNotFound (pushbullet_key url : string) (status_code : Z) (text : string)
| TwitchAPIError (pushbullet_key url : string) (status_code : Z) (text : string)
| UnboundLocalError.

Inductive outcome : Type :=
| Returned (r : response)
| Raised (e : error).

Record t : Type := mk { pushbullet_key : string }.

Variable send : request → option response.

(** The checks on [_r.status_code], lines 39-51 and 66-78. *)
Definition check_status (self : t) (url : string) (_r : response) : outcome :=
  if status_code _r =? 400 then
    Raised (TwitchAPIErrorBadRequest (pushbullet_key self) url (status_code _r) (text _r))
  else if status_code _r =? 403 then
    Raised (TwitchAPIErrorForbidden (pushbullet_key self) url (status_code _r) (text _r))
  else if status_code _r =? 404 then
    Raised (TwitchAPIErrorNotFound (pushbullet_key self) url (status_code _r) (text _r))
  else if negb (status_code _r =? 200) then
    Raised (TwitchAPIError (pushbullet_key self) url (status_code _r) (text _r))
  else Returned _r.

Definition get_request (self : t) (url : string) (p h : option value)
  : list request * outcome :=
  let req :=
    match p with
    | None => mkRequest GET url None h None None None
    | Some _ => mkRequest GET url p None None None None
    end in
  match send req with
  | None => ([req], Raised (RequestError (pushbullet_key self) url))
  | Some _r => ([req], check_status self url _r)
  end.

Definition get_request_with_session (self : t) (url : string) (session : value)
  : list request * outcome :=
  let req := mkRequest GET url None None None None (Some session) in
  match send req with
  | None => ([req], Raised (RequestError (pushbullet_key self) url))
  | Some _r => ([req], check_status self url _r)
  end.

(** With both [d] and [j] given neither branch runs and [_r] is never
    bound: reading it raises [UnboundLocalError]. *)
Definition post_request (self : t) (url : string) (d j h : option value)
  : list request * outcome :=
  let sent :=
    match j, d with
    | None, _ => Some (mkRequest POST url None h d None None)
    | Some _, None => Some (mkRequest POST url None h None j None)
    | Some _, Some _ => None
    end in
  match sent with
  | Some req =>
      match send req with
      | None => ([req], Raised (RequestError (pushbullet_key self) url))
      | Some _r =>
          if negb (status_code _r =? 200) then
            ([req], Raised (TwitchAPIError (pushbullet_key self) url
                              (status_code _r) (text _r)))
          else ([req], Returned _r)
      end
  | None => ([], Raised UnboundLocalError)
  end.

End WithValues.

End Api.

(** ** Sequences of calls and concrete inputs *)

(** [for p in ps: self.add_part(p)], with the creation log. *)
Fixpoint add_parts_logged (st : StreamSegmentList.t * list Z) (ps : list Part.t)
  : result (StreamSegmentList.t * list Z) :=
  match ps with
  | [] => Ok st
  | p :: rest => st' ← StreamSegmentList.add_part_logged st p; add_parts_logged st' rest
  end.

Definition add_parts (self : StreamSegmentList.t) (ps : list Part.t)
  : result StreamSegmentList.t :=
  fst <$> add_parts_logged (self, []) ps.

(** [n] passes one after the other, whatever each of them raises. *)
Fixpoint passes (env : Env) (n : nat) (st : Stream.state) : Stream.state :=
  match n with
  | O => st
  | S n' => passes env n' (Stream.single_download_pass env st).2
  end.

(** A content part of the nominal duration. *)
Definition live_part (url : string) (timestamp : Q) : Part.t :=
  Part.mk url timestamp 2 "live".

Definition get_ok {A : Type} (d : A) (r : result A) : A :=
  match r with
  | Ok a => a
  | Raise _ => d
  end.

(** Five parts in the window of segment 1, for a broadcast started at 0. *)
Definition window1 : list Part.t :=
  [live_part "a" 6; live_part "b" 8; live_part "c" 10; live_part "d" 12; live_part "e" 14].

Definition full_list : StreamSegmentList.t :=
  let fresh := StreamSegmentList.__init__ 0 true (-1) in
  get_ok fresh (add_parts fresh window1).

(** The same five parts on a list that does not align. *)
Definition full_plain_list : StreamSegmentList.t :=
  let fresh := StreamSegmentList.__init__ 0 false 0 in
  get_ok fresh (add_parts fresh window1).

(** Two parts whose timestamps go backwards. *)
Definition backwards : list Part.t := [live_part "x" 30; live_part "y" 2].

(** Seven parts, 1.5 seconds apart, all in the window of segment 1. *)
Definition crowded : list Part.t :=
  [live_part "a" 6; live_part "b" (15 # 2); live_part "c" 9; live_part "d" (21 # 2);
   live_part "e" 12; live_part "f" (27 # 2); live_part "g" 15].

(** Five parts two seconds apart, the first [off] seconds after [T]. *)
Definition five_parts (T off : Q) : list Part.t :=
  [live_part "p1" (T + off); live_part "p2" (T + (off + 2)); live_part "p3" (T + (off + 4));
   live_part "p4" (T + (off + 6)); live_part "p5" (T + (off + 8))]%Q.

(** The number of relocations into the output directory that a trace
    records. *)
Definition is_move (e : event) : bool :=
  match e with
  | EvMove _ _ => true
  | _ => false
  end.

Definition relocations (tr : list event) : nat := length (filter is_move tr).

Definition world0 : World := mkWorld 0 0 0 0 ∅ [].

Definition served (url : string) : list Byte.byte :=
  if String.eqb url "a" then [Byte.x41; Byte.x41] else [Byte.x42].

(** The first part request fails in the network, every later one is
    answered in full. *)
Definition flaky_env : Env :=
  mkEnv (λ _, 0%Q) (λ _, Ok [])
        served
        (λ n, match n with O => NetFail | _ => NetResponse 200 end)
        (λ _, true) "/tmp".

Definition two_part_segment : StreamSegment.t :=
  StreamSegment.mk [live_part "a" 6; live_part "b" 8] 1 4.

Definition aligned_stream : Stream.t :=
  Stream.mk true "index" [] (Some (StreamSegmentList.__init__ 0 true 0)) [] 0 "out" "42".

(** A broadcast that has ended: every playlist request is answered
    not-found; the clock advances five seconds between readings. *)
Definition ended_env : Env :=
  mkEnv (λ n, inject_Z (5 * Z.of_nat n)) (λ _, Raise TwitchAPIErrorNotFound)
        served (λ _, NetResponse 200) (λ _, true) "/tmp".


(** A quiet pass: the playlist advertises nothing, and the fourth clock
    reading, the one taken after the pass, is 1.5 seconds after the
    others. *)
Definition idle_env : Env :=
  mkEnv (λ n, if Nat.eqb n 3 then (3 # 2)%Q else 0%Q) (λ _, Ok [])
        served (λ _, NetResponse 200) (λ _, true) "/tmp".

(** Nothing is advertised and every clock reading is one second after
    the one before. *)
Definition ticking_env : Env :=
  mkEnv (λ n, inject_Z (Z.of_nat n)) (λ _, Ok [])
        served (λ _, NetResponse 200) (λ _, true) "/tmp".

(** Every playlist request times out. *)
Definition timeout_env : Env :=
  mkEnv (λ _, 0%Q) (λ _, Raise ConnectTimeout) served (λ _, NetResponse 200) (λ _, true) "/tmp".


(** The same two parts are advertised again and again. *)
Definition repeat_env : Env :=
  mkEnv (λ _, 0%Q) (λ _, Ok [live_part "a" 6; live_part "b" 8])
        served (λ _, NetResponse 200) (λ _, true) "/tmp".

(** A buffer with an advertisement part before a live part. *)
Definition mixed_buffer_stream : Stream.t :=
  Stream.mk true "index"
    [Part.mk "ad" 4 2 "Amazon"; live_part "a" 6]
    (Some (StreamSegmentList.__init__ 0 true 0)) [] 0 "out" "42".

(** A session whose queue holds a segment of five parts. *)
Definition full_queue_stream : Stream.t :=
  Stream.mk true "index" [] (Some full_list) [] 0 "out" "42".

(** The object before [_do_setup] has built the queue. *)
Definition unset_stream : Stream.t :=
  Stream.mk true "" [] None [] 0 "buffer" "42".

(** The second part request is answered 404, every other one 200. *)
Definition refusing_env : Env :=
  mkEnv (λ _, 0%Q) (λ _, Ok []) served
        (λ n, if Nat.eqb n 1 then NetResponse 404 else NetResponse 200)
        (λ _, true) "/tmp".

(** The bytes that the [n]-th part request writes to the buffer file when
    it is made for [url]: all of the payload, the chunks that arrived
    before the stream broke, or nothing when the request failed. *)
Definition delivered (env : Env) (n : nat) (url : string) : list Byte.byte :=
  match net env n with
  | NetFail => []
  | NetResponse _ => payload env url
  | NetBroken _ k => concat (take k (Stream.iter_content Stream.chunk_size (payload env url)))
  end.

(** The same for the parts of a segment, requested one after the other
    from the [n]-th request on. *)
Fixpoint delivered_all (env : Env) (n : nat) (ps : list Part.t) : list Byte.byte :=
  match ps with
  | [] => []
  | p :: ps' => delivered env n (Part.url p) ++ delivered_all env (S n) ps'
  end.

(** A request that is not answered with a status other than 200. *)
Definition not_refused (o : net_outcome) : Prop :=
  match o with
  | NetFail => True
  | NetResponse c | NetBroken c _ => c = 200
  end.

(** The first request fails, the second breaks off after its first
    chunk, the third is answered in full. *)
Definition lossy_env : Env :=
  mkEnv (λ _, 0%Q) (λ _, Ok []) served
        (λ n, match n with
              | O => NetFail
              | S O => NetBroken 200 1
              | _ => NetResponse 200
              end)
        (λ _, true) "/tmp".

Definition three_part_segment : StreamSegment.t :=
  StreamSegment.mk [live_part "x" 6; live_part "a" 8; live_part "b" 10] 1 6.

(** The path of the buffer file of [_download_segment]. *)
Definition temp_path (env : Env) (s : Stream.t) (segment : StreamSegment.t) : string :=
  Stream.path_join
    (Stream.path_join (Stream.path_join (tempdir env) "twitch-archiver") (Stream.s_id s))
    (Stream.segment_file_name (StreamSegment.id segment)).

(** The path of the segment's file in the output directory. *)
Definition output_path (s : Stream.t) (segment : StreamSegment.t) : string :=
  Stream.path_join (Stream.output_dir s) (Stream.segment_file_name (StreamSegment.id segment)).

(** A clock that is set back by ten seconds after its first reading. *)
Definition backwards_clock_env : Env :=
  mkEnv (λ n, if Nat.eqb n 0 then 10%Q else 0%Q) (λ _, Ok [])
        served (λ _, NetResponse 200) (λ _, true) "/tmp".



(** ** Relations between states, for the statements below *)

Section ListRelations.

Import StreamSegmentList.

(** A part is stored when some segment of the list holds it. *)
Definition stored (self : t) (p : Part.t) : Prop :=
  ∃ j seg, segments self !! j = Some seg ∧ p ∈ StreamSegment.parts seg.

(** Every segment sits at its own id, holds one to five parts, and its
    duration is the sum of the durations of its parts, added up in
    order from 0 with the rounding of each [+=]. *)
Definition well_formed (self : t) : Prop :=
  ∀ k seg,
    segments self !! k = Some seg →
    StreamSegment.id seg = k ∧
    (1 ≤ length (StreamSegment.parts seg) ≤ 5)%nat ∧
    StreamSegment.duration seg =
      foldl Float.add 0%Q (map Part.duration (StreamSegment.parts seg)).

(** What one call leaves behind, by the segment found at the target id
    [c]: none, one with five parts, or one with fewer. *)
Definition placed (self : t) (c : Z) (p : Part.t) : t :=
  match segments self !! c with
  | None =>
      mk (<[c := StreamSegment.mk [p] c (Float.add 0 (Part.duration p))]> (segments self))
         c (_align_segments self) (stream_created_at self)
  | Some seg =>
      if bool_decide (length (StreamSegment.parts seg) = 5%nat) then
        mk (<[c + 1 := StreamSegment.mk [p] (c + 1) (Float.add 0 (Part.duration p))]>
              (segments self))
           (c + 1) (_align_segments self) (stream_created_at self)
      else
        mk (<[c := StreamSegment.mk (StreamSegment.parts seg ++ [p]) (StreamSegment.id seg)
                     (Float.add (StreamSegment.duration seg) (Part.duration p))]>
              (segments self))
           (current_id self) (_align_segments self) (stream_created_at self)
  end.

(** Whether the segment at the id chosen for the part holds five parts. *)
Definition target_full (self : t) (p : Part.t) : bool :=
  match segments self !! target_id self p with
  | Some seg => Z.of_nat (length (StreamSegment.parts seg)) =? 5
  | None => false
  end.

Definition is_live (p : Part.t) : bool := String.eqb (Part.title p) "live".

(** What holds between two calls: [a] and [c0] are the list's mode and
    start time, [lastc] the target id of the latest call. *)
Record created_inv (a : bool) (c0 : Q) (self : t) (log : list Z) (lastc : Z) : Prop := {
  inv_align : _align_segments self = a;
  inv_start : stream_created_at self = c0;
  inv_sorted : StronglySorted Z.le log;
  inv_last : last log = Some (current_id self);
  inv_log : ∀ i, i ∈ log → i ≤ current_id self;
  inv_keys : ∀ k, is_Some (segments self !! k) → k ≤ current_id self;
  inv_near : current_id self = lastc ∨
             (current_id self = lastc + 1 ∧ is_Some (segments self !! lastc))
}.

End ListRelations.

Section StreamRelations.

Import Stream.

(** What fetching the playlist leaves alone: every field of the object
    but the processed set, the part buffer and the announcement time, and
    everything in the world but the counters of the clock and of the
    playlist requests. *)
Record fetch_frame (st st' : state) : Prop := {
  ff_align : _align_segments st'.1 = _align_segments st.1;
  ff_index : _index_uri st'.1 = _index_uri st.1;
  ff_queue : _download_queue st'.1 = _download_queue st.1;
  ff_dir : output_dir st'.1 = output_dir st.1;
  ff_sid : s_id st'.1 = s_id st.1;
  ff_requests : requests st'.2 = requests st.2;
  ff_moves : moves st'.2 = moves st.2;
  ff_files : files st'.2 = files st.2;
  ff_trace : trace st'.2 = trace st.2
}.

(** No URL occurs twice in the processed set or in the part buffer, and
    every buffered part is in the processed set. *)
Definition urls_unique (s : t) : Prop :=
  NoDup (map Part.url (_processed_parts s)) ∧
  NoDup (map Part.url (_incoming_part_buffer s)) ∧
  ∀ p, p ∈ _incoming_part_buffer s → PartSet.contains (_processed_parts s) p = true.



(** The world after [n] more playlist requests. *)
Definition after_fetches (n : nat) (w : World) : World :=
  mkWorld (ticks w) (n + fetches w) (requests w) (moves w) (files w) (trace w).



(** [new] is what a step appended to the part buffer: the same parts
    were added to the processed set, no URL twice, none of a URL that
    was in the processed set before. *)
Record tracked (s s' : t) (new : list Part.t) : Prop := {
  tr_buffer : _incoming_part_buffer s' = _incoming_part_buffer s ++ new;
  tr_processed : _processed_parts s' = _processed_parts s ++ new;
  tr_nodup : NoDup (map Part.url new);
  tr_fresh : ∀ p, p ∈ new → PartSet.contains (_processed_parts s) p = false
}.

(** Steps that neither touch the object nor relocate or remove a file. *)
Record quiet (st st' : state) : Prop := {
  q_self : st'.1 = st.1;
  q_moves : moves st'.2 = moves st.2;
  q_reloc : relocations (trace st'.2) = relocations (trace st.2);
  q_files : ∀ path, is_Some (files st.2 !! path) → is_Some (files st'.2 !! path)
}.

End StreamRelations.

(** * Properties *)

(** ** Binary64 rounding *)

Section FloatFacts.
Import Float.

Lemma half_even_comp (x y : Q) : (x == y)%Q → half_even x = half_even y.
Proof.
  intros H. unfold half_even. rewrite (Qfloor_comp _ _ H).
  assert (Hc : (x - inject_Z (Qfloor y) ?= 1 # 2)%Q = (y - inject_Z (Qfloor y) ?= 1 # 2)%Q)
    by (by rewrite H).
  by rewrite Hc.
Qed.

Lemma half_even_bounds (x : Q) : Qfloor x ≤ half_even x ≤ Qfloor x + 1.
Proof.
  unfold half_even. cbn zeta.
  destruct (_ ?= _)%Q; [destruct (Z.even _)|..]; lia.
Qed.

Lemma half_even_mono (x y : Q) : (x <= y)%Q → half_even x ≤ half_even y.
Proof.
  intros H. pose proof (Qfloor_resp_le _ _ H) as Hf.
  destruct (Z.eq_dec (Qfloor x) (Qfloor y)) as [He|Hne].
  - unfold half_even. cbn zeta. rewrite He.
    assert (Hxy : (x - inject_Z (Qfloor y) <= y - inject_Z (Qfloor y))%Q).
    { unfold Qminus. by apply Qplus_le_l. }
    destruct (x - inject_Z (Qfloor y) ?= 1 # 2)%Q eqn:Hx;
      destruct (y - inject_Z (Qfloor y) ?= 1 # 2)%Q eqn:Hy;
      try (destruct (Z.even _)); try lia; exfalso;
      first [apply Qeq_alt in Hx | apply Qlt_alt in Hx | apply Qgt_alt in Hx];
      first [apply Qeq_alt in Hy | apply Qlt_alt in Hy | apply Qgt_alt in Hy];
      apply (Qle_not_lt _ _ Hxy);
      first [ rewrite Hx; exact Hy | rewrite Hy; exact Hx | exact (Qlt_trans _ (1 # 2) _ Hy Hx) ].
  - pose proof (half_even_bounds x). pose proof (half_even_bounds y). lia.
Qed.


Lemma scale_pos : (0 < inject_Z scale)%Q.
Proof. reflexivity. Qed.

Lemma pow2_pos (j : Z) : 0 ≤ j → (0 < inject_Z (2 ^ j))%Q.
Proof.
  intros Hj. change 0%Q with (inject_Z 0). rewrite <- Zlt_Qlt.
  by apply Z.pow_pos_nonneg.
Qed.

Lemma expo_nonneg (X : Q) : 0 ≤ expo X.
Proof. unfold expo. lia. Qed.

Lemma expo_mono (X Y : Q) : (X <= Y)%Q → expo X ≤ expo Y.
Proof.
  intros H. unfold expo. pose proof (Z.log2_le_mono _ _ (Qfloor_resp_le _ _ H)). lia.
Qed.

(** A scaled value lies below [2 ^ (53 + expo)] ... *)
Lemma expo_upper (X : Q) : (X < inject_Z (2 ^ (53 + expo X)))%Q.
Proof.
  apply (Qlt_le_trans _ (inject_Z (Qfloor X + 1))); [apply Qlt_floor|].
  rewrite <- Zle_Qle. unfold expo.
  destruct (Z.le_gt_cases (Qfloor X) 0) as [Hle|Hgt].
  - assert (0 < 2 ^ (53 + Z.max 0 (Z.log2 (Qfloor X) - 52)))
      by (apply Z.pow_pos_nonneg; lia). lia.
  - destruct (Z.log2_spec _ Hgt) as [_ Hup].
    assert (2 ^ Z.succ (Z.log2 (Qfloor X)) ≤ 2 ^ (53 + Z.max 0 (Z.log2 (Qfloor X) - 52)))
      by (apply Z.pow_le_mono_r; lia). lia.
Qed.

(** ... and, above the subnormal range, at or above [2 ^ (52 + expo)]. *)
Lemma expo_lower (Y : Q) : 0 < expo Y → (inject_Z (2 ^ (52 + expo Y)) <= Y)%Q.
Proof.
  unfold expo. intros Hj.
  apply (Qle_trans _ (inject_Z (Qfloor Y))); [|apply Qfloor_le].
  rewrite <- Zle_Qle.
  assert (Hgt : 0 < Qfloor Y).
  { destruct (Z.le_gt_cases (Qfloor Y) 0) as [Hle|]; [|done].
    rewrite (Z.log2_nonpos _ Hle) in Hj. lia. }
  destruct (Z.log2_spec _ Hgt) as [Hlo _].
  replace (52 + Z.max 0 (Z.log2 (Qfloor Y) - 52)) with (Z.log2 (Qfloor Y)) by lia.
  exact Hlo.
Qed.

Lemma round_nonneg_eq (x : Q) :
  round_nonneg x =
  (inject_Z (half_even (x * inject_Z scale / inject_Z (2 ^ expo (x * inject_Z scale)))
             * 2 ^ expo (x * inject_Z scale)) / inject_Z scale)%Q.
Proof. reflexivity. Qed.

Lemma round_nonneg_comp (x y : Q) : (x == y)%Q → round_nonneg x = round_nonneg y.
Proof.
  intros H. rewrite !round_nonneg_eq.
  assert (HX : (x * inject_Z scale == y * inject_Z scale)%Q) by (by rewrite H).
  assert (Hj : expo (x * inject_Z scale) = expo (y * inject_Z scale)).
  { unfold expo. by rewrite (Qfloor_comp _ _ HX). }
  rewrite Hj.
  rewrite (half_even_comp (x * inject_Z scale / inject_Z (2 ^ expo (y * inject_Z scale)))
             (y * inject_Z scale / inject_Z (2 ^ expo (y * inject_Z scale)))); [done|].
  by rewrite HX.
Qed.

Lemma round_nonneg_nonneg (x : Q) : (0 <= x)%Q → (0 <= round_nonneg x)%Q.
Proof.
  intros Hx. rewrite round_nonneg_eq. set (X := (x * inject_Z scale)%Q).
  assert (HX : (0 <= X)%Q).
  { apply Qmult_le_0_compat; [done|]. apply Qlt_le_weak, scale_pos. }
  apply Qle_shift_div_l; [apply scale_pos|]. rewrite Qmult_0_l.
  change 0%Q with (inject_Z 0). rewrite <- Zle_Qle.
  apply Z.mul_nonneg_nonneg; [|apply Z.pow_nonneg; lia].
  etrans; [|apply half_even_bounds].
  change 0 with (Qfloor 0). apply Qfloor_resp_le.
  apply Qle_shift_div_l; [apply pow2_pos, expo_nonneg|]. by rewrite Qmult_0_l.
Qed.

Lemma round_nonneg_mono (x y : Q) :
  (0 <= x)%Q → (x <= y)%Q → (round_nonneg x <= round_nonneg y)%Q.
Proof.
  intros Hx Hxy. rewrite !round_nonneg_eq.
  set (X := (x * inject_Z scale)%Q). set (Y := (y * inject_Z scale)%Q).
  assert (HXY : (X <= Y)%Q).
  { apply Qmult_le_compat_r; [done|]. apply Qlt_le_weak, scale_pos. }
  pose proof (expo_mono _ _ HXY) as Hj.
  pose proof (expo_nonneg X) as HjX.
  unfold Qdiv at 1 3. apply Qmult_le_compat_r;
    [|apply Qlt_le_weak, Qinv_lt_0_compat, scale_pos].
  rewrite <- Zle_Qle.
  destruct (Z.eq_dec (expo X) (expo Y)) as [He|Hne].
  - rewrite He. apply Z.mul_le_mono_nonneg_r; [apply Z.pow_nonneg; lia|].
    apply half_even_mono. unfold Qdiv. apply Qmult_le_compat_r; [done|].
    apply Qlt_le_weak, Qinv_lt_0_compat, pow2_pos. lia.
  - assert (Hlt : expo X < expo Y) by lia.
    trans (2 ^ (52 + expo Y)).
    + trans (2 ^ 53 * 2 ^ expo X).
      * apply Z.mul_le_mono_nonneg_r; [apply Z.pow_nonneg; lia|].
        assert (Qfloor (X / inject_Z (2 ^ expo X)) < 2 ^ 53); [|pose proof (half_even_bounds (X / inject_Z (2 ^ expo X))); lia].
        rewrite Zlt_Qlt.
        apply (Qle_lt_trans _ (X / inject_Z (2 ^ expo X))); [apply Qfloor_le|].
        apply Qlt_shift_div_r; [by apply pow2_pos|].
        rewrite <- inject_Z_mult, <- Z.pow_add_r by lia. apply expo_upper.
      * rewrite <- Z.pow_add_r by lia. apply Z.pow_le_mono_r; lia.
    + rewrite Z.pow_add_r by lia.
      apply Z.mul_le_mono_nonneg_r; [apply Z.pow_nonneg; lia|].
      etrans; [|apply half_even_bounds].
      rewrite <- (Qfloor_Z (2 ^ 52)). apply Qfloor_resp_le.
      apply Qle_shift_div_l; [apply pow2_pos; lia|].
      rewrite <- inject_Z_mult, <- Z.pow_add_r by lia. apply expo_lower. lia.
Qed.

Lemma round_comp (x y : Q) : (x == y)%Q → round x = round y.
Proof.
  intros H. unfold round. apply Qred_complete.
  assert (Hb : Qle_bool 0 x = Qle_bool 0 y) by (by rewrite H).
  rewrite Hb. destruct (Qle_bool 0 y).
  - by rewrite (round_nonneg_comp x y).
  - rewrite (round_nonneg_comp (- x) (- y)); [done|]. by rewrite H.
Qed.

Lemma round_mono (x y : Q) : (x <= y)%Q → (round x <= round y)%Q.
Proof.
  intros H. unfold round. rewrite !Qred_correct.
  destruct (Qle_bool 0 x) eqn:Hx; destruct (Qle_bool 0 y) eqn:Hy.
  - apply Qle_bool_iff in Hx. by apply round_nonneg_mono.
  - apply Qle_bool_iff in Hx. exfalso.
    assert (Hy' : Qle_bool 0 y = true); [|congruence].
    apply Qle_bool_iff. by apply (Qle_trans _ x).
  - apply Qle_bool_iff in Hy. apply (Qle_trans _ 0).
    + change 0%Q with (- 0)%Q. apply Qopp_le_compat, round_nonneg_nonneg.
      change 0%Q with (- 0)%Q. apply Qopp_le_compat.
      destruct (Qlt_le_dec x 0) as [Hlt|Hle]; [by apply Qlt_le_weak|].
      apply Qle_bool_iff in Hle. congruence.
    + by apply round_nonneg_nonneg.
  - apply Qopp_le_compat, round_nonneg_mono; [|by apply Qopp_le_compat].
    change 0%Q with (- 0)%Q. apply Qopp_le_compat.
    destruct (Qlt_le_dec y 0) as [Hlt|Hle]; [by apply Qlt_le_weak|].
    apply Qle_bool_iff in Hle. congruence.
Qed.


Lemma scale_eq : scale = 2 ^ 1074.
Proof. vm_compute. reflexivity. Qed.

Lemma half_even_Z (n : Z) : half_even (inject_Z n) = n.
Proof.
  unfold half_even. rewrite Qfloor_Z.
  assert (H : (inject_Z n - inject_Z n ?= 1 # 2)%Q = Lt).
  { apply Qlt_alt. assert (He : (inject_Z n - inject_Z n == 0)%Q) by ring.
    by rewrite He. }
  by rewrite H.
Qed.

Lemma round_nonneg_scaled (x : Q) (M : Z) :
  (x * inject_Z scale == inject_Z M)%Q →
  round_nonneg x =
  (inject_Z (half_even (inject_Z M / inject_Z (2 ^ Z.max 0 (Z.log2 M - 52)))
             * 2 ^ Z.max 0 (Z.log2 M - 52)) / inject_Z scale)%Q.
Proof.
  intros HX. rewrite round_nonneg_eq. unfold expo.
  rewrite (Qfloor_comp _ _ HX), Qfloor_Z.
  rewrite (half_even_comp (x * inject_Z scale / inject_Z (2 ^ Z.max 0 (Z.log2 M - 52)))
             (inject_Z M / inject_Z (2 ^ Z.max 0 (Z.log2 M - 52)))); [done|].
  by rewrite HX.
Qed.

(** A multiple of [2 ^ - k] with a numerator below [2 ^ 53] is a
    binary64 value. *)
Lemma round_nonneg_dyadic (m k : Z) :
  0 ≤ m < 2 ^ 53 → 0 ≤ k ≤ 1074 →
  (round_nonneg (inject_Z m / inject_Z (2 ^ k)) == inject_Z m / inject_Z (2 ^ k))%Q.
Proof.
  intros Hm Hk. set (x := (inject_Z m / inject_Z (2 ^ k))%Q).
  set (M := m * 2 ^ (1074 - k)).
  assert (H2k : ¬ (inject_Z (2 ^ k) == 0)%Q).
  { intros H. pose proof (pow2_pos k ltac:(lia)) as Hp. rewrite H in Hp.
    by apply Qlt_irrefl in Hp. }
  assert (HX : (x * inject_Z scale == inject_Z M)%Q).
  { unfold x, M. rewrite scale_eq.
    replace 1074 with (k + (1074 - k)) at 1 by lia.
    rewrite Z.pow_add_r by lia. rewrite !inject_Z_mult. by field. }
  rewrite (round_nonneg_scaled x M HX).
  set (j := Z.max 0 (Z.log2 M - 52)).
  assert (Hj : 0 ≤ j ≤ 1074 - k).
  { unfold j. destruct (Z.eq_dec m 0) as [->|Hne].
    - unfold M. rewrite Z.mul_0_l. change (Z.log2 0) with 0. lia.
    - unfold M. rewrite Z.log2_mul_pow2 by lia.
      assert (Z.log2 m < 53) by (apply Z.log2_lt_pow2; lia). lia. }
  assert (HM : M = m * 2 ^ (1074 - k - j) * 2 ^ j).
  { unfold M. rewrite <- Z.mul_assoc, <- Z.pow_add_r by lia. f_equal. f_equal. lia. }
  assert (H2j : ¬ (inject_Z (2 ^ j) == 0)%Q).
  { intros H. pose proof (pow2_pos j ltac:(lia)) as Hp. rewrite H in Hp.
    by apply Qlt_irrefl in Hp. }
  rewrite (half_even_comp _ (inject_Z (m * 2 ^ (1074 - k - j)))).
  2:{ rewrite HM at 1. rewrite inject_Z_mult. by field. }
  rewrite half_even_Z, <- HM, <- HX.
  field. intros H. pose proof scale_pos as Hp. rewrite H in Hp. by apply Qlt_irrefl in Hp.
Qed.

Lemma round_dyadic (m k : Z) :
  - 2 ^ 53 < m < 2 ^ 53 → 0 ≤ k ≤ 1074 →
  (round (inject_Z m / inject_Z (2 ^ k)) == inject_Z m / inject_Z (2 ^ k))%Q.
Proof.
  intros Hm Hk. unfold round. rewrite Qred_correct.
  pose proof (pow2_pos k ltac:(lia)) as Hp.
  destruct (Qle_bool 0 (inject_Z m / inject_Z (2 ^ k))) eqn:Hs.
  - apply round_nonneg_dyadic; [|done]. split; [|lia].
    apply Qle_bool_iff in Hs.
    destruct (Z.le_gt_cases 0 m) as [|Hneg]; [done|]. exfalso.
    apply (Qle_not_lt _ _ Hs). apply Qlt_shift_div_r; [done|].
    rewrite Qmult_0_l. change 0%Q with (inject_Z 0). by rewrite <- Zlt_Qlt.
  - assert (Hneg : m < 0).
    { destruct (Z.le_gt_cases 0 m) as [Hge|]; [|lia]. exfalso.
      assert (Ht : Qle_bool 0 (inject_Z m / inject_Z (2 ^ k)) = true); [|congruence].
      apply Qle_bool_iff. apply Qle_shift_div_l; [done|].
      rewrite Qmult_0_l. change 0%Q with (inject_Z 0). by rewrite <- Zle_Qle. }
    rewrite (round_nonneg_comp _ (inject_Z (- m) / inject_Z (2 ^ k))).
    + rewrite round_nonneg_dyadic by lia. rewrite inject_Z_opp. field.
      intros H. rewrite H in Hp. by apply Qlt_irrefl in Hp.
    + rewrite inject_Z_opp. field.
      intros H. rewrite H in Hp. by apply Qlt_irrefl in Hp.
Qed.

Lemma round_Z (m : Z) : - 2 ^ 53 < m < 2 ^ 53 → (round (inject_Z m) == inject_Z m)%Q.
Proof.
  intros Hm. rewrite (round_comp _ (inject_Z m / inject_Z (2 ^ 0))).
  - rewrite round_dyadic by lia. change (inject_Z (2 ^ 0)) with 1%Q. field.
  - change (inject_Z (2 ^ 0)) with 1%Q. field.
Qed.

Lemma round_ge_Z (x : Q) (m : Z) :
  - 2 ^ 53 < m < 2 ^ 53 → (inject_Z m <= x)%Q → (inject_Z m <= round x)%Q.
Proof.
  intros Hm Hx. rewrite <- (round_Z m Hm). by apply round_mono.
Qed.

Lemma round_le_dyadic (x : Q) (m k : Z) :
  - 2 ^ 53 < m < 2 ^ 53 → 0 ≤ k ≤ 1074 →
  (x <= inject_Z m / inject_Z (2 ^ k))%Q → (round x <= inject_Z m / inject_Z (2 ^ k))%Q.
Proof.
  intros Hm Hk Hx. rewrite <- (round_dyadic m k Hm Hk). by apply round_mono.
Qed.

(** [half_even] is within one half of its argument ... *)
Lemma half_even_near (x : Q) :
  (inject_Z (half_even x) - (1 # 2) <= x)%Q ∧ (x <= inject_Z (half_even x) + (1 # 2))%Q.
Proof.
  unfold half_even. cbn zeta.
  pose proof (Qfloor_le x) as Hlo. pose proof (Qlt_floor x) as Hhi.
  rewrite inject_Z_plus in Hhi. change (inject_Z 1) with 1%Q in Hhi.
  destruct (x - inject_Z (Qfloor x) ?= 1 # 2)%Q eqn:Hc.
  - apply Qeq_alt in Hc.
    destruct (Z.even (Qfloor x)); [|rewrite inject_Z_plus; change (inject_Z 1) with 1%Q];
      split; lra.
  - apply Qlt_alt in Hc. split; lra.
  - apply Qgt_alt in Hc. rewrite inject_Z_plus. change (inject_Z 1) with 1%Q. split; lra.
Qed.

(** ... and [round_nonneg x] within half a unit in the last place of
    [x]: the result is the multiple of [2 ^ expo / 2 ^ 1074] nearest to
    [x]. *)
Lemma round_nonneg_near (x : Q) :
  let ulp := (inject_Z (2 ^ expo (x * inject_Z scale)) / inject_Z scale)%Q in
  (round_nonneg x - ulp / 2 <= x)%Q ∧ (x <= round_nonneg x + ulp / 2)%Q.
Proof.
  cbn zeta. rewrite round_nonneg_eq.
  set (X := (x * inject_Z scale)%Q). set (j := expo X).
  pose proof (pow2_pos j (expo_nonneg X)) as Hj. pose proof scale_pos as Hs.
  destruct (half_even_near (X / inject_Z (2 ^ j))) as [Hlo Hhi].
  set (h := inject_Z (half_even (X / inject_Z (2 ^ j)))) in *.
  assert (HX : (X == X / inject_Z (2 ^ j) * inject_Z (2 ^ j))%Q).
  { field. intros H. rewrite H in Hj. by apply Qlt_irrefl in Hj. }
  rewrite inject_Z_mult. fold h.
  assert (H1 : ((h - (1 # 2)) * inject_Z (2 ^ j) <= X)%Q).
  { apply (Qmult_le_compat_r _ _ (inject_Z (2 ^ j))) in Hlo; [|by apply Qlt_le_weak].
    by rewrite <- HX in Hlo. }
  assert (H2 : (X <= (h + (1 # 2)) * inject_Z (2 ^ j))%Q).
  { apply (Qmult_le_compat_r _ _ (inject_Z (2 ^ j))) in Hhi; [|by apply Qlt_le_weak].
    by rewrite <- HX in Hhi. }
  assert (Hinv : (0 <= / inject_Z scale)%Q) by by apply Qlt_le_weak, Qinv_lt_0_compat.
  assert (Hne : ¬ (inject_Z scale == 0)%Q).
  { intros H. rewrite H in Hs. by apply Qlt_irrefl in Hs. }
  apply (Qmult_le_compat_r _ _ _ H1) in Hinv as H1'.
  apply (Qmult_le_compat_r _ _ _ H2) in Hinv as H2'.
  assert (E1 : ((h - (1 # 2)) * inject_Z (2 ^ j) * / inject_Z scale ==
                h * inject_Z (2 ^ j) / inject_Z scale
                - inject_Z (2 ^ j) / inject_Z scale / 2)%Q) by by field.
  assert (E2 : ((h + (1 # 2)) * inject_Z (2 ^ j) * / inject_Z scale ==
                h * inject_Z (2 ^ j) / inject_Z scale
                + inject_Z (2 ^ j) / inject_Z scale / 2)%Q) by by field.
  assert (E3 : (X * / inject_Z scale == x)%Q) by (unfold X; by field).
  rewrite E1, E3 in H1'. rewrite E2, E3 in H2'. by split.
Qed.

(** The significand of the result has at most 53 bits: it is a multiple
    [m * 2 ^ expo / 2 ^ 1074] with [0 <= m <= 2 ^ 53]. *)
Lemma round_nonneg_significand (x : Q) :
  (0 <= x)%Q →
  ∃ m, 0 ≤ m ≤ 2 ^ 53 ∧
       round_nonneg x = (inject_Z (m * 2 ^ expo (x * inject_Z scale)) / inject_Z scale)%Q.
Proof.
  intros Hx. rewrite round_nonneg_eq. set (X := (x * inject_Z scale)%Q).
  assert (HX : (0 <= X)%Q).
  { apply Qmult_le_0_compat; [done|]. apply Qlt_le_weak, scale_pos. }
  pose proof (expo_nonneg X) as Hj.
  exists (half_even (X / inject_Z (2 ^ expo X))). split; [|done].
  pose proof (half_even_bounds (X / inject_Z (2 ^ expo X))) as [Hlo Hhi]. split.
  - etrans; [|exact Hlo]. change 0 with (Qfloor 0). apply Qfloor_resp_le.
    apply Qle_shift_div_l; [by apply pow2_pos|]. by rewrite Qmult_0_l.
  - assert (Qfloor (X / inject_Z (2 ^ expo X)) < 2 ^ 53); [|lia].
    rewrite Zlt_Qlt.
    apply (Qle_lt_trans _ (X / inject_Z (2 ^ expo X))); [apply Qfloor_le|].
    apply Qlt_shift_div_r; [by apply pow2_pos|].
    rewrite <- inject_Z_mult, <- Z.pow_add_r by lia. apply expo_upper.
Qed.

Lemma Qfloor_below (y : Q) (k : Z) : (y < inject_Z (k + 1))%Q → Qfloor y ≤ k.
Proof.
  intros H. assert (Qfloor y < k + 1); [|lia].
  rewrite Zlt_Qlt. apply (Qle_lt_trans _ y); [apply Qfloor_le|done].
Qed.

End FloatFacts.

(** ** The model on small inputs *)

Example format_05d_pads :
  Stream.format_05d 7 = "00007" ∧ Stream.format_05d (-1) = "-0001" ∧
  Stream.format_05d 123456 = "123456".
Proof. repeat split; vm_compute; reflexivity. Qed.

Example window1_fills_segment_1 :
  StreamSegment.is_full <$> StreamSegmentList.segments full_list !! 1 = Some true ∧
  StreamSegmentList.current_id full_list = 1.
Proof. split; vm_compute; reflexivity. Qed.

(** With a full segment in the list, collecting the completed ids stops
    at the read of [v_id]. *)
Example completed_ids_of_full_list :
  StreamSegmentList.get_completed_segment_ids full_list = Raise AttributeError ∧
  StreamSegmentList.get_completed_segment_ids (StreamSegmentList.__init__ 0 true 0) = Ok ∅.
Proof. split; vm_compute; reflexivity. Qed.

(** [0.1], [0.1 + 0.2] and the duration of a segment of two parts of
    0.1 and 0.2 seconds, as binary64 gives them: the sum is
    [0.30000000000000004..], not the double nearest to [0.3]. *)
Example float_sum_rounds :
  Float.round (1 # 10) = (3602879701896397 # 36028797018963968)%Q ∧
  Float.add (Float.round (1 # 10)) (Float.round (2 # 10)) =
    (1351079888211149 # 4503599627370496)%Q ∧
  Float.round (3 # 10) = (5404319552844595 # 18014398509481984)%Q ∧
  StreamSegment.duration
    (StreamSegment.add_part
       (StreamSegment.add_part (StreamSegment.__init__ 0)
          (Part.mk "a" 0 (Float.round (1 # 10)) "live"))
       (Part.mk "b" 0 (Float.round (2 # 10)) "live")) =
    (1351079888211149 # 4503599627370496)%Q.
Proof. repeat split; vm_compute; reflexivity. Qed.

(** Rounding to the nearest binary64 value, to the even significand on
    a tie: above [2 ^ 53] the odd integers are ties, and half the
    smallest subnormal is a tie with zero. *)
Example round_ties_to_even :
  Float.round (inject_Z (2 ^ 53 + 1)) = inject_Z (2 ^ 53) ∧
  Float.round (inject_Z (2 ^ 53 + 3)) = inject_Z (2 ^ 53 + 4) ∧
  Float.round (1 # 2 ^ 1075) = 0%Q ∧
  Float.round (3 # 2 ^ 1075) = (1 # 2 ^ 1073)%Q ∧
  Float.round (1 # 3) = (6004799503160661 # 18014398509481984)%Q ∧
  Float.round (- (1 # 3)) = (- 6004799503160661 # 18014398509481984)%Q.
Proof. repeat split; vm_compute; reflexivity. Qed.

Example int_of_float_truncates :
  Stream.int_of_float (7 # 2) = 3 ∧ Stream.int_of_float (-7 # 2) = -3.
Proof. split; vm_compute; reflexivity. Qed.

(** ** [StreamSegmentList.add_part] *)

Section AddPart.

Import StreamSegmentList.

Lemma is_segment_present_lookup (self : t) (i : Z) :
  is_segment_present self i = true ↔ is_Some (segments self !! i).
Proof.
  unfold is_segment_present. rewrite bool_decide_eq_true. apply elem_of_dom.
Qed.

(** What one call does, by the state of the target segment. *)
Lemma add_part_logged_eq (self : t) (log : list Z) (p : Part.t) :
  add_part_logged (self, log) p =
  let c := target_id self p in
  match segments self !! c with
  | None =>
      Ok (mk (<[c := StreamSegment.add_part (StreamSegment.__init__ c) p]> (segments self))
             c (_align_segments self) (stream_created_at self),
          log ++ [c])
  | Some seg =>
      if Z.of_nat (length (StreamSegment.parts seg)) =? 5 then
        Ok (mk (<[c + 1 := StreamSegment.add_part (StreamSegment.__init__ (c + 1)) p]>
                  (segments self))
               (c + 1) (_align_segments self) (stream_created_at self),
            log ++ [c + 1])
      else
        Ok (mk (<[c := StreamSegment.add_part seg p]> (segments self))
               (current_id self) (_align_segments self) (stream_created_at self),
            log)
  end.
Proof.
  unfold add_part_logged. cbn zeta. cbn [fst snd].
  generalize (target_id self p). intros c.
  destruct (segments self !! c) as [seg|] eqn:Hc.
  - assert (Hp : is_segment_present self c = true)
      by (apply is_segment_present_lookup; eauto).
    rewrite Hp. cbn [fst snd]. unfold get_segment_by_id. rewrite Hc.
    cbn [mbind result_bind].
    destruct (Z.of_nat (length (StreamSegment.parts seg)) =? 5) eqn:Hfull.
    + unfold new_segment, set_segment, set_current_id; cbn.
      rewrite lookup_insert_eq. cbn. by rewrite insert_insert_eq.
    + cbn [fst snd]. rewrite Hc. reflexivity.
  - assert (Hp : is_segment_present self c = false).
    { apply not_true_is_false. rewrite is_segment_present_lookup, Hc.
      by intros [? ?]. }
    rewrite Hp.
    unfold new_segment, get_segment_by_id, set_segment, set_current_id; cbn.
    rewrite lookup_insert_eq. cbn. change (Z.of_nat 0 =? 5) with false. cbn.
    rewrite lookup_insert_eq. cbn.
    by rewrite insert_insert_eq.
Qed.

(** [add_part] never raises. *)
Lemma add_part_logged_total (st : t * list Z) (p : Part.t) :
  ∃ st', add_part_logged st p = Ok st'.
Proof.
  destruct st as [self log]. rewrite add_part_logged_eq. cbn zeta.
  destruct (segments self !! target_id self p) as [seg|]; [|eauto].
  destruct (_ =? 5); eauto.
Qed.

Lemma add_part_total (self : t) (p : Part.t) : ∃ self', add_part self p = Ok self'.
Proof.
  unfold add_part. destruct (add_part_logged_total (self, []) p) as [[s l] ->].
  by exists s.
Qed.

End AddPart.

(** ** The alignment formula *)

Section Alignment.

Import StreamSegmentList.

Lemma get_id_pure (self self' : t) (p p' : Part.t) :
  (stream_created_at self' == stream_created_at self)%Q →
  (Part.timestamp p' == Part.timestamp p)%Q →
  _get_id_for_part self' p' = _get_id_for_part self p.
Proof.
  intros Hc Ht. unfold _get_id_for_part, Float.div, Float.add, Float.sub.
  rewrite (round_comp (Part.timestamp p' - stream_created_at self')
             (Part.timestamp p - stream_created_at self)); [done|].
  by rewrite Hc, Ht.
Qed.

Lemma get_id_mono (self : t) (p p' : Part.t) :
  (Part.timestamp p <= Part.timestamp p')%Q →
  _get_id_for_part self p ≤ _get_id_for_part self p'.
Proof.
  intros Ht. unfold _get_id_for_part, Float.div, Float.add, Float.sub.
  apply Qfloor_resp_le, round_mono.
  apply Qmult_le_compat_r; [|discriminate].
  apply round_mono, Qplus_le_r, round_mono.
  unfold Qminus. by apply Qplus_le_l.
Qed.

(** The id is at least [k] once the exact offset has reached the window
    of [k]: no rounding takes a part below its window. *)
Lemma get_id_lower (self : t) (p : Part.t) (k : Z) :
  - 2 ^ 40 ≤ k ≤ 2 ^ 40 →
  (inject_Z k * 10 <= 4 + (Part.timestamp p - stream_created_at self))%Q →
  k ≤ _get_id_for_part self p.
Proof.
  intros Hk Hx. unfold _get_id_for_part, Float.div, Float.add, Float.sub.
  set (ts := Part.timestamp p) in *. set (c := stream_created_at self) in *.
  assert (E1 : (inject_Z (k * 10 - 4) == inject_Z k * 10 - 4)%Q).
  { unfold Z.sub. rewrite inject_Z_plus, inject_Z_mult. reflexivity. }
  assert (E2 : (inject_Z (k * 10) == inject_Z k * 10)%Q).
  { rewrite inject_Z_mult. reflexivity. }
  assert (H1 : (inject_Z (k * 10 - 4) <= Float.round (ts - c))%Q).
  { apply round_ge_Z; [lia|]. rewrite E1. lra. }
  assert (H2 : (inject_Z (k * 10) <= Float.round (4 + Float.round (ts - c)))%Q).
  { apply round_ge_Z; [lia|]. rewrite E2. rewrite E1 in H1. lra. }
  assert (H3 : (inject_Z k <= Float.round (Float.round (4 + Float.round (ts - c)) / 10))%Q).
  { apply round_ge_Z; [lia|]. apply Qle_shift_div_l; [reflexivity|].
    by rewrite <- E2. }
  rewrite <- (Qfloor_Z k). by apply Qfloor_resp_le.
Qed.

(** The id is at most [k] when the exact offset ends [2 ^ -10] seconds
    or more before the window of [k + 1]. *)
Lemma get_id_upper (self : t) (p : Part.t) (k : Z) :
  - 2 ^ 37 ≤ k ≤ 2 ^ 37 →
  (4 + (Part.timestamp p - stream_created_at self) <= inject_Z (k + 1) * 10 - (1 # 1024))%Q →
  _get_id_for_part self p ≤ k.
Proof.
  intros Hk Hx. unfold _get_id_for_part, Float.div, Float.add, Float.sub.
  set (ts := Part.timestamp p) in *. set (c := stream_created_at self) in *.
  assert (E1 : (inject_Z ((k * 10 + 6) * 1024 - 1) / inject_Z (2 ^ 10)
                == inject_Z k * 10 + 6 - (1 # 1024))%Q).
  { unfold Z.sub. rewrite inject_Z_plus, inject_Z_mult, inject_Z_plus, inject_Z_mult.
    change (inject_Z (2 ^ 10)) with 1024%Q. change (inject_Z 1024) with 1024%Q.
    change (inject_Z 10) with 10%Q. change (inject_Z 6) with 6%Q.
    change (inject_Z (- (1))) with (- (1))%Q. field. }
  assert (E2 : (inject_Z ((k * 10 + 10) * 1024 - 1) / inject_Z (2 ^ 10)
                == inject_Z k * 10 + 10 - (1 # 1024))%Q).
  { unfold Z.sub. rewrite inject_Z_plus, inject_Z_mult, inject_Z_plus, inject_Z_mult.
    change (inject_Z (2 ^ 10)) with 1024%Q. change (inject_Z 1024) with 1024%Q.
    change (inject_Z 10) with 10%Q.
    change (inject_Z (- (1))) with (- (1))%Q. field. }
  assert (E3 : (inject_Z ((k + 1) * 16384 - 1) / inject_Z (2 ^ 14)
                == inject_Z k + 1 - (1 # 16384))%Q).
  { unfold Z.sub. rewrite inject_Z_plus, inject_Z_mult, inject_Z_plus.
    change (inject_Z (2 ^ 14)) with 16384%Q. change (inject_Z 16384) with 16384%Q.
    change (inject_Z 1) with 1%Q.
    change (inject_Z (- (1))) with (- (1))%Q. field. }
  assert (E4 : (inject_Z (k + 1) == inject_Z k + 1)%Q).
  { rewrite inject_Z_plus. reflexivity. }
  rewrite E4 in Hx.
  assert (H1 : (Float.round (ts - c) <= inject_Z k * 10 + 6 - (1 # 1024))%Q).
  { rewrite <- E1. apply round_le_dyadic; [lia|lia|]. rewrite E1. lra. }
  assert (H2 : (Float.round (4 + Float.round (ts - c)) <= inject_Z k * 10 + 10 - (1 # 1024))%Q).
  { rewrite <- E2. apply round_le_dyadic; [lia|lia|]. rewrite E2. lra. }
  assert (H3 : (Float.round (Float.round (4 + Float.round (ts - c)) / 10)
                <= inject_Z k + 1 - (1 # 16384))%Q).
  { rewrite <- E3. apply round_le_dyadic; [lia|lia|]. rewrite E3.
    apply Qle_shift_div_r; [reflexivity|]. lra. }
  apply Qfloor_below. rewrite E4. lra.
Qed.

(** The id the code computes, against the exact quotient: it is never
    below the exact floor, and above it only for an offset less than
    [2 ^ -10] seconds short of the next window. *)
Lemma get_id_window (self : t) (p : Part.t) :
  let x := (4 + (Part.timestamp p - stream_created_at self))%Q in
  (- inject_Z (2 ^ 40) <= x)%Q → (x <= inject_Z (2 ^ 40))%Q →
  Qfloor (x / 10) ≤ _get_id_for_part self p ≤ Qfloor ((x + (1 # 1024)) / 10).
Proof.
  cbn zeta. intros Hlo Hhi.
  set (x := (4 + (Part.timestamp p - stream_created_at self))%Q) in *.
  assert (Hb : ∀ y : Q, (- inject_Z (2 ^ 40) <= y)%Q → (y <= inject_Z (2 ^ 40) + 1)%Q →
               - 2 ^ 37 ≤ Qfloor (y / 10) ≤ 2 ^ 37).
  { intros y Hy1 Hy2. split.
    - rewrite <- (Qfloor_Z (- 2 ^ 37)). apply Qfloor_resp_le.
      apply Qle_shift_div_l; [reflexivity|].
      change (inject_Z (- 2 ^ 37)) with (- inject_Z (2 ^ 37))%Q.
      change (inject_Z (2 ^ 40)) with (inject_Z (2 ^ 37) * 8)%Q in Hy1.
      assert (0 <= inject_Z (2 ^ 37))%Q by done. lra.
    - rewrite <- (Qfloor_Z (2 ^ 37)). apply Qfloor_resp_le.
      apply Qle_shift_div_r; [reflexivity|].
      change (inject_Z (2 ^ 40)) with (inject_Z (2 ^ 37) * 8)%Q in Hy2.
      assert (1 <= inject_Z (2 ^ 37))%Q by done. lra. }
  split.
  - apply get_id_lower.
    + pose proof (Hb x Hlo ltac:(lra)). lia.
    + assert (H := Qfloor_le (x / 10)).
      apply (Qmult_le_compat_r _ _ 10) in H; [|done].
      assert (E : (x / 10 * 10 == x)%Q) by field.
      by rewrite E in H.
  - apply get_id_upper.
    + apply (Hb (x + (1 # 1024))%Q); lra.
    + assert (H := Qlt_floor ((x + (1 # 1024)) / 10)).
      apply (Qmult_lt_compat_r _ _ 10) in H; [|done].
      assert (E : ((x + (1 # 1024)) / 10 * 10 == x + (1 # 1024))%Q) by field.
      rewrite E in H. unfold x in *. lra.
Qed.

Lemma add_part_placed (self : t) (p : Part.t) :
  add_part self p = Ok (placed self (target_id self p) p).
Proof.
  unfold add_part, placed. rewrite add_part_logged_eq. cbn zeta.
  destruct (segments self !! target_id self p) as [seg|]; [|done].
  destruct (Z.of_nat (length (StreamSegment.parts seg)) =? 5) eqn:Hfull.
  - apply Z.eqb_eq in Hfull. rewrite bool_decide_eq_true_2 by lia. done.
  - apply Z.eqb_neq in Hfull. rewrite bool_decide_eq_false_2 by lia. done.
Qed.

(** The segment a part ends up in after [add_part]: its parts end with
    the part just added. *)
Lemma add_part_stored (self : t) (p : Part.t) :
  ∃ self' seg,
    add_part self p = Ok self' ∧
    (segments self' !! target_id self p = Some seg ∨
     segments self' !! (target_id self p + 1) = Some seg) ∧
    last (StreamSegment.parts seg) = Some p.
Proof.
  unfold add_part. rewrite add_part_logged_eq. cbn zeta.
  destruct (segments self !! target_id self p) as [seg|] eqn:Hc.
  - destruct (_ =? 5); cbn.
    + eexists _, _. split; [reflexivity|]. split.
      * right. cbn. apply lookup_insert_eq.
      * reflexivity.
    + eexists _, _. split; [reflexivity|]. split.
      * left. cbn. apply lookup_insert_eq.
      * cbn. apply last_snoc.
  - cbn. eexists _, _. split; [reflexivity|]. split.
    + left. cbn. apply lookup_insert_eq.
    + reflexivity.
Qed.

End Alignment.

(** The id of [_get_id_for_part] is not always the floor of the exact
    quotient.  For a broadcast started at 0 and a part at [6 - 2 ^ -50],
    the binary64 value next below 6, the sum [4 + 5.999..] rounds to 10
    and the id is 1; the exact quotient is below 1. *)
Remark get_id_rounds_up :
  let self := StreamSegmentList.__init__ 0 true 0 in
  let p := live_part "p" ((6 * 2 ^ 50 - 1) # 2 ^ 50) in
  StreamSegmentList._get_id_for_part self p = 1 ∧
  Qfloor ((4 + (Part.timestamp p - StreamSegmentList.stream_created_at self)) / 10)%Q = 0.
Proof. cbn zeta. split; vm_compute; reflexivity. Qed.

(** C1.  In alignment mode [add_part] takes as target id
    [floor((4 + (part.timestamp - stream_created_at)) / 10)], evaluated in
    binary64 as the interpreter does, and places the part by it: in a new
    segment at that id when there is none, at the end of the segment
    stored there when it holds fewer than five parts, and in a new
    segment at the next id when it holds five.  The id depends on nothing
    but the part's timestamp and the broadcast start time: another list
    and another part with the same two values get the same id, whatever
    their segments, current id, url, duration and title.  For an offset
    of magnitude up to [2 ^ 40] seconds the id is the index of the
    ten-second window of [4 + dt], or the next index when [4 + dt] is
    less than [2 ^ -10] seconds short of the next window. *)
Theorem C1_alignment_target_id (self : StreamSegmentList.t) (p : Part.t) :
  StreamSegmentList._align_segments self = true →
  let c0 := StreamSegmentList.stream_created_at self in
  let i := Qfloor (Float.div (Float.add 4 (Float.sub (Part.timestamp p) c0)) 10) in
  StreamSegmentList.target_id self p = i ∧
  StreamSegmentList.add_part self p =
    Ok (match StreamSegmentList.segments self !! i with
        | None =>
            StreamSegmentList.mk
              (<[i := StreamSegment.mk [p] i (Float.add 0 (Part.duration p))]>
                 (StreamSegmentList.segments self))
              i true c0
        | Some seg =>
            if bool_decide (length (StreamSegment.parts seg) = 5%nat) then
              StreamSegmentList.mk
                (<[i + 1 := StreamSegment.mk [p] (i + 1) (Float.add 0 (Part.duration p))]>
                   (StreamSegmentList.segments self))
                (i + 1) true c0
            else
              StreamSegmentList.mk
                (<[i := StreamSegment.mk (StreamSegment.parts seg ++ [p])
                          (StreamSegment.id seg)
                          (Float.add (StreamSegment.duration seg) (Part.duration p))]>
                   (StreamSegmentList.segments self))
                (StreamSegmentList.current_id self) true c0
        end) ∧
  (∀ (self' : StreamSegmentList.t) (p' : Part.t),
     StreamSegmentList._align_segments self' = true →
     (StreamSegmentList.stream_created_at self' == c0)%Q →
     (Part.timestamp p' == Part.timestamp p)%Q →
     StreamSegmentList.target_id self' p' = i) ∧
  (let x := (4 + (Part.timestamp p - c0))%Q in
   (- inject_Z (2 ^ 40) <= x)%Q → (x <= inject_Z (2 ^ 40))%Q →
   Qfloor (x / 10) ≤ i ≤ Qfloor ((x + (1 # 1024)) / 10)).
Proof.
  intros Halign c0 i.
  assert (Ht : StreamSegmentList.target_id self p = i).
  { unfold StreamSegmentList.target_id. by rewrite Halign. }
  split; [exact Ht|]. split; [|split].
  - rewrite add_part_placed, Ht. unfold placed. rewrite Halign. reflexivity.
  - intros self' p' Halign' Hc Hp. unfold StreamSegmentList.target_id.
    rewrite Halign'. by apply get_id_pure.
  - apply (get_id_window self p).
Qed.

Lemma C1_alignment_target_id_witness :
  StreamSegmentList._align_segments (StreamSegmentList.__init__ 100 true 0) = true ∧
  StreamSegmentList.target_id (StreamSegmentList.__init__ 100 true 0)
    (live_part "p" 117) = 2.
Proof.
  split; [reflexivity|].
  rewrite (proj1 (C1_alignment_target_id (StreamSegmentList.__init__ 100 true 0)
                    (live_part "p" 117) eq_refl)).
  vm_compute. reflexivity.
Defined.

(** C3.  When the segment at the target id already holds five parts,
    [add_part] creates a segment at the target id plus one, whose [id] is
    that number, makes it the current one and puts the part there, alone;
    the full segment and every other segment stay as they were. *)
Theorem C3_full_segment_overflows (self : StreamSegmentList.t) (log : list Z)
    (p : Part.t) (seg : StreamSegment.t) :
  let c := StreamSegmentList.target_id self p in
  StreamSegmentList.segments self !! c = Some seg →
  length (StreamSegment.parts seg) = 5%nat →
  ∃ self' new,
    StreamSegmentList.add_part_logged (self, log) p = Ok (self', log ++ [c + 1]) ∧
    StreamSegmentList.add_part self p = Ok self' ∧
    StreamSegmentList.segments self' !! (c + 1) = Some new ∧
    new = StreamSegment.mk [p] (c + 1) (Float.add 0 (Part.duration p)) ∧
    StreamSegment.id new = c + 1 ∧
    StreamSegment.parts new = [p] ∧
    StreamSegmentList.current_id self' = c + 1 ∧
    StreamSegmentList.segments self' !! c = Some seg ∧
    (∀ j, j ≠ c + 1 →
          StreamSegmentList.segments self' !! j = StreamSegmentList.segments self !! j).
Proof.
  intros c Hc Hlen. unfold StreamSegmentList.add_part.
  rewrite !add_part_logged_eq. cbn zeta. fold c. rewrite Hc, Hlen.
  change (Z.of_nat 5 =? 5) with true. cbn iota.
  eexists _, _. split; [reflexivity|]. split; [reflexivity|]. cbn.
  split; [apply lookup_insert_eq|]. split; [reflexivity|].
  split; [reflexivity|]. split; [reflexivity|]. split; [reflexivity|].
  split.
  - rewrite lookup_insert_ne by lia. exact Hc.
  - intros j Hj. by rewrite lookup_insert_ne.
Qed.

Lemma C3_full_segment_overflows_witness :
  ∃ self',
    StreamSegmentList.add_part full_list (live_part "f" 15) = Ok self' ∧
    StreamSegmentList.current_id self' = 2.
Proof.
  destruct (C3_full_segment_overflows full_list [] (live_part "f" 15)
              (StreamSegment.mk window1 1 10))
    as (self' & new & _ & Hadd & _ & _ & _ & _ & Hcur & _).
  - vm_compute. reflexivity.
  - reflexivity.
  - exists self'. split; [exact Hadd | exact Hcur].
Defined.

(** ** Order of creation *)

Section Creation.

Import StreamSegmentList.

Lemma StronglySorted_snoc (l : list Z) (x : Z) :
  StronglySorted Z.le l → (∀ i, i ∈ l → i ≤ x) → StronglySorted Z.le (l ++ [x]).
Proof.
  induction 1 as [|y l Hl IH Hy]; intros Hx; cbn.
  - repeat constructor.
  - constructor.
    + apply IH. intros i Hi. apply Hx. by right.
    + apply Forall_app. split; [exact Hy|]. constructor; [|constructor].
      apply Hx. by left.
Qed.

Lemma created_inv_step a c0 self log lastc p :
  created_inv a c0 self log lastc →
  lastc ≤ target_id self p →
  ∃ self' log',
    add_part_logged (self, log) p = Ok (self', log') ∧
    created_inv a c0 self' log' (target_id self p).
Proof.
  intros [Ha Hs Hso Hla Hlo Hk Hn] Hle. rewrite add_part_logged_eq. cbn zeta.
  set (c := target_id self p) in *.
  destruct (segments self !! c) as [seg|] eqn:Hc.
  - assert (Hcur : c ≤ current_id self) by (apply Hk; eauto).
    destruct (_ =? 5).
    + eexists _, _. split; [reflexivity|].
      split; cbn; try done.
      * apply StronglySorted_snoc; [done|]. intros i Hi. apply Hlo in Hi. lia.
      * apply last_snoc.
      * intros i [Hi| ->%list_elem_of_singleton]%elem_of_app; [|lia].
        apply Hlo in Hi. lia.
      * intros k [Hk'|Hk']%lookup_insert_is_Some; [lia|].
        destruct Hk' as [_ Hk']. apply Hk in Hk'. lia.
      * right. split; [done|]. rewrite lookup_insert_ne by lia. eauto.
    + eexists _, _. split; [reflexivity|].
      split; cbn; try done.
      * intros k [Hk'|[_ Hk']]%lookup_insert_is_Some; [lia|]. by apply Hk.
      * destruct (decide (current_id self = c)) as [|Hne]; [by left|].
        right. split; [lia|]. rewrite lookup_insert_eq. eauto.
  - assert (Hcur : current_id self ≤ c).
    { destruct Hn as [->|[-> [x Hx]]]; [done|].
      destruct (decide (c = lastc)) as [->|]; [congruence|lia]. }
    eexists _, _. split; [reflexivity|].
    split; cbn; try done.
    + apply StronglySorted_snoc; [done|]. intros i Hi. apply Hlo in Hi. lia.
    + apply last_snoc.
    + intros i [Hi| ->%list_elem_of_singleton]%elem_of_app; [|lia].
      apply Hlo in Hi. lia.
    + intros k [Hk'|[_ Hk']]%lookup_insert_is_Some; [lia|].
      apply Hk in Hk'. lia.
    + by left.
Qed.

Lemma created_inv_run a c0 (ps : list Part.t) :
  ∀ self log lastc,
    created_inv a c0 self log lastc →
    (a = true →
     Sorted Z.le (lastc :: map (λ p, _get_id_for_part (mk ∅ 0 true c0) p) ps)) →
    ∃ self' log' lastc',
      add_parts_logged (self, log) ps = Ok (self', log') ∧
      created_inv a c0 self' log' lastc'.
Proof.
  induction ps as [|p ps IH]; intros self log lastc Hinv Hsorted; cbn.
  - eauto.
  - assert (Hid : a = true →
                  target_id self p = _get_id_for_part (mk ∅ 0 true c0) p).
    { intros ->. unfold target_id, _get_id_for_part.
      rewrite (inv_align _ _ _ _ _ Hinv), (inv_start _ _ _ _ _ Hinv). reflexivity. }
    assert (Hle : lastc ≤ target_id self p).
    { destruct a.
      - rewrite Hid by done. specialize (Hsorted eq_refl).
        apply Sorted_inv in Hsorted as [_ Hhd]. by apply HdRel_inv in Hhd.
      - unfold target_id. rewrite (inv_align _ _ _ _ _ Hinv).
        destruct (inv_near _ _ _ _ _ Hinv) as [->|[-> _]]; lia. }
    destruct (created_inv_step _ _ _ _ _ p Hinv Hle) as (self' & log' & -> & Hinv').
    cbn. apply (IH _ _ _ Hinv').
    intros ->. rewrite Hid by done. specialize (Hsorted eq_refl).
    by apply Sorted_inv in Hsorted as [? _].
Qed.

Lemma ids_sorted (c0 : Q) (ps : list Part.t) :
  Sorted Qle (map Part.timestamp ps) →
  Sorted Z.le (map (λ p, _get_id_for_part (mk ∅ 0 true c0) p) ps).
Proof.
  induction ps as [|p ps IH]; cbn; intros Hs; [constructor|].
  apply Sorted_inv in Hs as [Hs Hhd]. constructor; [by apply IH|].
  destruct ps as [|p' ps]; cbn in *; constructor.
  apply HdRel_inv in Hhd.
  apply (get_id_mono (mk ∅ 0 true c0) p p' Hhd).
Qed.

(** The first call on a new list creates the target segment. *)
Lemma created_inv_first (c0 : Q) (a : bool) (start_id : Z) (p : Part.t) :
  ∃ self' log',
    add_part_logged (__init__ c0 a start_id, []) p = Ok (self', log') ∧
    created_inv a c0 self' log' (target_id (__init__ c0 a start_id) p).
Proof.
  rewrite add_part_logged_eq. cbn zeta.
  set (c := target_id _ p). cbn [segments __init__].
  rewrite lookup_empty. eexists _, _. split; [reflexivity|].
  split; cbn; try done.
  - repeat constructor.
  - by intros i ->%list_elem_of_singleton.
  - intros k [Hk|[_ Hk]]%lookup_insert_is_Some; [lia|].
    rewrite lookup_empty in Hk. by destruct Hk.
  - by left.
Qed.

End Creation.

(** C4, as the claim states it, fails in alignment mode when a part with an
    earlier timestamp follows one with a later timestamp: segments are
    created at ids 3 and then 0, and [current_id] is left at 0. *)
Lemma C4_backwards_timestamps :
  ∃ self log,
    add_parts_logged (StreamSegmentList.__init__ 0 true (-1), []) backwards = Ok (self, log) ∧
    log = [3; 0] ∧
    StreamSegmentList.current_id self = 0 ∧
    ¬ Sorted Z.le log ∧
    ¬ (∀ i, i ∈ log → i ≤ StreamSegmentList.current_id self).
Proof.
  eexists _, _. split; [vm_compute; reflexivity|].
  split; [reflexivity|]. split; [reflexivity|]. split.
  - intros H. apply Sorted_inv in H as [_ H]. apply HdRel_inv in H. lia.
  - intros H. specialize (H 3). cbn in H. assert (3 ≤ 0); [|lia].
    apply H. by left.
Qed.

(** C4, amended.  On a newly constructed list, in non-alignment mode, and
    in alignment mode when the parts arrive with non-decreasing timestamps,
    any sequence of [add_part] calls succeeds, the ids at which segments
    were created form a non-decreasing sequence in order of creation, and
    [current_id] is the highest id ever created (once one was created). *)
Theorem C4_created_ids_monotone (c0 : Q) (a : bool) (start_id : Z) (ps : list Part.t) :
  (a = true → Sorted Qle (map Part.timestamp ps)) →
  ∃ self log,
    add_parts_logged (StreamSegmentList.__init__ c0 a start_id, []) ps = Ok (self, log) ∧
    Sorted Z.le log ∧
    (∀ i, i ∈ log → i ≤ StreamSegmentList.current_id self) ∧
    (ps ≠ [] → StreamSegmentList.current_id self ∈ log).
Proof.
  intros Hts. destruct ps as [|p ps].
  - eexists _, _. split; [reflexivity|]. split; [constructor|].
    split; [|done]. intros i Hi. by apply elem_of_nil in Hi.
  - cbn [add_parts_logged].
    destruct (created_inv_first c0 a start_id p) as (s1 & l1 & -> & Hinv).
    cbn [mbind result_bind].
    destruct (created_inv_run a c0 ps _ _ _ Hinv) as (self & log & lastc & Hrun & Hinv').
    + intros ->. specialize (Hts eq_refl). apply (ids_sorted c0) in Hts. exact Hts.
    + exists self, log. split; [exact Hrun|]. destruct Hinv'. split; [|split].
      * by apply StronglySorted_Sorted.
      * done.
      * intros _. destruct log as [|x log] using rev_ind; [done|].
        rewrite last_snoc in inv_last0. injection inv_last0 as ->.
        apply elem_of_app. right. by left.
Qed.

Lemma C4_created_ids_monotone_witness :
  ∃ self log,
    add_parts_logged (StreamSegmentList.__init__ 0 true (-1), []) window1 = Ok (self, log) ∧
    Sorted Z.le log.
Proof.
  destruct (C4_created_ids_monotone 0 true (-1) window1) as (self & log & Hrun & Hs & _).
  - intros _. repeat constructor; by vm_compute.
  - exists self, log. split; [exact Hrun|exact Hs].
Defined.

(** ** What [add_part] and [pop_segment] do to the stored parts *)

Section StoredParts.

Import StreamSegmentList.

(** Outside the overflow branch every stored part stays where it is. *)
Lemma add_part_keeps_parts (self self' : t) (p : Part.t) (j : Z) (seg : StreamSegment.t) :
  add_part self p = Ok self' →
  segments self !! j = Some seg →
  j ≠ target_id self p + 1 →
  ∃ seg', segments self' !! j = Some seg' ∧
          StreamSegment.parts seg `prefix_of` StreamSegment.parts seg'.
Proof.
  unfold add_part. rewrite add_part_logged_eq. cbn zeta.
  intros Hadd Hj Hne.
  destruct (segments self !! target_id self p) as [tseg|] eqn:Hc.
  - destruct (_ =? 5); injection Hadd as <-; cbn.
    + rewrite lookup_insert_ne by done. by exists seg.
    + destruct (decide (j = target_id self p)) as [->|].
      * rewrite lookup_insert_eq. eexists. split; [done|]. cbn.
        assert (tseg = seg) as -> by congruence. by apply prefix_app_r.
      * rewrite lookup_insert_ne by done. by exists seg.
  - injection Hadd as <-; cbn.
    rewrite lookup_insert_ne by congruence. by exists seg.
Qed.

Lemma pop_segment_others (self self' : t) (i : Z) (s : StreamSegment.t) :
  pop_segment self i = Ok (s, self') →
  segments self !! i = Some s ∧
  segments self' !! i = None ∧
  ∀ j, j ≠ i → segments self' !! j = segments self !! j.
Proof.
  unfold pop_segment. destruct (segments self !! i) as [x|] eqn:Hi; [|done].
  intros [= <- <-]. cbn. split; [done|]. split; [apply lookup_delete_eq|].
  intros j Hj. by apply lookup_delete_ne.
Qed.

End StoredParts.

(** C5.  The overflow branch of [add_part] assigns a new [StreamSegment] at
    the target id plus one without looking whether one is stored there.
    With seven parts in the window of segment 1, the sixth part is put in a
    new segment 2 and the seventh call replaces that segment: the sixth
    part is then in no segment, although no segment was popped. *)
Theorem C5_overflow_discards_stored_part :
  let f := live_part "f" (27 # 2) in
  let g := live_part "g" 15 in
  ∃ self6 self7 seg6 seg7,
    add_parts (StreamSegmentList.__init__ 0 true (-1)) (take 6 crowded) = Ok self6 ∧
    StreamSegmentList.segments self6 !! 2 = Some seg6 ∧
    StreamSegment.parts seg6 = [f] ∧
    StreamSegmentList.add_part self6 g = Ok self7 ∧
    StreamSegmentList.segments self7 !! 2 = Some seg7 ∧
    StreamSegment.parts seg7 = [g] ∧
    (∀ i seg, StreamSegmentList.segments self7 !! i = Some seg →
              f ∉ StreamSegment.parts seg).
Proof.
  cbn zeta. eexists _, _, _, _.
  split; [vm_compute; reflexivity|].
  split; [vm_compute; reflexivity|].
  split; [reflexivity|].
  split; [vm_compute; reflexivity|].
  split; [vm_compute; reflexivity|].
  split; [reflexivity|].
  intros i seg Hi. apply elem_of_map_to_list, list_elem_of_In in Hi.
  vm_compute in Hi.
  destruct Hi as [Hi|[Hi|[]]]; injection Hi as <- <-;
    intros Hin%list_elem_of_In; cbn in Hin; intuition discriminate.
Qed.

(** ** The five-part scenario *)

Lemma floor_offset (T off : Q) :
  Qfloor (Float.div (Float.add 4 (Float.sub (T + off) T)) 10) =
  Qfloor (Float.div (Float.add 4 (Float.round off)) 10).
Proof.
  unfold Float.sub. rewrite (round_comp (T + off - T) off); [done|]. ring.
Qed.

(** One call of [add_part] on a list started at [T], for a part [off]
    seconds later: computes the target id and looks the segment up. *)
Ltac add_part_step :=
  cbn [add_parts_logged]; rewrite add_part_logged_eq; cbn zeta;
  unfold StreamSegmentList.target_id, StreamSegmentList._get_id_for_part;
  cbn [StreamSegmentList._align_segments StreamSegmentList.stream_created_at
       StreamSegmentList.segments StreamSegmentList.__init__
       Part.timestamp live_part];
  rewrite !floor_offset;
  repeat match goal with
         | |- context [Qfloor ?q] =>
             let v := eval vm_compute in (Qfloor q) in
             replace (Qfloor q) with v by (vm_compute; reflexivity)
         end;
  repeat first [ rewrite lookup_insert_eq | rewrite lookup_empty
               | rewrite lookup_insert_ne by done ];
  cbn [StreamSegment.parts StreamSegment.add_part StreamSegment.__init__ length app];
  repeat match goal with
         | |- context [Z.of_nat ?n =? 5] =>
             let v := eval vm_compute in (Z.of_nat n =? 5) in change (Z.of_nat n =? 5) with v
         end;
  cbn [mbind result_bind].

(** C8, as the claim states it, fails: with the broadcast started at 0 the
    parts at 2 and 4 seconds are given id 0, not 1, and segment 1 ends up
    with three parts, not full, with a duration of 6 seconds. *)
Lemma C8_first_two_parts_in_segment_0 :
  let fresh := StreamSegmentList.__init__ 0 true (-1) in
  map (StreamSegmentList.target_id fresh) (five_parts 0 2) = [0; 0; 1; 1; 1] ∧
  ∃ self seg,
    add_parts fresh (five_parts 0 2) = Ok self ∧
    StreamSegmentList.segments self !! 1 = Some seg ∧
    StreamSegment.is_full seg = false ∧
    ¬ (StreamSegment.duration seg == 10)%Q.
Proof.
  cbn zeta. split; [vm_compute; reflexivity|].
  eexists _, _. split; [vm_compute; reflexivity|].
  split; [vm_compute; reflexivity|]. split; [reflexivity|]. discriminate.
Qed.

(** C8, amended.  For a broadcast started at [T] and five live parts of 2
    seconds at [T+2], [T+4], [T+6], [T+8], [T+10], an aligning list gives
    the first two parts id 0 and the last three id 1; segment 1 then holds
    those three parts, is not full and has duration 6.  The five parts at
    [T+6], ..., [T+14] all get id 1, and that segment is full with
    duration 10. *)
Theorem C8_five_part_scenario (T : Q) (start_id : Z) :
  let fresh := StreamSegmentList.__init__ T true start_id in
  (map (StreamSegmentList.target_id fresh) (five_parts T 2) = [0; 0; 1; 1; 1] ∧
   ∃ self seg,
     add_parts fresh (five_parts T 2) = Ok self ∧
     StreamSegmentList.segments self !! 1 = Some seg ∧
     StreamSegment.parts seg = drop 2 (five_parts T 2) ∧
     StreamSegment.is_full seg = false ∧
     (StreamSegment.duration seg == 6)%Q) ∧
  (map (StreamSegmentList.target_id fresh) (five_parts T 6) = [1; 1; 1; 1; 1] ∧
   ∃ self seg,
     add_parts fresh (five_parts T 6) = Ok self ∧
     StreamSegmentList.segments self !! 1 = Some seg ∧
     StreamSegment.parts seg = five_parts T 6 ∧
     StreamSegment.is_full seg = true ∧
     (StreamSegment.duration seg == 10)%Q).
Proof.
  cbn zeta. split; (split; [unfold five_parts; cbn [map];
    unfold StreamSegmentList.target_id, StreamSegmentList._get_id_for_part;
    cbn [StreamSegmentList._align_segments StreamSegmentList.stream_created_at
         StreamSegmentList.__init__ Part.timestamp live_part];
    rewrite !floor_offset; vm_compute; reflexivity|]).
  - unfold add_parts, five_parts. do 5 add_part_step.
    cbn [fmap result_fmap fst add_parts_logged]. eexists _, _.
    split; [reflexivity|]. cbn [StreamSegmentList.segments].
    split; [apply lookup_insert_eq|]. split; [reflexivity|].
    split; [reflexivity|]. cbn [StreamSegment.duration]. vm_compute. reflexivity.
  - unfold add_parts, five_parts. do 5 add_part_step.
    cbn [fmap result_fmap fst add_parts_logged]. eexists _, _.
    split; [reflexivity|]. cbn [StreamSegmentList.segments].
    split; [apply lookup_insert_eq|]. split; [reflexivity|].
    split; [reflexivity|]. cbn [StreamSegment.duration]. vm_compute. reflexivity.
Qed.

(** ** Building the download queue *)

Section BuildQueue.

Import Stream.

Lemma bind_run {A B : Type} (m : M A) (f : A → M B) (st : state) :
  (m ≫= f) st =
  match m st with
  | (Ok a, st') => f a st'
  | (Raise e, st') => (Raise e, st')
  end.
Proof. reflexivity. Qed.


Lemma contains_url (u : PartSet.t) (p : Part.t) :
  PartSet.contains u p = true ↔ ∃ x, x ∈ u ∧ Part.url p = Part.url x.
Proof.
  unfold PartSet.contains. rewrite existsb_exists. unfold Part.__eq__.
  split; intros (x & Hx & Hu); exists x; split.
  - by apply list_elem_of_In.
  - by apply String.eqb_eq in Hu.
  - by apply list_elem_of_In.
  - by apply String.eqb_eq.
Qed.




End BuildQueue.




(** ** Fetching the advertised parts *)

Section Fetch.

Import Stream.

Variable env : Env.

Lemma eq_by_url (p q : Part.t) : Part.__eq__ p q = true ↔ Part.url p = Part.url q.
Proof. apply String.eqb_eq. Qed.

Lemma contains_by_url (s : PartSet.t) (p q : Part.t) :
  Part.url p = Part.url q → PartSet.contains s p = PartSet.contains s q.
Proof.
  intros Hu. unfold PartSet.contains, Part.__eq__. by rewrite Hu.
Qed.

Lemma contains_app (s1 s2 : PartSet.t) (p : Part.t) :
  PartSet.contains (s1 ++ s2) p = PartSet.contains s1 p || PartSet.contains s2 p.
Proof. apply existsb_app. Qed.

Lemma add_twice (s : PartSet.t) (p q : Part.t) :
  Part.url p = Part.url q → PartSet.add (PartSet.add s p) q = PartSet.add s p.
Proof.
  intros Hu. unfold PartSet.add at 1.
  assert (PartSet.contains (PartSet.add s p) q = true) as ->; [|done].
  rewrite <- (contains_by_url _ p q Hu). unfold PartSet.add.
  destruct (PartSet.contains s p) eqn:Hc; [done|].
  rewrite contains_app, Hc. cbn. unfold Part.__eq__. by rewrite String.eqb_refl.
Qed.

Lemma tracked_nil (s s' : t) :
  _incoming_part_buffer s' = _incoming_part_buffer s →
  _processed_parts s' = _processed_parts s →
  tracked s s' [].
Proof.
  intros Hb Hp. split; rewrite ?app_nil_r; try done.
  - constructor.
  - intros p Hp'. by apply elem_of_nil in Hp'.
Qed.

Lemma tracked_trans (s1 s2 s3 : t) (new1 new2 : list Part.t) :
  tracked s1 s2 new1 → tracked s2 s3 new2 → tracked s1 s3 (new1 ++ new2).
Proof.
  intros [Hb1 Hp1 Hn1 Hf1] [Hb2 Hp2 Hn2 Hf2]. split.
  - by rewrite Hb2, Hb1, app_assoc.
  - by rewrite Hp2, Hp1, app_assoc.
  - rewrite map_app. apply NoDup_app. split; [done|]. split; [|done].
    intros u Hu1 Hu2.
    apply list_elem_of_fmap in Hu1 as (p1 & -> & Hp1').
    apply list_elem_of_fmap in Hu2 as (p2 & Heq & Hp2').
    apply Hf2 in Hp2'. rewrite Hp1, contains_app in Hp2'.
    apply orb_false_elim in Hp2' as [_ Hc].
    assert (PartSet.contains new1 p2 = true); [|congruence].
    apply contains_url. by exists p1.
  - intros p [Hp|Hp]%elem_of_app; [by apply Hf1|].
    apply Hf2 in Hp. rewrite Hp1, contains_app in Hp.
    by apply orb_false_elim in Hp as [? _].
Qed.

Lemma absorb_part_tracked (p : Part.t) (st : state) :
  ∃ new, (absorb_part env p st).1 = Ok Continue ∧
         tracked st.1 (absorb_part env p st).2.1 new.
Proof.
  destruct st as [s w]. unfold absorb_part. rewrite bind_run. cbn [get_self fst].
  destruct (PartSet.contains (_processed_parts s) p) eqn:Hc; cbn [negb].
  - exists []. split; [done|]. by apply tracked_nil.
  - exists [p]. split; [done|].
    unfold mbind, M_bind, modify_self, now, mret, M_ret. cbn. split; cbn.
    + done.
    + unfold PartSet.add. by rewrite Hc.
    + repeat constructor. by intros H%elem_of_nil.
    + by intros q ->%list_elem_of_singleton.
Qed.

Lemma absorb_loop_tracked (ps : list Part.t) :
  ∀ st, ∃ new,
    (for_each ps (absorb_part env) st).1 = Ok Continue ∧
    tracked st.1 (for_each ps (absorb_part env) st).2.1 new.
Proof.
  induction ps as [|p ps IH]; intros st.
  - exists []. split; [done|]. by apply tracked_nil.
  - cbn [for_each]. rewrite bind_run.
    destruct (absorb_part_tracked p st) as (new1 & Hr & Ht).
    destruct (absorb_part env p st) as [r st1]. cbn in Hr, Ht. subst r.
    destruct (IH st1) as (new2 & Hr2 & Ht2).
    exists (new1 ++ new2). split; [done|]. by eapply tracked_trans.
Qed.

Lemma fetch_loop_tracked (attempts : list Z) :
  ∀ st, ∃ new, tracked st.1 (for_each attempts (fetch_attempt env) st).2.1 new.
Proof.
  induction attempts as [|i attempts IH]; intros st.
  - exists []. by apply tracked_nil.
  - cbn [for_each]. rewrite bind_run. unfold fetch_attempt at 1, try_except.
    destruct (4 <? i).
    + exists []. by apply tracked_nil.
    + rewrite bind_run. unfold get_stream_playlist at 1. cbn [fst snd].
      set (st1 := (st.1, _)).
      destruct (playlist env (fetches st.2)) as [ps|e].
      * rewrite bind_run.
        destruct (absorb_loop_tracked ps st1) as (new & Hr & Ht).
        destruct (for_each ps (absorb_part env) st1) as [r st2].
        cbn in Hr, Ht. subst r. cbn. by exists new.
      * destruct e; try (exists []; by apply tracked_nil).
        cbn. apply (IH st1).
Qed.

Lemma fetch_tracked (st : state) :
  ∃ new, tracked st.1 (_fetch_advertised_parts env st).2.1 new.
Proof.
  unfold _fetch_advertised_parts. rewrite bind_run. unfold now at 1.
  cbn [fst snd]. rewrite bind_run.
  set (st0 := (st.1, _)).
  destruct (fetch_loop_tracked range6 st0) as (new & Ht).
  exists new.
  destruct (for_each range6 (fetch_attempt env) st0) as [[c|e] st1]; exact Ht.
Qed.

End Fetch.

(** C9.  Two parts are equal, and hash alike, exactly by their URLs;
    adding a part to a set that holds one of the same URL changes nothing.
    One run of [_fetch_advertised_parts] appends to the part buffer a list
    [new] of parts and adds the same parts to the processed set: no URL
    occurs twice in [new], no part of [new] has the URL of a part that was
    already processed, whatever its other fields, and every part processed
    before is still processed afterwards, so that no later fetch appends it
    either. *)
Theorem C9_parts_queued_once (env : Env) (st : Stream.state) :
  (∀ p q : Part.t, Part.__eq__ p q = true ↔ Part.url p = Part.url q) ∧
  (∀ (h : string → Z) (p q : Part.t),
     Part.url p = Part.url q → Part.__hash__ h p = Part.__hash__ h q) ∧
  (∀ (s : PartSet.t) (p q : Part.t),
     Part.url p = Part.url q → PartSet.add (PartSet.add s p) q = PartSet.add s p) ∧
  let s := st.1 in
  let s' := (Stream._fetch_advertised_parts env st).2.1 in
  ∃ new,
    Stream._incoming_part_buffer s' = Stream._incoming_part_buffer s ++ new ∧
    Stream._processed_parts s' = Stream._processed_parts s ++ new ∧
    NoDup (map Part.url new) ∧
    (∀ q, PartSet.contains (Stream._processed_parts s) q = true →
          (∀ p, p ∈ new → Part.url p ≠ Part.url q) ∧
          PartSet.contains (Stream._processed_parts s') q = true).
Proof.
  split; [apply eq_by_url|]. split.
  { intros h p q Hu. unfold Part.__hash__. by rewrite Hu. }
  split; [apply add_twice|]. cbn zeta.
  destruct (fetch_tracked env st) as (new & [Hb Hp Hn Hf]).
  exists new. split; [done|]. split; [done|]. split; [done|].
  intros q Hq. split.
  - intros p Hin Hu. apply Hf in Hin.
    rewrite (contains_by_url _ p q Hu) in Hin. congruence.
  - rewrite Hp, contains_app, Hq. done.
Qed.

(** ** Downloading a segment *)

(** C2.  A request that fails in the network is logged and the loop over
    the parts goes on with the next part; the retry loop is never entered a
    second time.  For a segment of parts "a" and "b" where the request for
    "a" fails, the file relocated to [out/00001.ts] holds the bytes of "b"
    only, not those of "a" followed by those of "b", after two requests. *)
Theorem C2_failed_part_leaves_gap :
  let r := Stream._download_segment flaky_env two_part_segment (aligned_stream, world0) in
  r.1 = Ok tt ∧
  trace r.2.2 =
    [EvRequest "a"; EvRequest "b"; EvMove "/tmp/twitch-archiver/42/00001.ts" "out/00001.ts"] ∧
  files r.2.2 !! "out/00001.ts" = Some (payload flaky_env "b") ∧
  payload flaky_env "b" ≠
    concat (map (λ p, payload flaky_env (Part.url p)) (StreamSegment.parts two_part_segment)).
Proof.
  cbn zeta. split; [vm_compute; reflexivity|]. split; [vm_compute; reflexivity|].
  split; [vm_compute; reflexivity|]. discriminate.
Qed.

Section Download.

Import Stream.

Variable env : Env.

Lemma quiet_refl (st : state) : quiet st st.
Proof. by split. Qed.

Lemma quiet_trans (st1 st2 st3 : state) : quiet st1 st2 → quiet st2 st3 → quiet st1 st3.
Proof.
  intros [H1 H2 H3 H4] [H1' H2' H3' H4']. split.
  - by rewrite H1'.
  - by rewrite H2'.
  - by rewrite H3'.
  - intros path Hp. by apply H4', H4.
Qed.

Lemma relocations_snoc (tr : list event) (e : event) :
  relocations (tr ++ [e]) = (relocations tr + (if is_move e then 1 else 0))%nat.
Proof.
  unfold relocations. rewrite filter_app, length_app. cbn.
  unfold filter at 2. cbn. by destruct (is_move e).
Qed.

Lemma write_quiet (path : string) (chunk : list Byte.byte) (st : state) :
  (write path chunk st).1 = Ok tt ∧ quiet st (write path chunk st).2.
Proof.
  split; [done|]. split; cbn; try done.
  intros p Hp. apply lookup_insert_is_Some.
  destruct (decide (path = p)); [by left|by right].
Qed.

Lemma write_loop_quiet (path : string) (cs : list (list Byte.byte)) :
  ∀ st,
    let r := for_each cs (λ chunk, write path chunk;; mret Continue) st in
    r.1 = Ok Continue ∧ quiet st r.2.
Proof.
  induction cs as [|c cs IH]; intros st; cbn zeta.
  - split; [done|apply quiet_refl].
  - cbn [for_each]. rewrite !bind_run.
    destruct (write_quiet path c st) as [Hr Hq].
    destruct (write path c st) as [r st1]. cbn in Hr, Hq. subst r. cbn.
    destruct (IH st1) as [Hr' Hq']. split; [done|]. by eapply quiet_trans.
Qed.

Lemma requests_get_quiet (url : string) (st : state) :
  let r := requests_get env url st in
  ((∃ resp, r.1 = Ok resp) ∨ r.1 = Raise RequestException) ∧ quiet st r.2.
Proof.
  cbn zeta. unfold requests_get.
  destruct (net env (requests st.2)); cbn [fst snd].
  all: split; [by eauto|].
  all: split; cbn [fst snd moves trace files]; [done|done| |done].
  all: by rewrite relocations_snoc, Nat.add_0_r.
Qed.

Lemma download_part_quiet (tmp : string) (p : Part.t) (st : state) :
  let r := download_part env tmp p st in
  (∃ c, r.1 = Ok c) ∧ quiet st r.2.
Proof.
  cbn zeta. unfold download_part, try_except. rewrite bind_run.
  destruct (requests_get_quiet (Part.url p) st) as [Hr Hq].
  destruct (requests_get env (Part.url p) st) as [r st1]. cbn in Hr, Hq.
  destruct Hr as [[resp ->]| ->]; [|by eauto].
  destruct (negb (status_code resp =? 200)); [by eauto|].
  rewrite bind_run.
  destruct (write_loop_quiet tmp (chunks resp) st1) as [Hr Hq'].
  destruct (for_each _ _ st1) as [r st2]. cbn in Hr, Hq'. subst r.
  assert (quiet st st2) by by eapply quiet_trans.
  destruct (broken resp); cbn; eauto.
Qed.

Lemma parts_loop_quiet (tmp : string) (ps : list Part.t) :
  ∀ st,
    let r := for_each ps (download_part env tmp) st in
    (∃ c, r.1 = Ok c) ∧ quiet st r.2.
Proof.
  induction ps as [|p ps IH]; intros st; cbn zeta.
  - split; [by eexists|apply quiet_refl].
  - cbn [for_each]. rewrite bind_run.
    destruct (download_part_quiet tmp p st) as [[c Hr] Hq].
    destruct (download_part env tmp p st) as [r st1]. cbn in Hr, Hq. subst r.
    destruct c.
    + destruct (IH st1) as [Hr' Hq']. split; [done|]. by eapply quiet_trans.
    + split; [by eexists|done].
    + split; [by eexists|done].
Qed.

Lemma open_wb_spec (path : string) (st : state) :
  let r := open_wb path st in
  r.1 = Ok tt ∧ quiet st r.2 ∧ is_Some (files r.2.2 !! path).
Proof.
  cbn zeta. split; [done|]. split.
  - split; cbn; try done. intros p Hp. apply lookup_insert_is_Some.
    destruct (decide (path = p)); [by left|by right].
  - unfold open_wb, mbind, M_bind, get_world, set_files, modify_world.
    cbn. rewrite lookup_insert_eq. eauto.
Qed.

Lemma safe_move_spec (src dst : string) (st : state) :
  is_Some (files st.2 !! src) →
  let r := safe_move env src dst st in
  r.2.1 = st.1 ∧
  relocations (trace r.2.2) = S (relocations (trace st.2)) ∧
  r.1 = (if move_ok env (moves st.2) then Ok tt else Raise OSError).
Proof.
  intros [content Hc]. cbn zeta. unfold safe_move. rewrite Hc.
  destruct (move_ok env (moves st.2)); cbn [fst snd trace].
  all: rewrite relocations_snoc; cbn [is_move]; split; [done|]; split; [lia|done].
Qed.

Lemma for_each_leaves {A : Type} (x : A) (rest : list A) (body : A → M ctl) (st : state) :
  (body x st).1 ≠ Ok Continue →
  for_each (x :: rest) body st =
  (match (body x st).1 with
   | Ok Return => Ok Return
   | Ok _ => Ok Continue
   | Raise e => Raise e
   end, (body x st).2).
Proof.
  intros Hne. cbn [for_each]. rewrite bind_run.
  destruct (body x st) as [[[]|e] st']; cbn in *; done.
Qed.

(** A round of the retry loop never asks for another round: it
    relocates the file, returns, or raises. *)
Lemma download_attempt_spec (seg : StreamSegment.t) (tmp : string) (i : Z) (st : state) :
  i ≤ 4 →
  let r := download_attempt env seg tmp i st in
  r.2.1 = st.1 ∧
  (relocations (trace r.2.2) ≤ S (relocations (trace st.2)))%nat ∧
  (r.1 = Ok Break ∨ r.1 = Ok Return ∨
   r.1 = Raise (StreamSegmentDownloadError (StreamSegment.id seg) OSError)) ∧
  (move_ok env (moves st.2) = true → r.1 = Ok Break ∨ r.1 = Ok Return).
Proof.
  intros Hi. cbn zeta. unfold download_attempt.
  assert ((4 <? i) = false) as -> by by apply Z.ltb_ge.
  rewrite bind_run.
  destruct (open_wb_spec tmp st) as (Ho & Hqo & Hfile).
  destruct (open_wb tmp st) as [ro st1]. cbn in Ho, Hqo, Hfile. subst ro.
  rewrite bind_run.
  destruct (parts_loop_quiet tmp (StreamSegment.parts seg) st1) as [[c Hc] Hqp].
  destruct (for_each (StreamSegment.parts seg) (download_part env tmp) st1) as [rp st2].
  cbn in Hc, Hqp. subst rp.
  assert (Hq : quiet st st2) by by eapply quiet_trans.
  destruct Hq as [Hs Hm Hr Hf].
  assert (Hmove : ∀ dst,
            let r := try_except
                       (self ← get_self; safe_move env tmp dst;; mret Break)
                       (λ e, Some (raise (StreamSegmentDownloadError (StreamSegment.id seg) e)))
                       st2 in
            r.2.1 = st.1 ∧
            (relocations (trace r.2.2) ≤ S (relocations (trace st.2)))%nat ∧
            (r.1 = Ok Break ∨ r.1 = Ok Return ∨
             r.1 = Raise (StreamSegmentDownloadError (StreamSegment.id seg) OSError)) ∧
            (move_ok env (moves st.2) = true → r.1 = Ok Break ∨ r.1 = Ok Return)).
  { intros dst. cbn zeta. unfold try_except. rewrite bind_run. cbn [get_self fst].
    rewrite bind_run.
    destruct (safe_move_spec tmp dst st2) as (Hs' & Hr' & Hres).
    { apply Hqp, Hfile. }
    destruct (safe_move env tmp dst st2) as [rm st3]. cbn in Hs', Hr', Hres.
    rewrite Hm in Hres. subst rm.
    destruct (move_ok env (moves st.2)); cbn.
    - split; [congruence|]. split; [lia|]. split; [by left|]. by left.
    - split; [congruence|]. split; [lia|]. split; [by right; right|]. done. }
  destruct c.
  - apply Hmove.
  - apply Hmove.
  - cbn. split; [done|]. split; [lia|]. split; [by right; left|]. by right.
Qed.

(** One call of [_download_segment] makes one attempt: it relocates at
    most one file, leaves the object alone, and raises only when the
    relocation fails. *)
Lemma download_segment_once (seg : StreamSegment.t) (st : state) :
  let r := _download_segment env seg st in
  r.2.1 = st.1 ∧
  (relocations (trace r.2.2) ≤ S (relocations (trace st.2)))%nat ∧
  (r.1 = Ok tt ∨
   r.1 = Raise (StreamSegmentDownloadError (StreamSegment.id seg) OSError)) ∧
  (move_ok env (moves st.2) = true → r.1 = Ok tt).
Proof.
  cbn zeta. unfold _download_segment. rewrite bind_run. cbn [get_self fst].
  set (tmp := path_join _ (segment_file_name (StreamSegment.id seg))).
  rewrite bind_run. unfold range6.
  destruct (download_attempt_spec seg tmp 0 st) as (Hs & Hr & Hres & Hok); [lia|].
  rewrite for_each_leaves by (destruct Hres as [->|[->| ->]]; done).
  destruct (download_attempt env seg tmp 0 st) as [r st1]. cbn in Hs, Hr, Hres, Hok.
  destruct Hres as [->|[->| ->]]; cbn.
  - split; [done|]. split; [done|]. split; [by left|done].
  - split; [done|]. split; [done|]. split; [by left|done].
  - split; [done|]. split; [done|]. split; [by right|].
    intros Hm. by destruct (Hok Hm).
Qed.

(** *** When nothing fails the relocated file is the whole segment *)

Lemma split_chunks_concat (size : nat) :
  (0 < size)%nat →
  ∀ fuel data, (length data ≤ fuel)%nat → concat (split_chunks fuel size data) = data.
Proof.
  intros Hsize. induction fuel as [|fuel IH]; intros data Hlen.
  - destruct data; [done|cbn in Hlen; lia].
  - destruct data as [|b data]; [done|].
    cbn [split_chunks concat]. rewrite IH.
    + apply take_drop.
    + rewrite length_drop. cbn [length] in *. lia.
Qed.

Lemma iter_content_concat (data : list Byte.byte) :
  concat (iter_content chunk_size data) = data.
Proof.
  apply split_chunks_concat; [|done]. unfold chunk_size. lia.
Qed.

Lemma write_loop_files (path : string) (cs : list (list Byte.byte)) :
  ∀ (s : t) (w : World) (old : list Byte.byte),
    files w !! path = Some old →
    for_each cs (λ chunk, write path chunk;; mret Continue) (s, w) =
    (Ok Continue,
     (s, mkWorld (ticks w) (fetches w) (requests w) (moves w)
                 (<[path := old ++ concat cs]> (files w)) (trace w))).
Proof.
  induction cs as [|c cs IH]; intros s w old Hold.
  - cbn. rewrite app_nil_r, insert_id by done. by destruct w.
  - cbn [for_each]. rewrite !bind_run.
    unfold write at 1, get_world, set_files, modify_world. rewrite !bind_run.
    cbn [fst snd files]. rewrite Hold. cbn [default].
    unfold mret at 1, M_ret at 1. cbv beta iota.
    rewrite (IH _ _ (old ++ c)) by apply lookup_insert_eq.
    cbn. by rewrite insert_insert_eq, app_assoc.
Qed.

Lemma download_part_delivered (tmp : string) (p : Part.t) (s : t) (w : World)
    (old : list Byte.byte) :
  files w !! tmp = Some old →
  net env (requests w) = NetResponse 200 →
  download_part env tmp p (s, w) =
  (Ok Continue,
   (s, mkWorld (ticks w) (fetches w) (S (requests w)) (moves w)
               (<[tmp := old ++ payload env (Part.url p)]> (files w))
               (trace w ++ [EvRequest (Part.url p)]))).
Proof.
  intros Hold Hnet. unfold download_part, try_except. rewrite bind_run.
  unfold requests_get. cbn [fst snd]. rewrite Hnet.
  cbn [status_code chunks broken]. change (negb (200 =? 200)) with false.
  cbv beta iota. rewrite bind_run.
  rewrite (write_loop_files tmp _ _ _ old) by done.
  cbn. by rewrite iter_content_concat.
Qed.

Lemma parts_loop_delivered (tmp : string) (ps : list Part.t) :
  ∀ (s : t) (w : World) (old : list Byte.byte),
    files w !! tmp = Some old →
    (∀ k, (k < length ps)%nat → net env (requests w + k) = NetResponse 200) →
    let r := for_each ps (download_part env tmp) (s, w) in
    r.1 = Ok Continue ∧
    r.2.1 = s ∧
    moves r.2.2 = moves w ∧
    files r.2.2 !! tmp =
      Some (old ++ concat (map (λ p, payload env (Part.url p)) ps)).
Proof.
  induction ps as [|p ps IH]; intros s w old Hold Hnet; cbn zeta.
  - cbn. by rewrite app_nil_r.
  - cbn [for_each]. rewrite bind_run.
    rewrite (download_part_delivered tmp p s w old Hold).
    2:{ specialize (Hnet 0%nat). rewrite Nat.add_0_r in Hnet. apply Hnet. cbn. lia. }
    cbv beta iota.
    set (w1 := mkWorld _ _ _ _ _ _).
    destruct (IH s w1 (old ++ payload env (Part.url p))) as (Hr & Hs & Hm & Hf).
    + apply lookup_insert_eq.
    + intros k Hk. cbn [requests w1]. specialize (Hnet (S k)).
      rewrite Nat.add_succ_r in Hnet. apply Hnet. cbn. lia.
    + split; [exact Hr|]. split; [exact Hs|]. split; [exact Hm|].
      rewrite Hf. cbn [map concat]. by rewrite app_assoc.
Qed.

(** If every part request is answered 200 with its body whole and the
    relocation succeeds, the file in the output directory is the
    concatenation of the part payloads in the order of the parts. *)
Lemma download_segment_complete (seg : StreamSegment.t) (st : state) :
  (∀ k, (k < length (StreamSegment.parts seg))%nat →
        net env (requests st.2 + k) = NetResponse 200) →
  move_ok env (moves st.2) = true →
  let r := _download_segment env seg st in
  r.1 = Ok tt ∧
  files r.2.2 !! path_join (output_dir st.1) (segment_file_name (StreamSegment.id seg)) =
    Some (concat (map (λ p, payload env (Part.url p)) (StreamSegment.parts seg))).
Proof.
  intros Hnet Hmove. destruct st as [s w]. cbn [fst snd] in Hnet, Hmove. cbn zeta.
  unfold _download_segment. rewrite bind_run. cbn [get_self fst].
  set (tmp := path_join _ (segment_file_name (StreamSegment.id seg))).
  rewrite bind_run. unfold range6.
  assert (Hatt : ∃ w',
            download_attempt env seg tmp 0 (s, w) = (Ok Break, (s, w')) ∧
            files w' !! path_join (output_dir s) (segment_file_name (StreamSegment.id seg)) =
              Some (concat (map (λ p, payload env (Part.url p)) (StreamSegment.parts seg)))).
  { unfold download_attempt. change (4 <? 0) with false. cbv beta iota.
    rewrite bind_run. unfold open_wb, get_world, set_files, modify_world.
    rewrite bind_run. cbn [fst snd]. rewrite bind_run.
    set (w1 := mkWorld _ _ _ _ (<[tmp := []]> (files w)) _).
    destruct (parts_loop_delivered tmp (StreamSegment.parts seg) s w1 [])
      as (Hr & Hs & Hm & Hf).
    { apply lookup_insert_eq. }
    { exact Hnet. }
    destruct (for_each (StreamSegment.parts seg) (download_part env tmp) (s, w1))
      as [r [s2 w2]].
    cbn in Hr, Hs, Hm, Hf. subst r s2.
    unfold try_except. rewrite bind_run. cbn [get_self fst]. rewrite bind_run.
    unfold safe_move. cbn [fst snd]. rewrite Hm. cbn [moves w1]. rewrite Hmove, Hf.
    eexists. split; [reflexivity|]. cbn [files]. apply lookup_insert_eq. }
  destruct Hatt as (w' & Hatt & Hfile).
  rewrite for_each_leaves by (rewrite Hatt; done).
  rewrite Hatt. cbn. done.
Qed.

Lemma get_final_segment_spec (st : state) (q : StreamSegmentList.t) :
  _download_queue st.1 = Some q →
  let r := _get_final_segment env st in
  r.2.1 = st.1 ∧
  (relocations (trace r.2.2) ≤ S (relocations (trace st.2)))%nat ∧
  (r.1 = Ok tt ∨ ∃ i, r.1 = Raise (StreamSegmentDownloadError i OSError)) ∧
  (move_ok env (moves st.2) = true → r.1 = Ok tt).
Proof.
  intros Hq. cbn zeta. unfold _get_final_segment. rewrite bind_run.
  cbn [get_self fst]. rewrite Hq.
  destruct (StreamSegmentList.is_segment_present q (StreamSegmentList.current_id q))
    eqn:Hp.
  - apply is_segment_present_lookup in Hp as [seg Hseg].
    rewrite bind_run. unfold lift, StreamSegmentList.get_segment_by_id. rewrite Hseg.
    destruct (download_segment_once seg st) as (Hs & Hr & Hres & Hok).
    split; [done|]. split; [done|]. split; [|done].
    destruct Hres as [?|?]; [by left|right; eauto].
  - cbn. split; [done|]. split; [lia|]. split; [by left|done].
Qed.

End Download.

(** ** A pass that finds the broadcast ended *)




(** ** The cadence of the run loop *)

Section Cadence.

Import Stream.

Variable env : Env.

Lemma int_of_float_nonneg (x : Q) :
  (0 <= x)%Q →
  (inject_Z (int_of_float x) <= x)%Q ∧ (x < inject_Z (int_of_float x + 1))%Q.
Proof.
  intros Hx. unfold int_of_float.
  assert (Qle_bool 0 x = true) as -> by by apply Qle_bool_iff.
  split; [apply Qfloor_le|apply Qlt_floor].
Qed.

Lemma cadence_sleep_spec (_start_timestamp : Q) (st : state) :
  let k := int_of_float (clock env (ticks st.2) - _start_timestamp) in
  let r := cadence_sleep env _start_timestamp st in
  r.1 = Ok tt ∧
  r.2.1 = st.1 ∧
  files r.2.2 = files st.2 ∧
  ticks r.2.2 = S (ticks st.2) ∧
  trace r.2.2 = trace st.2 ++ (if k <? 4 then [EvSleep (4 - k)] else []).
Proof.
  destruct st as [s w]. cbn zeta. unfold cadence_sleep. rewrite bind_run.
  unfold now. cbn [fst snd]. cbv beta iota.
  destruct (int_of_float (clock env (ticks w) - _start_timestamp) <? 4); cbn.
  - done.
  - by rewrite app_nil_r.
Qed.

End Cadence.

(** C10, as the claim states it, fails: the elapsed time is cut to whole
    seconds before it is subtracted.  A first pass that takes 1.5 seconds
    is followed by a sleep of 3 seconds, not of 2.5. *)
Lemma C10_sleep_counts_whole_seconds :
  let r := Stream.start idle_env 1 (aligned_stream, world0) in
  let pass_time := (clock idle_env 3 - clock idle_env 0)%Q in
  r.1 = Ok false ∧
  ticks r.2.2 = 4%nat ∧
  (pass_time == 3 # 2)%Q ∧
  trace r.2.2 = [EvSleep 3] ∧
  ¬ (inject_Z 3 == 4 - pass_time)%Q.
Proof.
  cbn zeta. split; [vm_compute; reflexivity|]. split; [vm_compute; reflexivity|].
  split; [reflexivity|]. split; [vm_compute; reflexivity|]. discriminate.
Qed.

(** How the two loops measure a pass: [start] reads its start timestamp
    once, before the loop, so with one second between clock readings its
    second pass is followed by no sleep at all, while [_buffer_stream]
    reads it anew in every round and sleeps after each pass. *)
Remark start_measures_from_loop_entry :
  trace (Stream.start ticking_env 2 (aligned_stream, world0)).2.2 = [EvSleep 1] ∧
  trace (Stream._buffer_stream ticking_env "buffer" 112 (aligned_stream, world0)).2.2 =
    [EvSleep 2; EvSleep 2; EvSleep 0].
Proof. split; vm_compute; reflexivity. Qed.

(** C10, amended.  In the first round of the run loop, when the pass
    returns and the broadcast has not been declared ended, the loop reads
    the clock, cuts the time elapsed since the pass began to whole seconds
    [k] (so [k <= elapsed < k + 1]) and, if [k] is under 4, sleeps for
    [4 - k] seconds before the next pass; if [k] is 4 or more it does not
    sleep. *)
Theorem C10_first_pass_cadence (env : Env) (n : nat) (st st1 : Stream.state) :
  let t0 := clock env (ticks st.2) in
  Stream.single_download_pass env (Stream.now env st).2 = (Ok tt, st1) →
  Qle_bool (clock env (ticks st1.2) - Stream._last_part_announce st1.1) 20 = true →
  let t1 := clock env (S (ticks st1.2)) in
  let k := Stream.int_of_float (t1 - t0) in
  ∃ st3,
    Stream.start env (S n) st = Stream.start_loop env n t0 st3 ∧
    st3.1 = st1.1 ∧
    files st3.2 = files st1.2 ∧
    trace st3.2 = trace st1.2 ++ (if k <? 4 then [EvSleep (4 - k)] else []) ∧
    ((0 <= t1 - t0)%Q → (inject_Z k <= t1 - t0)%Q ∧ (t1 - t0 < inject_Z (k + 1))%Q).
Proof.
  intros t0 Hpass Hsince t1 k.
  unfold Stream.start. rewrite bind_run. unfold Stream.now at 1. cbn [fst snd].
  fold t0. cbn [Stream.start_loop]. rewrite bind_run.
  unfold Stream.now in Hpass. cbn [fst snd] in Hpass. rewrite Hpass.
  rewrite bind_run. cbn [Stream.get_self fst]. rewrite bind_run.
  unfold Stream.time_since_date. rewrite bind_run. unfold Stream.now at 1.
  cbn [fst snd]. unfold mret at 1, Stream.M_ret at 1. rewrite Hsince. cbn [negb].
  rewrite bind_run.
  set (st2 := (st1.1, mkWorld (S (ticks st1.2)) (fetches st1.2) (requests st1.2)
                        (moves st1.2) (files st1.2) (trace st1.2))).
  destruct (cadence_sleep_spec env t0 st2) as (Hr & Hs & Hf & Ht & Htr).
  destruct (Stream.cadence_sleep env t0 st2) as [r st3]. cbn in Hr, Hs, Hf, Ht, Htr.
  subst r. exists st3. split; [reflexivity|]. split; [done|]. split; [done|].
  split; [exact Htr|]. apply int_of_float_nonneg.
Qed.

Lemma C10_first_pass_cadence_witness :
  ∃ st3,
    Stream.start idle_env 1 (aligned_stream, world0) =
      Stream.start_loop idle_env 0 0%Q st3 ∧
    trace st3.2 = [EvSleep 3].
Proof.
  destruct (C10_first_pass_cadence idle_env 0 (aligned_stream, world0)
              (Stream.single_download_pass idle_env
                 (Stream.now idle_env (aligned_stream, world0)).2).2)
    as (st3 & Hstart & _ & _ & Htrace & _).
  - vm_compute. reflexivity.
  - vm_compute. reflexivity.
  - exists st3. split; [exact Hstart|]. rewrite Htrace. vm_compute. reflexivity.
Defined.

(** * Further properties of the segment list *)

Section ListFacts.

Import StreamSegmentList.

(** The effect of one call on the dictionary. *)
Lemma add_part_effect (self : t) (p : Part.t) :
  let j := if target_full self p then target_id self p + 1 else target_id self p in
  ∃ self' seg,
    add_part self p = Ok self' ∧
    segments self' !! j = Some seg ∧
    last (StreamSegment.parts seg) = Some p ∧
    StreamSegment.id seg = (if target_full self p then j
                            else match segments self !! j with
                                 | Some old => StreamSegment.id old
                                 | None => j
                                 end) ∧
    (∀ i, i ≠ j → segments self' !! i = segments self !! i) ∧
    _align_segments self' = _align_segments self ∧
    stream_created_at self' = stream_created_at self.
Proof.
  cbn zeta. unfold add_part, target_full. rewrite add_part_logged_eq. cbn zeta.
  destruct (segments self !! target_id self p) as [seg|] eqn:Hc.
  - destruct (Z.of_nat (length (StreamSegment.parts seg)) =? 5) eqn:Hfull; cbn.
    + eexists _, _. split; [reflexivity|]. cbn.
      split; [apply lookup_insert_eq|]. split; [reflexivity|]. split; [reflexivity|].
      split; [|done]. intros i Hi. by rewrite lookup_insert_ne.
    + eexists _, _. split; [reflexivity|]. cbn.
      split; [apply lookup_insert_eq|]. split; [apply last_snoc|].
      rewrite Hc. split; [reflexivity|].
      split; [|done]. intros i Hi. by rewrite lookup_insert_ne.
  - cbn. eexists _, _. split; [reflexivity|]. cbn.
    split; [apply lookup_insert_eq|]. split; [reflexivity|]. rewrite Hc.
    split; [reflexivity|].
    split; [|done]. intros i Hi. by rewrite lookup_insert_ne.
Qed.

(** [add_part] never raises, and what it does is this.  With [c] the
    target id: when no segment is stored at [c], a new one is stored there
    holding the part alone; when the segment at [c] holds fewer than five
    parts, the part is appended to its parts, its id stays and the part's
    duration is added to its duration; when it holds five, it is left as it
    is and a new segment holding the part alone is stored at [c + 1].  No
    other entry of the dictionary changes, [current_id] becomes the id of
    the segment created, if one was, and the mode and the start time
    stay. *)
Theorem add_part_frame (self : t) (p : Part.t) :
  let c := target_id self p in
  let j := if target_full self p then c + 1 else c in
  ∃ self' seg,
    add_part self p = Ok self' ∧
    segments self' !! j = Some seg ∧
    seg = (if target_full self p then
             StreamSegment.mk [p] (c + 1) (Float.add 0 (Part.duration p))
           else match segments self !! c with
                | Some old =>
                    StreamSegment.mk (StreamSegment.parts old ++ [p]) (StreamSegment.id old)
                      (Float.add (StreamSegment.duration old) (Part.duration p))
                | None => StreamSegment.mk [p] c (Float.add 0 (Part.duration p))
                end) ∧
    last (StreamSegment.parts seg) = Some p ∧
    (target_full self p = true → segments self' !! c = segments self !! c) ∧
    (∀ i, i ≠ j → segments self' !! i = segments self !! i) ∧
    current_id self' = (if target_full self p then c + 1
                        else if is_segment_present self c then current_id self else c) ∧
    _align_segments self' = _align_segments self ∧
    stream_created_at self' = stream_created_at self.
Proof.
  cbn zeta. unfold add_part, target_full. rewrite add_part_logged_eq. cbn zeta.
  destruct (segments self !! target_id self p) as [seg|] eqn:Hc.
  - assert (Hp : is_segment_present self (target_id self p) = true)
      by (apply is_segment_present_lookup; eauto).
    destruct (Z.of_nat (length (StreamSegment.parts seg)) =? 5) eqn:Hfull; cbn.
    + eexists _, _. split; [reflexivity|]. cbn.
      split; [apply lookup_insert_eq|]. split; [reflexivity|]. split; [reflexivity|].
      split; [intros _; by rewrite lookup_insert_ne by lia|].
      split; [|done]. intros i Hi. by rewrite lookup_insert_ne.
    + eexists _, _. split; [reflexivity|]. cbn.
      split; [apply lookup_insert_eq|]. split; [reflexivity|]. split; [apply last_snoc|].
      split; [done|]. rewrite Hp.
      split; [|done]. intros i Hi. by rewrite lookup_insert_ne.
  - assert (Hp : is_segment_present self (target_id self p) = false).
    { apply not_true_is_false. rewrite is_segment_present_lookup, Hc. by intros [? ?]. }
    cbn. eexists _, _. split; [reflexivity|]. cbn.
    split; [apply lookup_insert_eq|]. split; [reflexivity|]. split; [reflexivity|].
    split; [done|]. rewrite Hp.
    split; [|done]. intros i Hi. by rewrite lookup_insert_ne.
Qed.

Lemma add_part_well_formed (self self' : t) (p : Part.t) :
  well_formed self → add_part self p = Ok self' → well_formed self'.
Proof.
  unfold add_part. rewrite add_part_logged_eq. cbn zeta. intros Hwf Hadd k seg Hk.
  destruct (segments self !! target_id self p) as [tseg|] eqn:Hc.
  - destruct (Z.of_nat (length (StreamSegment.parts tseg)) =? 5) eqn:Hfull;
      injection Hadd as <-; cbn in Hk.
    + apply lookup_insert_Some in Hk as [[<- <-]|[_ Hk]]; [|by apply Hwf].
      cbn. split; [done|]. split; [lia|done].
    + apply lookup_insert_Some in Hk as [[<- <-]|[_ Hk]]; [|by apply Hwf].
      destruct (Hwf _ _ Hc) as (Hid & Hlen & Hdur). cbn.
      split; [done|]. rewrite length_app. cbn [length].
      apply Z.eqb_neq in Hfull. split; [lia|].
      by rewrite map_app, foldl_app, <- Hdur.
  - injection Hadd as <-; cbn in Hk.
    apply lookup_insert_Some in Hk as [[<- <-]|[_ Hk]]; [|by apply Hwf].
    cbn. split; [done|]. split; [lia|done].
Qed.

Lemma add_part_logged_fst (self : t) (log log' : list Z) (p : Part.t) :
  fst <$> add_part_logged (self, log) p = fst <$> add_part_logged (self, log') p.
Proof.
  rewrite !add_part_logged_eq. cbn zeta.
  destruct (segments self !! target_id self p) as [seg|]; [|done].
  by destruct (_ =? 5).
Qed.

Lemma add_parts_logged_fst (ps : list Part.t) :
  ∀ self log log',
    fst <$> add_parts_logged (self, log) ps = fst <$> add_parts_logged (self, log') ps.
Proof.
  induction ps as [|p ps IH]; intros self log log'; [done|].
  cbn [add_parts_logged].
  pose proof (add_part_logged_fst self log log' p) as Hp.
  destruct (add_part_logged (self, log) p) as [[s1 l1]|e1],
           (add_part_logged (self, log') p) as [[s2 l2]|e2]; cbn in Hp; try done.
  injection Hp as ->. cbn. apply IH.
Qed.

(** A sequence of calls is the first call followed by the rest. *)
Lemma add_parts_cons (self : t) (p : Part.t) (ps : list Part.t) :
  add_parts self (p :: ps) = add_part self p ≫= λ self', add_parts self' ps.
Proof.
  unfold add_parts, add_part. cbn [add_parts_logged].
  destruct (add_part_logged (self, []) p) as [[s1 l1]|e]; cbn; [|done].
  apply add_parts_logged_fst.
Qed.

Lemma add_parts_well_formed (ps : list Part.t) :
  ∀ self, well_formed self → ∃ self', add_parts self ps = Ok self' ∧ well_formed self'.
Proof.
  induction ps as [|p ps IH]; intros self Hwf.
  - by exists self.
  - rewrite add_parts_cons. destruct (add_part_total self p) as [s1 Hs1].
    rewrite Hs1. cbn. apply IH. by eapply add_part_well_formed.
Qed.

(** Whatever parts are added to a new list, in either mode, every call
    succeeds and every segment of the list sits at its own id, holds
    between one and five parts, and has as duration what the repeated
    [+=] gives: the durations of its parts added up in order from 0, each
    sum rounded to binary64. *)
Theorem segments_well_formed (c0 : Q) (a : bool) (start_id : Z) (ps : list Part.t) :
  ∃ self,
    add_parts (__init__ c0 a start_id) ps = Ok self ∧
    ∀ k seg,
      segments self !! k = Some seg →
      StreamSegment.id seg = k ∧
      (1 ≤ length (StreamSegment.parts seg) ≤ 5)%nat ∧
      StreamSegment.is_full seg = bool_decide (length (StreamSegment.parts seg) = 5%nat) ∧
      StreamSegment.duration seg =
        foldl (λ acc d, Float.round (acc + d)) 0%Q
          (map Part.duration (StreamSegment.parts seg)).
Proof.
  destruct (add_parts_well_formed ps (__init__ c0 a start_id)) as (self & Hrun & Hwf).
  { intros k seg Hk. cbn in Hk. by rewrite lookup_empty in Hk. }
  exists self. split; [exact Hrun|]. intros k seg Hk.
  destruct (Hwf k seg Hk) as (Hid & Hlen & Hdur).
  split; [done|]. split; [done|]. split; [|done].
  unfold StreamSegment.is_full.
  destruct (Z.of_nat (length (StreamSegment.parts seg)) =? 5) eqn:Hfull.
  - apply Z.eqb_eq in Hfull. symmetry. apply bool_decide_eq_true. lia.
  - apply Z.eqb_neq in Hfull. symmetry. apply bool_decide_eq_false. lia.
Qed.

(** *** Non-alignment mode keeps every part *)

Lemma plain_add_part_keeps (self self' : t) (p : Part.t) :
  _align_segments self = false →
  (∀ k, is_Some (segments self !! k) → k ≤ current_id self) →
  add_part self p = Ok self' →
  _align_segments self' = false ∧
  (∀ k, is_Some (segments self' !! k) → k ≤ current_id self') ∧
  stored self' p ∧
  (∀ q, stored self q → stored self' q).
Proof.
  intros Ha Hkeys Hadd.
  assert (Ht : target_id self p = current_id self).
  { unfold target_id. by rewrite Ha. }
  assert (Hold : ∀ q, stored self q → stored self' q).
  { intros q (j & seg & Hj & Hq).
    destruct (add_part_keeps_parts self self' p j seg Hadd Hj) as (seg' & Hj' & Hpre).
    - rewrite Ht. assert (j ≤ current_id self) by (apply Hkeys; eauto). lia.
    - exists j, seg'. split; [done|]. destruct Hpre as [l ->].
      apply elem_of_app. by left. }
  destruct (add_part_effect self p) as (s1 & seg & Hadd1 & Hseg & Hlast & _ & Hother & Ha1 & _).
  rewrite Hadd in Hadd1. injection Hadd1 as <-.
  split; [congruence|]. split; [|split; [|exact Hold]].
  - revert Hadd. unfold add_part. rewrite add_part_logged_eq. cbn zeta. rewrite Ht.
    destruct (segments self !! current_id self) as [tseg|] eqn:Hc.
    + destruct (_ =? 5); intros [= <-]; cbn;
        intros k [Hk|[_ Hk]]%lookup_insert_is_Some; try lia;
        apply Hkeys in Hk; lia.
    + intros [= <-]; cbn. intros k [Hk|[_ Hk]]%lookup_insert_is_Some; [lia|].
      by apply Hkeys.
  - eexists _, seg. split; [exact Hseg|].
    destruct (StreamSegment.parts seg) as [|x l] using rev_ind; [done|].
    rewrite last_snoc in Hlast. injection Hlast as ->.
    apply elem_of_app. right. by left.
Qed.

Lemma plain_add_parts_keep (ps : list Part.t) :
  ∀ self,
    _align_segments self = false →
    (∀ k, is_Some (segments self !! k) → k ≤ current_id self) →
    ∃ self',
      add_parts self ps = Ok self' ∧
      (∀ q, stored self q → stored self' q) ∧
      (∀ p, p ∈ ps → stored self' p).
Proof.
  induction ps as [|p ps IH]; intros self Ha Hkeys.
  - exists self. split; [done|]. split; [done|]. intros p Hp. by apply elem_of_nil in Hp.
  - rewrite add_parts_cons. destruct (add_part_total self p) as [s1 Hs1].
    rewrite Hs1. cbn [mbind result_bind].
    destruct (plain_add_part_keeps self s1 p Ha Hkeys Hs1) as (Ha1 & Hk1 & Hp & Hold).
    destruct (IH s1 Ha1 Hk1) as (s2 & Hrun & Hold2 & Hnew).
    exists s2. split; [exact Hrun|]. split; [by auto|].
    intros q [->|Hq]%elem_of_cons; auto.
Qed.

(** In non-alignment mode, with no segment popped in between, no call of
    [add_part] loses a part: after any sequence of calls on a new list
    every part added is held by some segment. *)
Theorem plain_mode_keeps_every_part (c0 : Q) (start_id : Z) (ps : list Part.t) :
  ∃ self,
    add_parts (__init__ c0 false start_id) ps = Ok self ∧
    ∀ p, p ∈ ps → stored self p.
Proof.
  destruct (plain_add_parts_keep ps (__init__ c0 false start_id)) as (self & Hrun & _ & Hall).
  - done.
  - intros k [x Hk]. cbn in Hk. by rewrite lookup_empty in Hk.
  - by exists self.
Qed.

(** *** Completed segments *)

Lemma completed_fold_raise (l : list (Z * StreamSegment.t)) (e : exn) :
  foldl (λ (acc : result (gset Z)) (kv : Z * StreamSegment.t),
           _segment_ids ← acc;
           if Z.of_nat (length (StreamSegment.parts kv.2)) =? 5 then
             v ← StreamSegment.v_id kv.2;
             mret ({[v]} ∪ _segment_ids)
           else mret _segment_ids)
        (Raise e) l = Raise e.
Proof. induction l as [|kv l IH]; [done|]. cbn. apply IH. Qed.

Lemma completed_fold (l : list (Z * StreamSegment.t)) (ids : gset Z) :
  foldl (λ (acc : result (gset Z)) (kv : Z * StreamSegment.t),
           _segment_ids ← acc;
           if Z.of_nat (length (StreamSegment.parts kv.2)) =? 5 then
             v ← StreamSegment.v_id kv.2;
             mret ({[v]} ∪ _segment_ids)
           else mret _segment_ids)
        (Ok ids) l =
  if existsb (λ kv, Z.of_nat (length (StreamSegment.parts kv.2)) =? 5) l
  then Raise AttributeError else Ok ids.
Proof.
  induction l as [|kv l IH]; [done|]. cbn [foldl existsb].
  cbn [mbind result_bind].
  destruct (Z.of_nat (length (StreamSegment.parts kv.2)) =? 5); cbn [orb].
  - apply completed_fold_raise.
  - apply IH.
Qed.

(** [get_completed_segment_ids] returns the empty set when no segment
    holds five parts and raises [AttributeError] as soon as one does: it
    never returns the id of a completed segment. *)
Theorem completed_ids_never_returned (self : t) :
  ((∀ k seg, segments self !! k = Some seg → length (StreamSegment.parts seg) ≠ 5%nat) →
   get_completed_segment_ids self = Ok ∅) ∧
  ((∃ k seg, segments self !! k = Some seg ∧ length (StreamSegment.parts seg) = 5%nat) →
   get_completed_segment_ids self = Raise AttributeError) ∧
  (∀ ids, get_completed_segment_ids self = Ok ids → ids = ∅).
Proof.
  unfold get_completed_segment_ids. change (mret ∅) with (Ok (∅ : gset Z)).
  rewrite completed_fold.
  destruct (existsb _ (map_to_list (segments self))) eqn:Hex.
  - apply existsb_exists in Hex as ([k seg] & Hin & Hfull).
    apply list_elem_of_In, elem_of_map_to_list in Hin. apply Z.eqb_eq in Hfull.
    split; [|split; [done|done]].
    intros Hnone. exfalso. apply (Hnone k seg Hin). cbn in Hfull. lia.
  - split; [done|]. split; [|by intros ids [= <-]].
    intros (k & seg & Hk & Hlen). exfalso.
    assert (existsb (λ kv : Z * StreamSegment.t,
                       Z.of_nat (length (StreamSegment.parts kv.2)) =? 5)
                    (map_to_list (segments self)) = true); [|congruence].
    apply existsb_exists. exists (k, seg). split.
    + by apply list_elem_of_In, elem_of_map_to_list.
    + cbn. apply Z.eqb_eq. lia.
Qed.

(** *** Lookup and removal *)

(** A missing id makes [get_segment_by_id] and [pop_segment] raise
    [KeyError]; for a present id [pop_segment] hands out the segment that
    [get_segment_by_id] returns and removes that entry only, leaving
    [current_id] as it was. *)
Theorem pop_segment_spec (self : t) (i : Z) :
  (is_segment_present self i = false →
   get_segment_by_id self i = Raise KeyError ∧ pop_segment self i = Raise KeyError) ∧
  (is_segment_present self i = true →
   ∃ seg self',
     get_segment_by_id self i = Ok seg ∧
     pop_segment self i = Ok (seg, self') ∧
     is_segment_present self' i = false ∧
     current_id self' = current_id self ∧
     (∀ j, j ≠ i → segments self' !! j = segments self !! j)).
Proof.
  unfold get_segment_by_id, pop_segment. split.
  - intros Hp. destruct (segments self !! i) as [seg|] eqn:Hi; [|done].
    assert (is_segment_present self i = true); [|congruence].
    apply is_segment_present_lookup. eauto.
  - intros [seg Hi]%is_segment_present_lookup. rewrite Hi.
    eexists _, _. split; [reflexivity|]. split; [reflexivity|]. cbn.
    split; [|split; [done|]].
    + apply not_true_is_false. rewrite is_segment_present_lookup. cbn.
      rewrite lookup_delete_eq. by intros [? ?].
    + intros j Hj. by apply lookup_delete_ne.
Qed.

(** In non-alignment mode, once the segment at [current_id] has been
    popped, the next part is put into a new segment created at that same
    id: the id is used a second time. *)
Theorem plain_mode_reuses_popped_id (self : t) (seg : StreamSegment.t) (p : Part.t) :
  _align_segments self = false →
  segments self !! current_id self = Some seg →
  ∃ self1 self2,
    pop_segment self (current_id self) = Ok (seg, self1) ∧
    add_part self1 p = Ok self2 ∧
    current_id self2 = current_id self ∧
    segments self2 !! current_id self =
      Some (StreamSegment.mk [p] (current_id self) (Float.add 0 (Part.duration p))).
Proof.
  intros Ha Hc. unfold pop_segment. rewrite Hc.
  eexists _, _. split; [reflexivity|].
  unfold add_part. rewrite add_part_logged_eq. cbn zeta.
  unfold target_id. cbn [_align_segments current_id segments]. rewrite Ha.
  rewrite lookup_delete_eq. cbn. split; [reflexivity|]. split; [reflexivity|].
  apply lookup_insert_eq.
Qed.

Lemma plain_mode_reuses_popped_id_witness :
  ∃ self1 self2,
    pop_segment full_plain_list 1 = Ok (StreamSegment.mk window1 1 10, self1) ∧
    add_part self1 (live_part "f" 16) = Ok self2 ∧
    current_id self2 = 1.
Proof.
  destruct (plain_mode_reuses_popped_id full_plain_list
              (StreamSegment.mk window1 1 10) (live_part "f" 16))
    as (self1 & self2 & Hpop & Hadd & Hcur & _).
  - reflexivity.
  - vm_compute. reflexivity.
  - exists self1, self2. split; [exact Hpop|]. split; [exact Hadd|exact Hcur].
Defined.

End ListFacts.

(** ** Equality of segments *)

Lemma parts_eq_urls (l1 l2 : list Part.t) :
  StreamSegment.parts_eq l1 l2 = true ↔ map Part.url l1 = map Part.url l2.
Proof.
  revert l2. induction l1 as [|p1 l1 IH]; intros [|p2 l2]; cbn; try done.
  rewrite andb_true_iff, IH. unfold Part.__eq__. rewrite String.eqb_eq.
  split; [by intros [-> ->]|]. by intros [= -> ->].
Qed.

(** Two segments are equal exactly when their parts have the same URLs in
    the same order; ids, durations and the other fields of the parts play
    no role. *)
Theorem segment_eq_by_urls (s1 s2 : StreamSegment.t) :
  StreamSegment.__eq__ s1 s2 = true ↔
  map Part.url (StreamSegment.parts s1) = map Part.url (StreamSegment.parts s2).
Proof.
  unfold StreamSegment.__eq__. rewrite <- parts_eq_urls.
  by destruct (StreamSegment.parts_eq _ _).
Qed.

(** * Further properties of the session *)

Section FetchFacts.

Import Stream.

Variable env : Env.

Lemma fetch_frame_refl (st : state) : fetch_frame st st.
Proof. by split. Qed.

Lemma fetch_frame_trans (st1 st2 st3 : state) :
  fetch_frame st1 st2 → fetch_frame st2 st3 → fetch_frame st1 st3.
Proof.
  intros [] []. split; congruence.
Qed.

Lemma absorb_part_frame (p : Part.t) (st : state) :
  fetch_frame st (absorb_part env p st).2 ∧ fetches (absorb_part env p st).2.2 = fetches st.2.
Proof.
  destruct st as [s w]. unfold absorb_part. rewrite bind_run. cbn [get_self fst].
  destruct (PartSet.contains (_processed_parts s) p); cbn [negb].
  - split; [apply fetch_frame_refl|done].
  - unfold mbind, M_bind, modify_self, now, mret, M_ret. cbn. by split.
Qed.

Lemma absorb_loop_frame (ps : list Part.t) :
  ∀ st, fetch_frame st (for_each ps (absorb_part env) st).2 ∧
        fetches (for_each ps (absorb_part env) st).2.2 = fetches st.2.
Proof.
  induction ps as [|p ps IH]; intros st.
  - split; [apply fetch_frame_refl|done].
  - cbn [for_each]. rewrite bind_run.
    destruct (absorb_part_tracked env p st) as (new & Hr & _).
    destruct (absorb_part_frame p st) as [Hf Hn].
    destruct (absorb_part env p st) as [r st1]. cbn in Hr, Hf, Hn. subst r.
    destruct (IH st1) as [Hf' Hn']. split; [by eapply fetch_frame_trans|congruence].
Qed.

(** Absorbing parts that are all processed already changes nothing. *)
Lemma absorb_loop_known (ps : list Part.t) (st : state) :
  (∀ p, p ∈ ps → PartSet.contains (_processed_parts st.1) p = true) →
  for_each ps (absorb_part env) st = (Ok Continue, st).
Proof.
  induction ps as [|p ps IH]; intros Hall; [done|].
  cbn [for_each]. rewrite bind_run. unfold absorb_part at 1. rewrite bind_run.
  cbn [get_self fst]. rewrite Hall by by left. cbn [negb].
  unfold mret at 1, M_ret at 1. cbv beta iota. apply IH.
  intros q Hq. apply Hall. by right.
Qed.

(** A round of the retry loop that is answered by a connection timeout
    asks for the next round and has used up one playlist request. *)
Lemma fetch_attempt_timeout (i : Z) (s : t) (w : World) :
  i ≤ 4 →
  playlist env (fetches w) = Raise ConnectTimeout →
  fetch_attempt env i (s, w) = (Ok Continue, (s, after_fetches 1 w)).
Proof.
  intros Hi Hp. unfold fetch_attempt, try_except.
  assert ((4 <? i) = false) as -> by by apply Z.ltb_ge.
  rewrite bind_run. unfold get_stream_playlist. cbn [fst snd]. by rewrite Hp.
Qed.

Lemma fetch_attempt_known (i : Z) (s : t) (w : World) (ps : list Part.t) :
  i ≤ 4 →
  playlist env (fetches w) = Ok ps →
  (∀ p, p ∈ ps → PartSet.contains (_processed_parts s) p = true) →
  fetch_attempt env i (s, w) = (Ok Break, (s, after_fetches 1 w)).
Proof.
  intros Hi Hp Hall. unfold fetch_attempt, try_except.
  assert ((4 <? i) = false) as -> by by apply Z.ltb_ge.
  rewrite bind_run. unfold get_stream_playlist. cbn [fst snd]. rewrite Hp.
  rewrite bind_run. by rewrite absorb_loop_known.
Qed.

Lemma fetch_loop_timeouts (l rest : list Z) :
  ∀ (s : t) (w : World),
    Forall (λ i, i ≤ 4) l →
    (∀ k, (k < length l)%nat → playlist env (k + fetches w) = Raise ConnectTimeout) →
    for_each (l ++ rest) (fetch_attempt env) (s, w) =
    for_each rest (fetch_attempt env) (s, after_fetches (length l) w).
Proof.
  induction l as [|i l IH]; intros s w Hl Ht.
  - cbn. by destruct w.
  - apply Forall_cons in Hl as [Hi Hl]. cbn [app for_each]. rewrite bind_run.
    rewrite fetch_attempt_timeout; [|done|apply (Ht 0%nat); cbn; lia].
    rewrite IH; [|done|].
    + f_equal. f_equal. unfold after_fetches. cbn. f_equal. lia.
    + intros k Hk. cbn [after_fetches fetches]. rewrite Nat.add_assoc.
      replace (k + 1)%nat with (S k) by lia. apply Ht. cbn. lia.
Qed.

End FetchFacts.

(** Five connection timeouts in a row use up the retry budget of
    [_fetch_advertised_parts]: it raises [StreamFetchError] after exactly
    five playlist requests and leaves the object as it was. *)
Theorem fetch_gives_up_after_five_timeouts (env : Env) (st : Stream.state) :
  (∀ k, (k < 5)%nat → playlist env (k + fetches st.2) = Raise ConnectTimeout) →
  let r := Stream._fetch_advertised_parts env st in
  r.1 = Raise StreamFetchError ∧
  r.2.1 = st.1 ∧
  fetches r.2.2 = (5 + fetches st.2)%nat ∧
  files r.2.2 = files st.2 ∧
  trace r.2.2 = trace st.2.
Proof.
  intros Ht. destruct st as [s w]. cbn [fst snd] in Ht. cbn zeta.
  assert (Heq : Stream._fetch_advertised_parts env (s, w) =
                (Raise StreamFetchError,
                 (s, after_fetches 5 (mkWorld (S (ticks w)) (fetches w) (requests w)
                                              (moves w) (files w) (trace w))))).
  { unfold Stream._fetch_advertised_parts. rewrite bind_run. unfold Stream.now at 1.
    cbn [fst snd]. rewrite bind_run.
    change Stream.range6 with ([0; 1; 2; 3; 4] ++ [5]).
    rewrite fetch_loop_timeouts.
    - reflexivity.
    - repeat constructor; lia.
    - intros k Hk. cbn [fetches]. apply Ht. cbn in Hk. lia. }
  rewrite Heq. done.
Qed.

Lemma fetch_gives_up_after_five_timeouts_witness :
  (Stream._fetch_advertised_parts timeout_env (aligned_stream, world0)).1 =
    Raise StreamFetchError.
Proof.
  apply (fetch_gives_up_after_five_timeouts timeout_env (aligned_stream, world0)).
  intros k Hk. reflexivity.
Defined.



(** A playlist whose parts have all been processed before leaves the
    object exactly as it was: nothing is buffered again and the time of
    the last announcement stays. *)
Theorem refetch_changes_nothing (env : Env) (st : Stream.state) (ps : list Part.t) :
  playlist env (fetches st.2) = Ok ps →
  (∀ p, p ∈ ps → PartSet.contains (Stream._processed_parts st.1) p = true) →
  let r := Stream._fetch_advertised_parts env st in
  r.1 = Ok tt ∧ r.2.1 = st.1.
Proof.
  intros Hp Hall. destruct st as [s w]. cbn [fst snd] in Hp, Hall. cbn zeta.
  assert (Heq : ∃ w', Stream._fetch_advertised_parts env (s, w) = (Ok tt, (s, w'))).
  { unfold Stream._fetch_advertised_parts. rewrite bind_run. unfold Stream.now at 1.
    cbn [fst snd]. rewrite bind_run. unfold Stream.range6.
    set (w0 := mkWorld (S (ticks w)) _ _ _ _ _).
    assert (Hatt : Stream.fetch_attempt env 0 (s, w0) =
                   (Ok Stream.Break, (s, after_fetches 1 w0)))
      by (apply (fetch_attempt_known env 0 s w0 ps); [lia|done|done]).
    rewrite for_each_leaves by (rewrite Hatt; done).
    rewrite Hatt. cbn. eauto. }
  destruct Heq as [w' ->]. done.
Qed.

Lemma refetch_changes_nothing_witness :
  (Stream._fetch_advertised_parts repeat_env
     (Stream._fetch_advertised_parts repeat_env (aligned_stream, world0)).2).2.1 =
  (Stream._fetch_advertised_parts repeat_env (aligned_stream, world0)).2.1.
Proof.
  apply (refetch_changes_nothing repeat_env
           (Stream._fetch_advertised_parts repeat_env (aligned_stream, world0)).2
           [live_part "a" 6; live_part "b" 8]).
  - reflexivity.
  - intros p Hp. apply list_elem_of_In in Hp.
    destruct Hp as [<-|[<-|[]]]; vm_compute; reflexivity.
Defined.

Section PassFacts.

Import Stream.

Variable env : Env.

Lemma queue_add_part_eq (s : t) (w : World) (q : StreamSegmentList.t) (p : Part.t) :
  _download_queue s = Some q →
  ∃ q', StreamSegmentList.add_part q p = Ok q' ∧
        queue_add_part p (s, w) = (Ok tt, (set_queue q' s, w)).
Proof.
  intros Hq. destruct (add_part_total q p) as [q' Hq'].
  exists q'. split; [done|]. unfold queue_add_part. rewrite bind_run. cbn.
  rewrite Hq. rewrite bind_run. unfold lift. by rewrite Hq'.
Qed.

(** The loop of [_build_download_queue] touches the queue only: the
    world, the buffer and the processed set stay, and when it ends
    normally the queue has received the live parts of the buffer, in
    order. *)
Lemma build_loop_result (buffer : list Part.t) :
  ∀ u s w q,
    _download_queue s = Some q →
    let r := build_loop u buffer (s, w) in
    r.2.2 = w ∧
    _incoming_part_buffer r.2.1 = _incoming_part_buffer s ∧
    _processed_parts r.2.1 = _processed_parts s ∧
    (r.1 = Ok tt →
     ∃ q', add_parts q (filter (λ p, is_live p = true) buffer) = Ok q' ∧
           _download_queue r.2.1 = Some q').
Proof.
  induction buffer as [|p buffer IH]; intros u s w q Hq; cbn zeta.
  - cbn. split; [done|]. split; [done|]. split; [done|]. intros _. by exists q.
  - cbn [build_loop]. unfold is_live at 1.
    destruct (String.eqb (Part.title p) "live") eqn:Hlive; cbn [negb].
    2:{ rewrite filter_cons_False by (unfold is_live; congruence). by apply IH. }
    rewrite filter_cons_True by done.
    rewrite bind_run. cbn [get_self fst].
    destruct (1 <? PartSet.len _).
    + cbn. split; [done|]. split; [done|]. split; [done|]. done.
    + rewrite bind_run.
      destruct (queue_add_part_eq s w q p Hq) as (q' & Hadd & ->).
      destruct (IH (if _align_segments s && negb (Qeq_bool (Part.duration p) 2)
                    then PartSet.add u p else u) (set_queue q' s) w q' eq_refl)
        as (Hw & Hb & Hp & Hok).
      split; [exact Hw|]. split; [exact Hb|]. split; [exact Hp|].
      intros Hr. destruct (Hok Hr) as (q'' & Hrun & Hq'').
      exists q''. split; [|done]. rewrite add_parts_cons, Hadd. exact Hrun.
Qed.

(** Without a queue the loop stops at the first live part. *)
Lemma build_loop_no_queue (buffer : list Part.t) (s : t) (w : World) :
  _download_queue s = None →
  build_loop PartSet.empty buffer (s, w) =
  (if existsb is_live buffer then Raise AttributeError else Ok tt, (s, w)).
Proof.
  intros Hq. induction buffer as [|p buffer IH]; [done|].
  cbn [build_loop existsb]. unfold is_live at 1.
  destruct (String.eqb (Part.title p) "live"); cbn [negb orb]; [|exact IH].
  rewrite bind_run. cbn [get_self fst].
  assert (Hlen : (1 <? PartSet.len
                    (if _align_segments s && negb (Qeq_bool (Part.duration p) 2)
                     then PartSet.add PartSet.empty p else PartSet.empty)) = false).
  { by destruct (_ && _). }
  rewrite Hlen. rewrite bind_run. unfold queue_add_part. rewrite bind_run.
  cbn [get_self fst]. by rewrite Hq.
Qed.

Lemma build_loop_kinds (buffer : list Part.t) :
  ∀ u s w,
    let r := build_loop u buffer (s, w) in
    r.2.2 = w ∧
    (r.1 = Ok tt ∨ r.1 = Raise UnsupportedStreamPartDuration ∨ r.1 = Raise AttributeError).
Proof.
  induction buffer as [|p buffer IH]; intros u s w; cbn zeta.
  - split; [done|by left].
  - cbn [build_loop]. destruct (negb _); [apply IH|].
    rewrite bind_run. cbn [get_self fst].
    destruct (1 <? PartSet.len _); [split; [done|right; by left]|].
    rewrite bind_run.
    destruct (_download_queue s) as [q|] eqn:Hq.
    + destruct (queue_add_part_eq s w q p Hq) as (q' & _ & ->). apply IH.
    + unfold queue_add_part. rewrite bind_run. cbn [get_self fst]. rewrite Hq.
      split; [done|right; by right].
Qed.

(** [_download_queued_segments] changes nothing: it raises
    [AttributeError], or finds no completed segment and returns. *)
Lemma download_queued_inert (st : state) :
  let r := _download_queued_segments env st in
  r.2 = st ∧ (r.1 = Ok tt ∨ r.1 = Raise AttributeError).
Proof.
  cbn zeta. unfold _download_queued_segments. rewrite bind_run. cbn [get_self fst].
  destruct (_download_queue st.1) as [q|]; [|split; [done|by right]].
  rewrite bind_run. unfold lift, StreamSegmentList.get_completed_segment_ids.
  change (mret ∅) with (Ok (∅ : gset Z)). rewrite completed_fold.
  destruct (existsb _ _); [split; [done|by right]|].
  rewrite elements_empty. cbn. split; [done|by left].
Qed.

Lemma fetch_loop_frame (attempts : list Z) :
  ∀ st, fetch_frame st (for_each attempts (fetch_attempt env) st).2.
Proof.
  induction attempts as [|i attempts IH]; intros st.
  - apply fetch_frame_refl.
  - cbn [for_each]. rewrite bind_run. unfold fetch_attempt at 1, try_except.
    destruct (4 <? i); [apply fetch_frame_refl|].
    rewrite bind_run. unfold get_stream_playlist at 1. cbn [fst snd].
    set (st1 := (st.1, _)).
    assert (H1 : fetch_frame st st1) by by split.
    destruct (playlist env (fetches st.2)) as [ps|e].
    + rewrite bind_run.
      destruct (absorb_loop_tracked env ps st1) as (new & Hr & _).
      destruct (absorb_loop_frame env ps st1) as [Hf _].
      destruct (for_each ps (absorb_part env) st1) as [r st2].
      cbn in Hr, Hf. subst r. cbn. by eapply fetch_frame_trans.
    + destruct e; try exact H1. cbn.
      eapply fetch_frame_trans; [exact H1|apply IH].
Qed.

Lemma fetch_keeps_frame (st : state) : fetch_frame st (_fetch_advertised_parts env st).2.
Proof.
  unfold _fetch_advertised_parts. rewrite bind_run. unfold now at 1.
  cbn [fst snd]. rewrite bind_run.
  set (st0 := (st.1, _)).
  assert (H0 : fetch_frame st st0) by by split.
  pose proof (fetch_loop_frame range6 st0) as Hl.
  destruct (for_each range6 (fetch_attempt env) st0) as [[c|e] st1];
    by eapply fetch_frame_trans.
Qed.

(** How the three steps of a pass end: normally, with an exception other
    than not-found, or with the not-found error of the fetch.  In all
    cases no request was made and no file was written or moved. *)
Lemma pass_body_cases (st : state) :
  let b := (_fetch_advertised_parts env;;
            _build_download_queue;;
            _download_queued_segments env) st in
  (files b.2.2 = files st.2 ∧ trace b.2.2 = trace st.2 ∧
   requests b.2.2 = requests st.2 ∧ moves b.2.2 = moves st.2) ∧
  (b.1 = Ok tt ∨
   (∃ e, b.1 = Raise e ∧ e ≠ TwitchAPIErrorNotFound) ∨
   (b.1 = Raise TwitchAPIErrorNotFound ∧
    (_fetch_advertised_parts env st).1 = Raise TwitchAPIErrorNotFound ∧
    b.2 = (_fetch_advertised_parts env st).2)).
Proof.
  cbn zeta. rewrite bind_run.
  destruct (fetch_keeps_frame st) as [_ _ _ _ _ Hrq Hmv Hfi Htr].
  destruct (_fetch_advertised_parts env st) as [[[]|e] [s1 w1]]; cbn [fst snd] in *.
  - rewrite bind_run. unfold _build_download_queue. rewrite bind_run.
    cbn [get_self fst]. rewrite bind_run.
    destruct (build_loop_kinds (_incoming_part_buffer s1) PartSet.empty s1 w1) as [Hw Hk].
    destruct (build_loop PartSet.empty (_incoming_part_buffer s1) (s1, w1)) as [rb [s2 w2]].
    cbn [fst snd] in Hw, Hk. subst w2.
    destruct Hk as [->|[->| ->]].
    + cbn [modify_self fst snd].
      destruct (download_queued_inert (set_buffer [] s2, w1)) as [Hst Hr].
      destruct (_download_queued_segments env (set_buffer [] s2, w1)) as [rd std].
      cbn [fst snd] in Hst, Hr. subst std. cbn [fst snd]. split; [done|].
      destruct Hr as [->| ->]; [by left|]. right. left. by eexists.
    + cbn [fst snd]. split; [done|]. right. left. by eexists.
    + cbn [fst snd]. split; [done|]. right. left. by eexists.
  - split; [done|].
    destruct e; first [ by right; right | right; left; by eexists ].
Qed.

End PassFacts.

(** On success [_build_download_queue] has handed the live parts of the
    buffer to the queue, in order, and emptied the buffer; parts with any
    other title never reach the queue.  When it raises, the buffer is left
    as it was.  The world and the processed set are not touched. *)
Theorem build_queue_takes_live_parts (s : Stream.t) (w : World) (q : StreamSegmentList.t) :
  Stream._download_queue s = Some q →
  let r := Stream._build_download_queue (s, w) in
  r.2.2 = w ∧
  Stream._processed_parts r.2.1 = Stream._processed_parts s ∧
  (r.1 = Ok tt →
   Stream._incoming_part_buffer r.2.1 = [] ∧
   ∃ q', add_parts q (filter (λ p, is_live p = true) (Stream._incoming_part_buffer s)) = Ok q' ∧
         Stream._download_queue r.2.1 = Some q') ∧
  (r.1 ≠ Ok tt →
   Stream._incoming_part_buffer r.2.1 = Stream._incoming_part_buffer s).
Proof.
  intros Hq. cbn zeta. unfold Stream._build_download_queue.
  rewrite bind_run. cbn [Stream.get_self fst]. rewrite bind_run.
  destruct (build_loop_result (Stream._incoming_part_buffer s) PartSet.empty s w q Hq)
    as (Hw & Hb & Hp & Hok).
  destruct (Stream.build_loop PartSet.empty (Stream._incoming_part_buffer s) (s, w))
    as [[[]|e] [s2 w2]]; cbn [fst snd] in *.
  - split; [done|]. split; [done|]. split; [|done].
    intros _. split; [done|]. destruct (Hok eq_refl) as (q' & Hrun & Hq'). by exists q'.
  - split; [done|]. split; [done|]. split; [done|]. done.
Qed.

Lemma build_queue_takes_live_parts_witness :
  Stream._incoming_part_buffer
    (Stream._build_download_queue (mixed_buffer_stream, world0)).2.1 = [] ∧
  ∃ q', add_parts (StreamSegmentList.__init__ 0 true 0) [live_part "a" 6] = Ok q' ∧
        Stream._download_queue
          (Stream._build_download_queue (mixed_buffer_stream, world0)).2.1 = Some q'.
Proof.
  apply (build_queue_takes_live_parts mixed_buffer_stream world0
           (StreamSegmentList.__init__ 0 true 0) eq_refl).
  vm_compute. reflexivity.
Defined.

(** [_download_queued_segments] downloads nothing.  With a segment of
    five parts in the queue it raises [AttributeError], without one it
    returns; in both cases it leaves the queue, the files and the trace
    as they were. *)
Theorem queued_segments_never_downloaded (env : Env) (st : Stream.state)
    (q : StreamSegmentList.t) :
  Stream._download_queue st.1 = Some q →
  let r := Stream._download_queued_segments env st in
  r.2 = st ∧
  ((∃ k seg, StreamSegmentList.segments q !! k = Some seg ∧
             length (StreamSegment.parts seg) = 5%nat) →
   r.1 = Raise AttributeError) ∧
  ((∀ k seg, StreamSegmentList.segments q !! k = Some seg →
             length (StreamSegment.parts seg) ≠ 5%nat) →
   r.1 = Ok tt).
Proof.
  intros Hq. cbn zeta. unfold Stream._download_queued_segments. rewrite bind_run.
  cbn [Stream.get_self fst]. rewrite Hq. rewrite bind_run.
  unfold Stream.lift, StreamSegmentList.get_completed_segment_ids.
  change (mret ∅) with (Ok (∅ : gset Z)). rewrite completed_fold.
  destruct (existsb _ (map_to_list (StreamSegmentList.segments q))) eqn:Hex.
  - split; [done|]. split; [done|]. intros Hnone. exfalso.
    apply existsb_exists in Hex as ([k seg] & Hin & Hfull).
    apply list_elem_of_In, elem_of_map_to_list in Hin. apply Z.eqb_eq in Hfull.
    apply (Hnone k seg Hin). cbn in Hfull. lia.
  - rewrite elements_empty. cbn. split; [done|]. split; [|done].
    intros (k & seg & Hk & Hlen). exfalso.
    assert (existsb (λ kv : Z * StreamSegment.t,
                       Z.of_nat (length (StreamSegment.parts kv.2)) =? 5)
                    (map_to_list (StreamSegmentList.segments q)) = true); [|congruence].
    apply existsb_exists. exists (k, seg). split.
    + by apply list_elem_of_In, elem_of_map_to_list.
    + cbn. apply Z.eqb_eq. lia.
Qed.

Lemma queued_segments_never_downloaded_witness :
  Stream._download_queued_segments ended_env (full_queue_stream, world0) =
    (Raise AttributeError, (full_queue_stream, world0)).
Proof.
  destruct (queued_segments_never_downloaded ended_env (full_queue_stream, world0)
              full_list eq_refl) as (Hst & Hfull & _).
  rewrite <- Hst at 2. rewrite <- Hfull; [by destruct (Stream._download_queued_segments _ _)|].
  exists 1, (StreamSegment.mk window1 1 10).
  split; [vm_compute; reflexivity|reflexivity].
Defined.

(** A pass whose fetch does not end in the not-found error makes no part
    request and writes, moves or removes no file, whatever the queue
    holds: segments are written on the not-found path only. *)
Theorem pass_writes_nothing_unless_not_found (env : Env) (st : Stream.state) :
  (Stream._fetch_advertised_parts env st).1 ≠ Raise TwitchAPIErrorNotFound →
  let r := Stream.single_download_pass env st in
  files r.2.2 = files st.2 ∧
  trace r.2.2 = trace st.2 ∧
  requests r.2.2 = requests st.2 ∧
  moves r.2.2 = moves st.2 ∧
  (r.1 = Ok tt ∨ ∃ e, r.1 = Raise (StreamDownloadError e)).
Proof.
  intros Hnf. cbn zeta. unfold Stream.single_download_pass, Stream.try_except.
  destruct (pass_body_cases env st) as [Hw Hcases].
  destruct ((Stream._fetch_advertised_parts env;;
             Stream._build_download_queue;;
             Stream._download_queued_segments env) st) as [rb stb].
  cbn [fst snd] in Hw, Hcases.
  destruct Hcases as [->|[(e & -> & He)|(-> & Hf & _)]].
  - destruct Hw as (? & ? & ? & ?). repeat split; try done. by left.
  - destruct Hw as (? & ? & ? & ?).
    destruct e; try done; cbn; repeat split; try done; right; by eexists.
  - done.
Qed.

Lemma pass_writes_nothing_unless_not_found_witness :
  trace (Stream.single_download_pass repeat_env (full_queue_stream, world0)).2.2 = [] ∧
  (Stream.single_download_pass repeat_env (full_queue_stream, world0)).1 =
    Raise (StreamDownloadError AttributeError).
Proof.
  destruct (pass_writes_nothing_unless_not_found repeat_env (full_queue_stream, world0))
    as (_ & Htr & _).
  - vm_compute. discriminate.
  - split; [exact Htr|]. vm_compute. reflexivity.
Defined.

Lemma pass_without_queue (env : Env) (st : Stream.state) :
  Stream._download_queue st.1 = None →
  (Stream._fetch_advertised_parts env st).1 = Ok tt →
  (Stream.single_download_pass env st).1 = Raise (StreamDownloadError AttributeError).
Proof.
  intros Hq Hf. unfold Stream.single_download_pass, Stream.try_except. rewrite bind_run.
  destruct (fetch_keeps_frame env st) as [_ _ Hq1 _ _ _ _ _ _].
  destruct (Stream._fetch_advertised_parts env st) as [rf [s1 w1]].
  cbn [fst snd] in Hf, Hq1. subst rf. rewrite Hq in Hq1.
  rewrite bind_run. unfold Stream._build_download_queue. rewrite bind_run.
  cbn [Stream.get_self fst]. rewrite bind_run.
  rewrite build_loop_no_queue by done.
  destruct (existsb is_live (Stream._incoming_part_buffer s1)); [done|].
  cbn [Stream.modify_self fst snd].
  unfold Stream._download_queued_segments. rewrite bind_run.
  cbn [Stream.get_self fst Stream.set_buffer Stream._download_queue]. by rewrite Hq1.
Qed.

(** Without a download queue, as during the buffering that [_do_setup]
    runs before it builds the queue, a pass whose fetch succeeds always
    ends in [StreamDownloadError] caused by an [AttributeError]. *)
Theorem pass_without_queue_fails (env : Env) (st : Stream.state) :
  Stream._download_queue st.1 = None →
  (Stream._fetch_advertised_parts env st).1 = Ok tt →
  (Stream.single_download_pass env st).1 = Raise (StreamDownloadError AttributeError).
Proof. exact (pass_without_queue env st). Qed.

Lemma pass_without_queue_fails_witness :
  (Stream.single_download_pass repeat_env (unset_stream, world0)).1 =
    Raise (StreamDownloadError AttributeError).
Proof.
  apply (pass_without_queue_fails repeat_env (unset_stream, world0)).
  - reflexivity.
  - vm_compute. reflexivity.
Defined.


Section DownloadFacts.

Import Stream.

Variable env : Env.

Lemma download_part_refused (tmp : string) (p : Part.t) (s : t) (w : World) (c : Z) :
  net env (requests w) = NetResponse c →
  c ≠ 200 →
  download_part env tmp p (s, w) =
  (Ok Return,
   (s, mkWorld (ticks w) (fetches w) (S (requests w)) (moves w) (files w)
               (trace w ++ [EvRequest (Part.url p)]))).
Proof.
  intros Hnet Hc. unfold download_part, try_except. rewrite bind_run.
  unfold requests_get. cbn [fst snd]. rewrite Hnet. cbn [status_code].
  assert ((c =? 200) = false) as -> by by apply Z.eqb_neq. done.
Qed.

Lemma parts_loop_refused (tmp : string) (c : Z) (n : nat) :
  ∀ (ps : list Part.t) (s : t) (w : World) (old : list Byte.byte),
    files w !! tmp = Some old →
    (n < length ps)%nat →
    (∀ k, (k < n)%nat → net env (requests w + k) = NetResponse 200) →
    net env (requests w + n) = NetResponse c →
    c ≠ 200 →
    let r := for_each ps (download_part env tmp) (s, w) in
    r.1 = Ok Return ∧
    r.2.1 = s ∧
    moves r.2.2 = moves w ∧
    relocations (trace r.2.2) = relocations (trace w) ∧
    files r.2.2 =
      <[tmp := old ++ concat (map (λ p, payload env (Part.url p)) (take n ps))]> (files w).
Proof.
  induction n as [|n IH]; intros ps s w old Hold Hlen Hok Hnet Hc; cbn zeta;
    destruct ps as [|p ps]; cbn [length] in Hlen; try lia.
  - cbn [for_each]. rewrite bind_run.
    rewrite Nat.add_0_r in Hnet.
    rewrite (download_part_refused tmp p s w c Hnet Hc).
    unfold mret, M_ret. cbn [fst snd moves trace files take map concat].
    rewrite relocations_snoc. cbn [is_move]. rewrite Nat.add_0_r, app_nil_r.
    by rewrite insert_id.
  - cbn [for_each]. rewrite bind_run.
    rewrite (download_part_delivered env tmp p s w old Hold).
    2:{ specialize (Hok 0%nat). rewrite Nat.add_0_r in Hok. apply Hok. lia. }
    cbv beta iota.
    set (w1 := mkWorld _ _ _ _ _ _).
    destruct (IH ps s w1 (old ++ payload env (Part.url p))) as (Hr & Hs & Hm & Hre & Hf).
    + apply lookup_insert_eq.
    + lia.
    + intros k Hk. cbn [requests w1]. specialize (Hok (S k)).
      rewrite Nat.add_succ_r in Hok. apply Hok. lia.
    + cbn [requests w1]. by rewrite Nat.add_succ_r in Hnet.
    + done.
    + split; [exact Hr|]. split; [exact Hs|]. split; [exact Hm|]. split.
      * rewrite Hre. cbn [trace w1]. rewrite relocations_snoc. cbn. lia.
      * rewrite Hf. cbn [files w1 take map concat].
        by rewrite insert_insert_eq, app_assoc.
Qed.

Lemma write_loop_trace (path : string) (cs : list (list Byte.byte)) :
  ∀ st,
    let r := for_each cs (λ chunk, write path chunk;; mret Continue) st in
    trace r.2.2 = trace st.2 ∧ requests r.2.2 = requests st.2.
Proof.
  induction cs as [|c cs IH]; intros st; cbn zeta; [done|].
  cbn [for_each]. rewrite !bind_run.
  destruct (write_quiet path c st) as [Hr _].
  assert (Ht : trace (write path c st).2.2 = trace st.2 ∧
               requests (write path c st).2.2 = requests st.2) by done.
  destruct (write path c st) as [r st1]. cbn in Hr, Ht. subst r. cbn.
  destruct (IH st1) as [Ht' Hq']. destruct Ht as [Ht1 Ht2].
  split; [by rewrite Ht'|by rewrite Hq'].
Qed.

Lemma download_part_trace (tmp : string) (p : Part.t) (st : state) :
  let r := download_part env tmp p st in
  trace r.2.2 = trace st.2 ++ [EvRequest (Part.url p)] ∧
  requests r.2.2 = S (requests st.2).
Proof.
  cbn zeta. unfold download_part, try_except. rewrite bind_run.
  assert (Hg : trace (requests_get env (Part.url p) st).2.2 =
                 trace st.2 ++ [EvRequest (Part.url p)] ∧
               requests (requests_get env (Part.url p) st).2.2 = S (requests st.2)).
  { unfold requests_get. by destruct (net env (requests st.2)). }
  destruct (requests_get_quiet env (Part.url p) st) as [Hr _].
  destruct (requests_get env (Part.url p) st) as [r st1]. cbn in Hr, Hg.
  destruct Hr as [[resp ->]| ->]; [|done].
  destruct (negb (status_code resp =? 200)); [done|].
  rewrite bind_run.
  destruct (write_loop_quiet tmp (chunks resp) st1) as [Hr _].
  destruct (write_loop_trace tmp (chunks resp) st1) as [Ht Hq].
  destruct (for_each _ _ st1) as [r st2]. cbn in Hr, Ht, Hq. subst r.
  destruct Hg as [Hg1 Hg2].
  destruct (broken resp); cbn; split; congruence.
Qed.

(** The loop over the parts requests a prefix of the parts, each once and
    in order. *)
Lemma parts_loop_trace (tmp : string) (ps : list Part.t) :
  ∀ st,
    let r := for_each ps (download_part env tmp) st in
    ∃ k, (k ≤ length ps)%nat ∧
         trace r.2.2 = trace st.2 ++ map (λ p, EvRequest (Part.url p)) (take k ps) ∧
         requests r.2.2 = (requests st.2 + k)%nat.
Proof.
  induction ps as [|p ps IH]; intros st; cbn zeta.
  - exists 0%nat. cbn. by rewrite app_nil_r, Nat.add_0_r.
  - cbn [for_each]. rewrite bind_run.
    destruct (download_part_quiet env tmp p st) as [[c Hc] _].
    destruct (download_part_trace tmp p st) as [Ht Hq].
    destruct (download_part env tmp p st) as [r st1]. cbn in Hc, Ht, Hq. subst r.
    destruct c.
    + destruct (IH st1) as (k & Hk & Ht' & Hq').
      exists (S k). cbn [length take map]. split; [lia|]. split.
      * rewrite Ht', Ht, <- app_assoc. done.
      * lia.
    + exists 1%nat. cbn [length take map]. split; [lia|]. split.
      * cbn. by rewrite take_0.
      * cbn. lia.
    + exists 1%nat. cbn [length take map]. split; [lia|]. split.
      * cbn. by rewrite take_0.
      * cbn. lia.
Qed.

Lemma download_segment_trace (seg : StreamSegment.t) (st : state) :
  let r := _download_segment env seg st in
  ∃ k mv,
    (k ≤ length (StreamSegment.parts seg))%nat ∧
    trace r.2.2 =
      trace st.2 ++ map (λ p, EvRequest (Part.url p)) (take k (StreamSegment.parts seg)) ++ mv ∧
    (mv = [] ∨ mv = [EvMove (temp_path env st.1 seg) (output_path st.1 seg)]) ∧
    requests r.2.2 = (requests st.2 + k)%nat.
Proof.
  destruct st as [s w]. cbn zeta.
  unfold _download_segment. rewrite bind_run. cbn [get_self fst].
  fold (temp_path env s seg). set (tmp := temp_path env s seg).
  rewrite bind_run. unfold range6.
  destruct (download_attempt_spec env seg tmp 0 (s, w)) as (_ & _ & Hres & _); [lia|].
  rewrite for_each_leaves by (destruct Hres as [->|[->| ->]]; done).
  assert (Hatt : ∃ k mv,
            (k ≤ length (StreamSegment.parts seg))%nat ∧
            trace (download_attempt env seg tmp 0 (s, w)).2.2 =
              trace w ++ map (λ p, EvRequest (Part.url p)) (take k (StreamSegment.parts seg))
                ++ mv ∧
            (mv = [] ∨ mv = [EvMove tmp (output_path s seg)]) ∧
            requests (download_attempt env seg tmp 0 (s, w)).2.2 = (requests w + k)%nat).
  { clear Hres. unfold download_attempt. change (4 <? 0) with false. cbv beta iota.
    rewrite bind_run. unfold open_wb, get_world, set_files, modify_world.
    rewrite bind_run. cbn [fst snd]. rewrite bind_run.
    set (st1 := (s, mkWorld _ _ _ _ (<[tmp := []]> (files w)) _)).
    destruct (parts_loop_trace tmp (StreamSegment.parts seg) st1) as (k & Hk & Ht & Hq).
    destruct (parts_loop_quiet env tmp (StreamSegment.parts seg) st1) as [[c Hc] [Hs _ _ _]].
    destruct (for_each (StreamSegment.parts seg) (download_part env tmp) st1) as [rp [s2 w2]].
    cbn [fst snd] in Hc, Ht, Hq, Hs. subst rp s2.
    exists k.
    destruct c; cbv beta iota.
    1,2: exists [EvMove tmp (output_path s seg)]; (split; [done|]);
      unfold try_except; rewrite bind_run; cbn [get_self fst];
      rewrite bind_run; unfold safe_move; cbn [fst snd];
      destruct (move_ok env (moves w2)), (files w2 !! tmp);
      cbn [fst snd trace requests mbind M_bind mret M_ret raise];
      rewrite Ht, Hq; cbn [trace requests st1 snd]; rewrite <- app_assoc;
      (split; [reflexivity|]); (split; [by right|done]).
    exists []. split; [done|]. cbn [fst snd mret M_ret]. rewrite Ht, Hq.
    cbn [trace requests st1 snd]. rewrite app_nil_r.
    split; [reflexivity|]. split; [by left|done]. }
  destruct Hatt as (k & mv & Hk & Ht & Hmv & Hq). exists k, mv.
  destruct (download_attempt env seg tmp 0 (s, w)) as [[[]|e] [s1 w1]];
    cbn [fst snd] in *; done.
Qed.

(** [_download_segment] asks for a prefix of the segment's parts, each
    part once and in the order of the segment, and then relocates the
    buffer file at most once.  It does nothing else that the trace
    records: no part is asked for twice, and the error of the exhausted
    retry budget is never logged. *)
Theorem download_requests_each_part_once (seg : StreamSegment.t) (st : state) :
  let r := _download_segment env seg st in
  ∃ k mv,
    (k ≤ length (StreamSegment.parts seg))%nat ∧
    trace r.2.2 =
      trace st.2 ++ map (λ p, EvRequest (Part.url p)) (take k (StreamSegment.parts seg)) ++ mv ∧
    (mv = [] ∨ mv = [EvMove (temp_path env st.1 seg) (output_path st.1 seg)]) ∧
    requests r.2.2 = (requests st.2 + k)%nat.
Proof. exact (download_segment_trace seg st). Qed.

(** If the request for some part is answered with a status other than
    200, after all earlier requests were answered 200, the call returns
    without an error and without relocating anything: the output directory
    stays as it is and the buffer file is left behind with the bytes of
    the earlier parts. *)
Theorem download_aborts_on_status (seg : StreamSegment.t) (st : state) (n : nat) (c : Z) :
  (n < length (StreamSegment.parts seg))%nat →
  (∀ k, (k < n)%nat → net env (requests st.2 + k) = NetResponse 200) →
  net env (requests st.2 + n) = NetResponse c →
  c ≠ 200 →
  let r := _download_segment env seg st in
  r.1 = Ok tt ∧
  r.2.1 = st.1 ∧
  moves r.2.2 = moves st.2 ∧
  relocations (trace r.2.2) = relocations (trace st.2) ∧
  files r.2.2 =
    <[temp_path env st.1 seg :=
        concat (map (λ p, payload env (Part.url p)) (take n (StreamSegment.parts seg)))]>
      (files st.2).
Proof.
  intros Hn Hok Hnet Hc. destruct st as [s w]. cbn [fst snd] in Hok, Hnet. cbn zeta.
  unfold _download_segment. rewrite bind_run. cbn [get_self fst].
  fold (temp_path env s seg). set (tmp := temp_path env s seg).
  rewrite bind_run. unfold range6.
  assert (Hatt : ∃ w',
            download_attempt env seg tmp 0 (s, w) = (Ok Return, (s, w')) ∧
            moves w' = moves w ∧
            relocations (trace w') = relocations (trace w) ∧
            files w' =
              <[tmp := concat (map (λ p, payload env (Part.url p))
                                   (take n (StreamSegment.parts seg)))]> (files w)).
  { unfold download_attempt. change (4 <? 0) with false. cbv beta iota.
    rewrite bind_run. unfold open_wb, get_world, set_files, modify_world.
    rewrite bind_run. cbn [fst snd]. rewrite bind_run.
    set (w1 := mkWorld _ _ _ _ (<[tmp := []]> (files w)) _).
    destruct (parts_loop_refused tmp c n (StreamSegment.parts seg) s w1 [])
      as (Hr & Hs & Hm & Hre & Hf); try done.
    { apply lookup_insert_eq. }
    destruct (for_each (StreamSegment.parts seg) (download_part env tmp) (s, w1))
      as [r [s2 w2]].
    cbn [fst snd] in Hr, Hs, Hm, Hre, Hf. subst r s2. cbn.
    eexists. split; [reflexivity|]. split; [done|]. split; [done|].
    rewrite Hf. cbn [files w1]. by rewrite insert_insert_eq. }
  destruct Hatt as (w' & Hatt & Hm & Hre & Hf).
  rewrite for_each_leaves by (rewrite Hatt; done).
  rewrite Hatt. cbn. done.
Qed.

End DownloadFacts.

Lemma download_aborts_on_status_witness :
  (Stream._download_segment refusing_env two_part_segment (aligned_stream, world0)).1 = Ok tt ∧
  relocations
    (trace (Stream._download_segment refusing_env two_part_segment
              (aligned_stream, world0)).2.2) = 0%nat.
Proof.
  destruct (download_aborts_on_status refusing_env two_part_segment (aligned_stream, world0)
              1 404) as (Hr & _ & _ & Hre & _).
  - cbn. lia.
  - intros k Hk. assert (k = 0%nat) as -> by lia. reflexivity.
  - reflexivity.
  - lia.
  - split; [exact Hr|exact Hre].
Defined.

Lemma download_segment_complete_witness :
  files (Stream._download_segment ended_env two_part_segment (aligned_stream, world0)).2.2
    !! "out/00001.ts" =
  Some (served "a" ++ served "b").
Proof.
  destruct (download_segment_complete ended_env two_part_segment (aligned_stream, world0))
    as [_ Hf].
  - intros k Hk. reflexivity.
  - reflexivity.
  - rewrite <- (app_nil_r (served "b")). exact Hf.
Defined.

(** * The request wrapper *)

Section ApiFacts.

Context {value : Type}.

Variable send : Api.request value → option (Api.response).

(** [get_request] sends one request, a GET to the url, with the
    parameters when they are given and with the headers only when no
    parameters are given, and with no body and no session.  It returns the response exactly when its
    status is 200, and raises what its docstring announces: the request
    error when the library raises, the bad-request, forbidden and
    not-found errors on 400, 403 and 404, and the general error on every
    other status. *)
Theorem get_request_by_status (self : Api.t) (url : string) (p h : option value) :
  let res := Api.get_request value send self url p h in
  ∃ req,
    res.1 = [req] ∧
    req = Api.mkRequest value Api.GET url p (if p is None then h else None) None None None ∧
    Api.req_verb value req = Api.GET ∧
    Api.req_url value req = url ∧
    Api.req_params value req = p ∧
    Api.req_headers value req = (if p is None then h else None) ∧
    (send req = None →
     res.2 = Api.Raised (Api.RequestError (Api.pushbullet_key self) url)) ∧
    (∀ r, send req = Some r →
       (res.2 = Api.Returned r ↔ Api.status_code r = 200) ∧
       (Api.status_code r = 400 →
        res.2 = Api.Raised (Api.TwitchAPIErrorBadRequest (Api.pushbullet_key self) url 400
                              (Api.text r))) ∧
       (Api.status_code r = 403 →
        res.2 = Api.Raised (Api.TwitchAPIErrorForbidden (Api.pushbullet_key self) url 403
                              (Api.text r))) ∧
       (Api.status_code r = 404 →
        res.2 = Api.Raised (Api.TwitchAPIErrorNotFound (Api.pushbullet_key self) url 404
                              (Api.text r))) ∧
       (Api.status_code r ∉ [200; 400; 403; 404] →
        res.2 = Api.Raised (Api.TwitchAPIError (Api.pushbullet_key self) url
                              (Api.status_code r) (Api.text r)))).
Proof.
  cbn zeta. unfold Api.get_request.
  set (req := match p with
              | Some _ => Api.mkRequest value Api.GET url p None None None None
              | None => Api.mkRequest value Api.GET url None h None None None
              end).
  exists req.
  assert (Hreq : req = Api.mkRequest value Api.GET url p (if p is None then h else None)
                           None None None ∧
                 Api.req_verb value req = Api.GET ∧
                 Api.req_url value req = url ∧ Api.req_params value req = p ∧
                 Api.req_headers value req = (if p is None then h else None))
    by (unfold req; by destruct p).
  destruct Hreq as (He & Hv & Hu & Hp & Hh). clearbody req.
  destruct (send req) as [r|] eqn:Hs; cbn [fst snd].
  - split; [done|]. split; [done|]. split; [done|]. split; [done|]. split; [done|].
    split; [done|]. split; [done|].
    intros r' [= <-]. unfold Api.check_status.
    destruct (Api.status_code r =? 400) eqn:H400;
      [apply Z.eqb_eq in H400; rewrite H400;
       repeat split; try done; intros; try lia;
       exfalso; set_solver|].
    destruct (Api.status_code r =? 403) eqn:H403;
      [apply Z.eqb_eq in H403; rewrite H403;
       repeat split; try done; intros; try lia;
       exfalso; set_solver|].
    destruct (Api.status_code r =? 404) eqn:H404;
      [apply Z.eqb_eq in H404; rewrite H404;
       repeat split; try done; intros; try lia;
       exfalso; set_solver|].
    apply Z.eqb_neq in H400, H403, H404.
    destruct (Api.status_code r =? 200) eqn:H200; cbn [negb].
    + apply Z.eqb_eq in H200. repeat split; try done; intros; try lia.
      exfalso. set_solver.
    + apply Z.eqb_neq in H200. repeat split; try done; intros; try lia.
  - split; [done|]. split; [done|]. split; [done|]. split; [done|]. split; [done|].
    split; [done|]. split; [done|].
    intros r' [=].
Qed.

(** [post_request] called with both a body [d] and a JSON body [j] sends
    nothing and raises [UnboundLocalError].  Otherwise it sends one POST
    request, with [d] as data when [j] is missing and with [j] as JSON
    when only [d] is missing, and returns the response exactly when its
    status is 200; every other status, 404 included, raises the general
    error. *)
Theorem post_request_by_arguments (self : Api.t) (url : string) (d j h : option value) :
  let res := Api.post_request value send self url d j h in
  (is_Some d ∧ is_Some j → res = ([], Api.Raised Api.UnboundLocalError)) ∧
  (d = None ∨ j = None →
   ∃ req,
     res.1 = [req] ∧
     Api.req_verb value req = Api.POST ∧
     Api.req_headers value req = h ∧
     Api.req_data value req = (if j is None then d else None) ∧
     Api.req_json value req = j ∧
     (send req = None →
      res.2 = Api.Raised (Api.RequestError (Api.pushbullet_key self) url)) ∧
     (∀ r, send req = Some r →
        (Api.status_code r = 200 → res.2 = Api.Returned r) ∧
        (Api.status_code r ≠ 200 →
         res.2 = Api.Raised (Api.TwitchAPIError (Api.pushbullet_key self) url
                               (Api.status_code r) (Api.text r))))).
Proof.
  cbn zeta. unfold Api.post_request. split.
  - intros [[x ->] [y ->]]. done.
  - intros Hnone.
    assert (Hsent : ∃ req,
              match j, d with
              | None, _ => Some (Api.mkRequest value Api.POST url None h d None None)
              | Some _, None => Some (Api.mkRequest value Api.POST url None h None j None)
              | Some _, Some _ => None
              end = Some req ∧
              Api.req_verb value req = Api.POST ∧
              Api.req_headers value req = h ∧
              Api.req_data value req = (if j is None then d else None) ∧
              Api.req_json value req = j).
    { destruct j as [y|]; [destruct d as [x|]; [by destruct Hnone|]|];
        eexists; (split; [reflexivity|]); done. }
    destruct Hsent as (req & -> & Hv & Hh & Hd & Hj). exists req.
    destruct (send req) as [r|] eqn:Hs.
    + destruct (Api.status_code r =? 200) eqn:H200; cbn [negb fst snd].
      * apply Z.eqb_eq in H200.
        split; [done|]. do 4 (split; [done|]). split; [done|].
        intros r' [= <-]. split; [done|]. intros Hne. by destruct Hne.
      * apply Z.eqb_neq in H200.
        split; [done|]. do 4 (split; [done|]). split; [done|].
        intros r' [= <-]. split; [intros H; by destruct H200|done].
    + split; [done|]. do 4 (split; [done|]). split; [done|]. intros r' [=].
Qed.

End ApiFacts.

(** * Invariants of the session *)

Section SessionFacts.

Import Stream.

Variable env : Env.

Lemma tracked_keeps_unique (s s' : t) (new : list Part.t) :
  tracked s s' new → urls_unique s → urls_unique s'.
Proof.
  intros [Hb Hp Hn Hf] (Hup & Hub & Hin). unfold urls_unique. rewrite Hb, Hp.
  assert (Hfresh : ∀ x p, PartSet.contains (_processed_parts s) x = true →
                          p ∈ new → Part.url x ≠ Part.url p).
  { intros x p Hx Hpn Heq. apply Hf in Hpn.
    rewrite (contains_by_url _ x p Heq) in Hx. congruence. }
  split; [|split].
  - rewrite map_app. apply NoDup_app. split; [done|]. split; [|done].
    intros u (x & -> & Hx)%list_elem_of_fmap (p & Heq & Hpn)%list_elem_of_fmap.
    apply (Hfresh x p); [|done|done].
    apply contains_url. by exists x.
  - rewrite map_app. apply NoDup_app. split; [done|]. split; [|done].
    intros u (x & -> & Hx)%list_elem_of_fmap (p & Heq & Hpn)%list_elem_of_fmap.
    apply (Hfresh x p); [|done|done]. by apply Hin.
  - intros p [Hpb|Hpn]%elem_of_app; rewrite contains_app.
    + by rewrite (Hin p Hpb).
    + assert (PartSet.contains new p = true) as ->; [|by rewrite orb_true_r].
      apply contains_url. by exists p.
Qed.

Lemma build_queue_buffer (s : t) (w : World) :
  let r := _build_download_queue (s, w) in
  _processed_parts r.2.1 = _processed_parts s ∧
  (_incoming_part_buffer r.2.1 = [] ∨
   _incoming_part_buffer r.2.1 = _incoming_part_buffer s).
Proof.
  cbn zeta. unfold _build_download_queue. rewrite bind_run. cbn [get_self fst].
  rewrite bind_run. destruct (_download_queue s) as [q|] eqn:Hq.
  - destruct (build_loop_result (_incoming_part_buffer s) PartSet.empty s w q Hq)
      as (_ & Hb & Hp & _).
    destruct (build_loop PartSet.empty (_incoming_part_buffer s) (s, w))
      as [[[]|e] [s2 w2]]; cbn [fst snd] in *.
    + split; [done|by left].
    + split; [done|by right].
  - rewrite build_loop_no_queue by done.
    destruct (existsb is_live (_incoming_part_buffer s)); cbn.
    + split; [done|by right].
    + split; [done|by left].
Qed.

Lemma unique_after_build (s s' : t) :
  _processed_parts s' = _processed_parts s →
  _incoming_part_buffer s' = [] ∨ _incoming_part_buffer s' = _incoming_part_buffer s →
  urls_unique s → urls_unique s'.
Proof.
  intros Hp Hb (Hup & Hub & Hin). unfold urls_unique. rewrite Hp.
  destruct Hb as [-> | ->].
  - split; [done|]. split; [constructor|]. intros p Hpn. by apply elem_of_nil in Hpn.
  - done.
Qed.

Lemma pass_keeps_unique (st : state) :
  urls_unique st.1 → urls_unique (single_download_pass env st).2.1.
Proof.
  intros Hu. unfold single_download_pass, try_except. rewrite bind_run.
  destruct (fetch_tracked env st) as (new & Ht).
  pose proof (tracked_keeps_unique _ _ _ Ht Hu) as Hu1.
  destruct (_fetch_advertised_parts env st) as [[[]|e] [s1 w1]]; cbn [fst snd] in *.
  - rewrite bind_run.
    destruct (build_queue_buffer s1 w1) as [Hp Hb].
    pose proof (unique_after_build s1 _ Hp Hb Hu1) as Hu2.
    destruct (_build_download_queue (s1, w1)) as [[[]|e] [s2 w2]]; cbn [fst snd] in *.
    + destruct (download_queued_inert env (s2, w2)) as [Hst Hr].
      destruct (_download_queued_segments env (s2, w2)) as [rd std].
      cbn [fst snd] in Hst, Hr. subst std.
      destruct Hr as [->| ->]; done.
    + destruct e; try done.
      rewrite bind_run. cbn [get_self fst].
      destruct (_download_queue s2) as [q|] eqn:Hq; cbn [truthy]; [|done].
      destruct (get_final_segment_spec env (s2, w2) q Hq) as (Hs & _). by rewrite Hs.
  - destruct e; try done.
    rewrite bind_run. cbn [get_self fst].
    destruct (_download_queue s1) as [q|] eqn:Hq; cbn [truthy]; [|done].
    destruct (get_final_segment_spec env (s1, w1) q Hq) as (Hs & _). by rewrite Hs.
Qed.

End SessionFacts.

(** Over a whole session no URL is processed or buffered twice: starting
    with an empty processed set and an empty buffer, after any number of
    passes, whether they return or raise, the processed set and the part
    buffer hold no URL twice and every buffered part is in the processed
    set. *)
Theorem session_keeps_urls_unique (env : Env) (n : nat) (s : Stream.t) (w : World) :
  Stream._processed_parts s = [] →
  Stream._incoming_part_buffer s = [] →
  urls_unique (passes env n (s, w)).1.
Proof.
  intros Hp Hb.
  assert (Hu : urls_unique (s, w).1).
  { unfold urls_unique. cbn [fst]. rewrite Hp, Hb. split; [constructor|].
    split; [constructor|]. intros p Hin. by apply elem_of_nil in Hin. }
  generalize dependent (s, w). clear. intros st Hu.
  revert st Hu. induction n as [|n IH]; intros st Hu; [done|].
  cbn [passes]. apply IH. by apply pass_keeps_unique.
Qed.

Lemma session_keeps_urls_unique_witness :
  urls_unique (passes repeat_env 3 (aligned_stream, world0)).1.
Proof.
  apply (session_keeps_urls_unique repeat_env 3 aligned_stream world0); reflexivity.
Defined.

(** The buffering that [_do_setup] runs before the queue exists cannot
    get through a round: for a stream at most 116 seconds old, if the
    first fetch succeeds, [_buffer_stream] ends in the
    [StreamDownloadError] of its first pass. *)
Theorem buffering_fails_in_first_round (env : Env) (dir : string) (stream_length : Z)
    (st : Stream.state) :
  Stream._download_queue st.1 = None →
  stream_length ≤ 116 →
  (Stream._fetch_advertised_parts env
     (Stream.now env (Stream.set_output_dir dir st.1, st.2)).2).1 = Ok tt →
  (Stream._buffer_stream env dir stream_length st).1 =
    Raise (StreamDownloadError AttributeError).
Proof.
  intros Hq Hlen Hf. unfold Stream._buffer_stream. rewrite bind_run.
  cbn [Stream.modify_self fst snd]. rewrite bind_run.
  assert (Hn : ∃ n, Z.to_nat (Stream.int_of_float (inject_Z (120 - stream_length) / 4)%Q)
                    = S n).
  { assert (H1 : (1 <= inject_Z (120 - stream_length) / 4)%Q).
    { apply Qle_shift_div_l; [reflexivity|].
      change (1 * 4)%Q with (inject_Z 4). rewrite <- Zle_Qle. lia. }
    unfold Stream.int_of_float.
    assert (Qle_bool 0 (inject_Z (120 - stream_length) / 4) = true) as ->.
    { apply Qle_bool_iff. apply (Qle_trans _ 1); [discriminate|exact H1]. }
    apply Qfloor_resp_le in H1. change (Qfloor 1) with 1 in H1.
    exists (Z.to_nat (Qfloor (inject_Z (120 - stream_length) / 4)) - 1)%nat. lia. }
  destruct Hn as [n ->]. cbn [seq Stream.for_each]. rewrite bind_run.
  rewrite bind_run.
  unfold Stream.now in Hf |- *. cbn [fst snd] in Hf |- *.
  set (st1 := (Stream.set_output_dir dir st.1, _)) in *.
  pose proof (pass_without_queue env st1 Hq Hf) as Hpass.
  rewrite bind_run.
  destruct (Stream.single_download_pass env st1) as [rp st2]. cbn [fst] in Hpass.
  by subst rp.
Qed.

Lemma buffering_fails_in_first_round_witness :
  (Stream._buffer_stream repeat_env "buffer" 60 (unset_stream, world0)).1 =
    Raise (StreamDownloadError AttributeError).
Proof.
  apply (buffering_fails_in_first_round repeat_env "buffer" 60 (unset_stream, world0)).
  - reflexivity.
  - lia.
  - vm_compute. reflexivity.
Defined.

(** * The sleeps of the run loop *)

Section SleepFacts.

Import Stream.

Variable env : Env.


















End SleepFacts.



(** When the clock is set back the bound is lost: after a jump of ten
    seconds the loop sleeps for fourteen. *)
Remark backwards_clock_sleeps_long :
  trace (Stream.start backwards_clock_env 1 (aligned_stream, world0)).2.2 = [EvSleep 14].
Proof. vm_compute. reflexivity. Qed.

(** * What the relocated file holds *)

Section ContentFacts.

Import Stream.

Variable env : Env.

Lemma download_part_written (tmp : string) (p : Part.t) (s : t) (w : World)
    (old : list Byte.byte) :
  files w !! tmp = Some old →
  not_refused (net env (requests w)) →
  download_part env tmp p (s, w) =
  (Ok Continue,
   (s, mkWorld (ticks w) (fetches w) (S (requests w)) (moves w)
               (<[tmp := old ++ delivered env (requests w) (Part.url p)]> (files w))
               (trace w ++ [EvRequest (Part.url p)]))).
Proof.
  intros Hold Hnet. unfold delivered.
  destruct (net env (requests w)) as [|c|c k] eqn:Hn; cbn in Hnet.
  - unfold download_part, try_except. rewrite bind_run.
    unfold requests_get. cbn [fst snd]. rewrite Hn. cbn.
    by rewrite app_nil_r, insert_id.
  - subst c. by apply download_part_delivered.
  - subst c. unfold download_part, try_except. rewrite bind_run.
    unfold requests_get. cbn [fst snd]. rewrite Hn.
    cbn [status_code chunks broken]. change (negb (200 =? 200)) with false.
    cbv beta iota. rewrite bind_run.
    rewrite (write_loop_files tmp _ _ _ old) by done. done.
Qed.

Lemma parts_loop_written (tmp : string) (ps : list Part.t) :
  ∀ (s : t) (w : World) (old : list Byte.byte),
    files w !! tmp = Some old →
    (∀ k, (k < length ps)%nat → not_refused (net env (requests w + k))) →
    let r := for_each ps (download_part env tmp) (s, w) in
    r.1 = Ok Continue ∧
    r.2.1 = s ∧
    moves r.2.2 = moves w ∧
    files r.2.2 !! tmp = Some (old ++ delivered_all env (requests w) ps).
Proof.
  induction ps as [|p ps IH]; intros s w old Hold Hnet; cbn zeta.
  - cbn. by rewrite app_nil_r.
  - cbn [for_each]. rewrite bind_run.
    rewrite (download_part_written tmp p s w old Hold).
    2:{ specialize (Hnet 0%nat). rewrite Nat.add_0_r in Hnet. apply Hnet. cbn. lia. }
    cbv beta iota.
    set (w1 := mkWorld _ _ _ _ _ _).
    destruct (IH s w1 (old ++ delivered env (requests w) (Part.url p)))
      as (Hr & Hs & Hm & Hf).
    + apply lookup_insert_eq.
    + intros k Hk. cbn [requests w1]. specialize (Hnet (S k)).
      rewrite Nat.add_succ_r in Hnet. apply Hnet. cbn. lia.
    + split; [exact Hr|]. split; [exact Hs|]. split; [exact Hm|].
      rewrite Hf. cbn [delivered_all requests w1]. by rewrite app_assoc.
Qed.

(** When no request of the segment is answered with a status other than
    200 and the relocation succeeds, the file in the output directory
    holds, part after part, what each request delivered: the whole
    payload, the chunks that arrived before the body stream broke, or
    nothing at all for a request that failed.  The file is relocated even
    when parts of it are missing. *)
Theorem relocated_file_holds_what_arrived (seg : StreamSegment.t) (st : state) :
  (∀ k, (k < length (StreamSegment.parts seg))%nat →
        not_refused (net env (requests st.2 + k))) →
  move_ok env (moves st.2) = true →
  let r := _download_segment env seg st in
  r.1 = Ok tt ∧
  files r.2.2 !! output_path st.1 seg =
    Some (delivered_all env (requests st.2) (StreamSegment.parts seg)).
Proof.
  intros Hnet Hmove. destruct st as [s w]. cbn [fst snd] in Hnet, Hmove. cbn zeta.
  unfold _download_segment. rewrite bind_run. cbn [get_self fst].
  set (tmp := path_join _ (segment_file_name (StreamSegment.id seg))).
  rewrite bind_run. unfold range6.
  assert (Hatt : ∃ w',
            download_attempt env seg tmp 0 (s, w) = (Ok Break, (s, w')) ∧
            files w' !! output_path s seg =
              Some (delivered_all env (requests w) (StreamSegment.parts seg))).
  { unfold download_attempt. change (4 <? 0) with false. cbv beta iota.
    rewrite bind_run. unfold open_wb, get_world, set_files, modify_world.
    rewrite bind_run. cbn [fst snd]. rewrite bind_run.
    set (w1 := mkWorld _ _ _ _ (<[tmp := []]> (files w)) _).
    destruct (parts_loop_written tmp (StreamSegment.parts seg) s w1 [])
      as (Hr & Hs & Hm & Hf).
    { apply lookup_insert_eq. }
    { exact Hnet. }
    destruct (for_each (StreamSegment.parts seg) (download_part env tmp) (s, w1))
      as [r [s2 w2]].
    cbn in Hr, Hs, Hm, Hf. subst r s2.
    unfold try_except. rewrite bind_run. cbn [get_self fst]. rewrite bind_run.
    unfold safe_move. cbn [fst snd]. rewrite Hm. cbn [moves w1]. rewrite Hmove, Hf.
    eexists. split; [reflexivity|]. cbn [files]. apply lookup_insert_eq. }
  destruct Hatt as (w' & Hatt & Hfile).
  rewrite for_each_leaves by (rewrite Hatt; done).
  rewrite Hatt. cbn. done.
Qed.

End ContentFacts.

Lemma relocated_file_holds_what_arrived_witness :
  files (Stream._download_segment lossy_env three_part_segment (aligned_stream, world0)).2.2
    !! "out/00001.ts" =
  Some (served "a" ++ served "b").
Proof.
  destruct (relocated_file_holds_what_arrived lossy_env three_part_segment
              (aligned_stream, world0)) as [_ Hf].
  - intros k Hk. cbn in Hk. do 3 (destruct k as [|k]; [by cbn|]). lia.
  - reflexivity.
  - change "out/00001.ts" with (output_path (aligned_stream, world0).1 three_part_segment).
    rewrite Hf. vm_compute. reflexivity.
Defined.
